(** * kra: the reactive engine of [kra.js], embedded in Rocq

    The engine keeps its state in module-level variables and in the closures
    created by [createSignal], [createComputed] and [_makeEffect].  The
    embedding makes that state explicit: one record [state] holds the module
    variables and one cell per closure, and every operation is a function from
    states to outcomes.  Functions supplied by the caller (effect bodies,
    compute functions, updaters, cleanup callbacks, fallback resolvers) are
    function values [VFunction f], whose code is looked up in a table [code];
    their bodies are programs over the engine's interface ([prog]).

    Re-entrant notification may not terminate (an effect may write a signal it
    reads), so the interpreter is driven by fuel.

    Embedded: [track], [trigger], [cleanupTracker], [runWithTracker], [batch],
    [untrack], [share], [want], [createSignal], [createComputed] and
    [_makeEffect] (which is [createEffect] outside a component); further down,
    over the slots of an owner, [signal], [onCleanup], [_makeEffectUpdatable]
    and the owner-dependent paths of [createEffect].  The binding to React
    ([component]) is not embedded. *)

From stdpp Require Import base decidable option list strings gmap.
From Stdlib Require Import ZArith Lia.

Open Scope Z_scope.

(** ** Values *)

(** The Numbers that occur in the modelled programs: integers, negative zero
    and NaN.  [Int 0] is +0. *)
Inductive number : Type :=
| Int (z : Z)
| NegZero
| NaN.

Inductive value : Type :=
| VUndefined
| VNull
| VBool (b : bool)
| VNumber (x : number)
| VString (s : string)
| VFunction (f : nat)
| VObject (o : nat).

#[global] Instance number_eq_dec : EqDecision number.
Proof. solve_decision. Defined.
#[global] Instance value_eq_dec : EqDecision value.
Proof. solve_decision. Defined.

(** [Object.is]: same value; NaN is the same as NaN, +0 is not -0, functions
    and objects are compared by identity. *)
Definition Object_is (v w : value) : bool := bool_decide (v = w).

(** [===], for contrast with [Object.is]. *)
Definition strict_equals (v w : value) : bool :=
  match v, w with
  | VNumber NaN, _ | _, VNumber NaN => false
  | VNumber (Int 0), VNumber NegZero | VNumber NegZero, VNumber (Int 0) => true
  | _, _ => bool_decide (v = w)
  end.

(** [typeof v === 'function'] *)
Definition is_function (v : value) : bool :=
  match v with VFunction _ => true | _ => false end.

(** Truthiness, as used by [c ? x : y]. *)
Definition truthy (v : value) : bool :=
  match v with
  | VUndefined | VNull => false
  | VBool b => b
  | VNumber (Int z) => negb (z =? 0)
  | VNumber NegZero | VNumber NaN => false
  | VString s => negb (bool_decide (s = EmptyString))
  | VFunction _ | VObject _ => true
  end.

Definition TypeError : value := VString "TypeError: not a function".
Definition ReferenceError : value := VString "ReferenceError".

(** ** Trackers, subscriber sets and cells *)

(** A tracker is an object with [_deps] and [_notify]: the [innerTracker] of a
    computed or the [tracker] of an effect. *)
Inductive tracker : Type :=
| ComputedTracker (c : nat)
| EffectTracker (e : nat).

(** The [subscribers] Set of a signal or of a computed, by identity. *)
Inductive subscribers_ref : Type :=
| SignalSubscribers (s : nat)
| ComputedSubscribers (c : nat).

#[global] Instance tracker_eq_dec : EqDecision tracker.
Proof. solve_decision. Defined.
#[global] Instance subscribers_ref_eq_dec : EqDecision subscribers_ref.
Proof. solve_decision. Defined.

(** A JavaScript [Set] iterates in insertion order: a list without
    duplicates, [add] appends when absent, [delete] removes. *)
Definition set_add {A} `{EqDecision A} (x : A) (l : list A) : list A :=
  if decide (x ∈ l) then l else l ++ [x].

Definition set_delete {A} `{EqDecision A} (x : A) (l : list A) : list A :=
  filter (λ y, y ≠ x) l.

(** The closure of [createSignal]. *)
Record signal_cell : Type := {
  sig_value : value;
  sig_subscribers : list tracker;
}.

(** The closure of [createComputed]. *)
Record computed_cell : Type := {
  computeFn : value;
  cachedValue : value;
  dirty : bool;
  comp_subscribers : list tracker;
  comp_deps : list subscribers_ref;
}.

(** The closure of [_makeEffect]. *)
Record effect_cell : Type := {
  effectFn : value;
  cleanupFn : value;
  active : bool;
  eff_deps : list subscribers_ref;
}.

(** An owner, as far as [share] and [want] use it: [_provided] (null or an
    object used as a map) and [parent]. *)
#[local] Unset Elimination Schemes.
Inductive owner : Type :=
| Owner (_provided : option (gmap string value)) (parent : option owner).
#[local] Set Elimination Schemes.

Definition owner_provided (o : owner) : option (gmap string value) :=
  match o with Owner p _ => p end.
Definition owner_parent (o : owner) : option owner :=
  match o with Owner _ p => p end.

(** Ghost history: which callbacks the engine has invoked, oldest first.  The
    source keeps no such record; it is what the tests observe with spies. *)
Inductive event : Type :=
| Notified (t : tracker)        (* t._notify() was called *)
| Computed (c : nat)            (* computeFn of c was invoked *)
| EffectRan (e : nat)           (* effectFn of e was invoked *)
| CleanupCalled (e : nat).      (* the stored cleanupFn of e was invoked *)

#[global] Instance event_eq_dec : EqDecision event.
Proof. solve_decision. Defined.

(** ** The state *)

Record state : Type := {
  activeTracker : option tracker;
  trackerStack : list (option tracker);     (* top of the stack first *)
  batchDepth : Z;
  pendingNotifications : list tracker;
  currentOwner : option owner;
  signals : list signal_cell;
  computeds : list computed_cell;
  effects : list effect_cell;
  log : list value;                         (* the caller's array [log] *)
  console : list value;                     (* what console.error / console.warn received *)
  history : list event;                     (* ghost *)
}.

Definition initial_state : state := {|
  activeTracker := None; trackerStack := []; batchDepth := 0;
  pendingNotifications := []; currentOwner := None;
  signals := []; computeds := []; effects := [];
  log := []; console := []; history := [];
|}.

Definition set_activeTracker (x : option tracker) (st : state) : state :=
  {| activeTracker := x; trackerStack := trackerStack st; batchDepth := batchDepth st;
     pendingNotifications := pendingNotifications st; currentOwner := currentOwner st;
     signals := signals st; computeds := computeds st; effects := effects st;
     log := log st; console := console st; history := history st |}.

Definition set_trackerStack (x : list (option tracker)) (st : state) : state :=
  {| activeTracker := activeTracker st; trackerStack := x; batchDepth := batchDepth st;
     pendingNotifications := pendingNotifications st; currentOwner := currentOwner st;
     signals := signals st; computeds := computeds st; effects := effects st;
     log := log st; console := console st; history := history st |}.

Definition set_batchDepth (x : Z) (st : state) : state :=
  {| activeTracker := activeTracker st; trackerStack := trackerStack st; batchDepth := x;
     pendingNotifications := pendingNotifications st; currentOwner := currentOwner st;
     signals := signals st; computeds := computeds st; effects := effects st;
     log := log st; console := console st; history := history st |}.

Definition set_pendingNotifications (x : list tracker) (st : state) : state :=
  {| activeTracker := activeTracker st; trackerStack := trackerStack st; batchDepth := batchDepth st;
     pendingNotifications := x; currentOwner := currentOwner st;
     signals := signals st; computeds := computeds st; effects := effects st;
     log := log st; console := console st; history := history st |}.

Definition set_currentOwner (x : option owner) (st : state) : state :=
  {| activeTracker := activeTracker st; trackerStack := trackerStack st; batchDepth := batchDepth st;
     pendingNotifications := pendingNotifications st; currentOwner := x;
     signals := signals st; computeds := computeds st; effects := effects st;
     log := log st; console := console st; history := history st |}.

Definition set_signals (x : list signal_cell) (st : state) : state :=
  {| activeTracker := activeTracker st; trackerStack := trackerStack st; batchDepth := batchDepth st;
     pendingNotifications := pendingNotifications st; currentOwner := currentOwner st;
     signals := x; computeds := computeds st; effects := effects st;
     log := log st; console := console st; history := history st |}.

Definition set_computeds (x : list computed_cell) (st : state) : state :=
  {| activeTracker := activeTracker st; trackerStack := trackerStack st; batchDepth := batchDepth st;
     pendingNotifications := pendingNotifications st; currentOwner := currentOwner st;
     signals := signals st; computeds := x; effects := effects st;
     log := log st; console := console st; history := history st |}.

Definition set_effects (x : list effect_cell) (st : state) : state :=
  {| activeTracker := activeTracker st; trackerStack := trackerStack st; batchDepth := batchDepth st;
     pendingNotifications := pendingNotifications st; currentOwner := currentOwner st;
     signals := signals st; computeds := computeds st; effects := x;
     log := log st; console := console st; history := history st |}.

Definition set_log (x : list value) (st : state) : state :=
  {| activeTracker := activeTracker st; trackerStack := trackerStack st; batchDepth := batchDepth st;
     pendingNotifications := pendingNotifications st; currentOwner := currentOwner st;
     signals := signals st; computeds := computeds st; effects := effects st;
     log := x; console := console st; history := history st |}.

Definition set_console (x : list value) (st : state) : state :=
  {| activeTracker := activeTracker st; trackerStack := trackerStack st; batchDepth := batchDepth st;
     pendingNotifications := pendingNotifications st; currentOwner := currentOwner st;
     signals := signals st; computeds := computeds st; effects := effects st;
     log := log st; console := x; history := history st |}.

Definition set_history (x : list event) (st : state) : state :=
  {| activeTracker := activeTracker st; trackerStack := trackerStack st; batchDepth := batchDepth st;
     pendingNotifications := pendingNotifications st; currentOwner := currentOwner st;
     signals := signals st; computeds := computeds st; effects := effects st;
     log := log st; console := console st; history := x |}.

Definition record (ev : event) (st : state) : state :=
  set_history (history st ++ [ev]) st.

(** [console.error(msg, e)] and [console.warn(msg)] *)
Definition console_error (e : value) (st : state) : state :=
  set_console (console st ++ [e]) st.
Definition console_warn (msg : string) (st : state) : state :=
  set_console (console st ++ [VString msg]) st.

(** ** Cell updates *)

Definition with_sig_value (v : value) (c : signal_cell) : signal_cell :=
  {| sig_value := v; sig_subscribers := sig_subscribers c |}.
Definition with_sig_subscribers (f : list tracker → list tracker) (c : signal_cell) : signal_cell :=
  {| sig_value := sig_value c; sig_subscribers := f (sig_subscribers c) |}.

Definition with_cachedValue (v : value) (c : computed_cell) : computed_cell :=
  {| computeFn := computeFn c; cachedValue := v; dirty := dirty c;
     comp_subscribers := comp_subscribers c; comp_deps := comp_deps c |}.
Definition with_dirty (b : bool) (c : computed_cell) : computed_cell :=
  {| computeFn := computeFn c; cachedValue := cachedValue c; dirty := b;
     comp_subscribers := comp_subscribers c; comp_deps := comp_deps c |}.
Definition with_comp_subscribers (f : list tracker → list tracker) (c : computed_cell) : computed_cell :=
  {| computeFn := computeFn c; cachedValue := cachedValue c; dirty := dirty c;
     comp_subscribers := f (comp_subscribers c); comp_deps := comp_deps c |}.
Definition with_comp_deps (f : list subscribers_ref → list subscribers_ref) (c : computed_cell) : computed_cell :=
  {| computeFn := computeFn c; cachedValue := cachedValue c; dirty := dirty c;
     comp_subscribers := comp_subscribers c; comp_deps := f (comp_deps c) |}.

Definition with_cleanupFn (v : value) (c : effect_cell) : effect_cell :=
  {| effectFn := effectFn c; cleanupFn := v; active := active c; eff_deps := eff_deps c |}.
Definition with_active (b : bool) (c : effect_cell) : effect_cell :=
  {| effectFn := effectFn c; cleanupFn := cleanupFn c; active := b; eff_deps := eff_deps c |}.
Definition with_eff_deps (f : list subscribers_ref → list subscribers_ref) (c : effect_cell) : effect_cell :=
  {| effectFn := effectFn c; cleanupFn := cleanupFn c; active := active c; eff_deps := f (eff_deps c) |}.

Definition alter_signal (f : signal_cell → signal_cell) (s : nat) (st : state) : state :=
  set_signals (alter f s (signals st)) st.
Definition alter_computed (f : computed_cell → computed_cell) (c : nat) (st : state) : state :=
  set_computeds (alter f c (computeds st)) st.
Definition alter_effect (f : effect_cell → effect_cell) (e : nat) (st : state) : state :=
  set_effects (alter f e (effects st)) st.

(** The elements of a [subscribers] Set, and of a tracker's [_deps]. *)
Definition subscribers_of (ss : subscribers_ref) (st : state) : list tracker :=
  match ss with
  | SignalSubscribers s => from_option sig_subscribers [] (signals st !! s)
  | ComputedSubscribers c => from_option comp_subscribers [] (computeds st !! c)
  end.

Definition deps_of (t : tracker) (st : state) : list subscribers_ref :=
  match t with
  | ComputedTracker c => from_option comp_deps [] (computeds st !! c)
  | EffectTracker e => from_option eff_deps [] (effects st !! e)
  end.

Definition alter_subscribers (f : list tracker → list tracker) (ss : subscribers_ref) (st : state) : state :=
  match ss with
  | SignalSubscribers s => alter_signal (with_sig_subscribers f) s st
  | ComputedSubscribers c => alter_computed (with_comp_subscribers f) c st
  end.

Definition alter_deps (f : list subscribers_ref → list subscribers_ref) (t : tracker) (st : state) : state :=
  match t with
  | ComputedTracker c => alter_computed (with_comp_deps f) c st
  | EffectTracker e => alter_effect (with_eff_deps f) e st
  end.

(** ** The engine: operations that call nothing back *)

(** [track(subscribers)] *)
Definition track (ss : subscribers_ref) (st : state) : state :=
  match activeTracker st with
  | Some t => alter_deps (set_add ss) t (alter_subscribers (set_add t) ss st)
  | None => st
  end.

(** [cleanupTracker(tracker)] *)
Definition cleanupTracker (t : tracker) (st : state) : state :=
  alter_deps (λ _, []) t
    (foldl (λ acc depSet, alter_subscribers (set_delete t) depSet acc) st (deps_of t st)).

(** [trackerStack.push(activeTracker); activeTracker = t] *)
Definition push_tracker (t : option tracker) (st : state) : state :=
  set_activeTracker t (set_trackerStack (activeTracker st :: trackerStack st) st).

(** [activeTracker = trackerStack.pop()]; popping an empty array gives
    undefined, which the engine treats like null. *)
Definition pop_tracker (st : state) : state :=
  match trackerStack st with
  | t :: rest => set_activeTracker t (set_trackerStack rest st)
  | [] => set_activeTracker None st
  end.

(** ** Programs of the caller *)

(** What a caller's function can do: the engine's exported interface, plus
    [log.push].  Signals, computeds and effects are referred to by the index
    of their cell; a continuation receives what the call returns. *)
Inductive prog : Type :=
| Return (v : value)
| Throw (e : value)
| Read (s : nat) (k : value → prog)                   (* s() *)
| Write (s : nat) (arg : value) (k : prog)            (* s(arg) *)
| Peek (s : nat) (k : value → prog)                   (* s.peek() *)
| ReadComputed (c : nat) (k : value → prog)           (* c() *)
| PeekComputed (c : nat) (k : value → prog)           (* c.peek() *)
| CreateSignal (v : value) (k : nat → prog)
| CreateComputed (fn : value) (k : nat → prog)
| CreateEffect (fn : value) (k : nat → prog)          (* _makeEffect(fn).dispose *)
| Dispose (e : nat) (k : prog)                        (* dispose() *)
| Batch (fn : value) (k : value → prog)
| Untrack (fn : value) (k : value → prog)
| Share (key : string) (v : value) (k : prog)
| Want (key : string) (fallback : value) (k : value → prog)
| Push (v : value) (k : value → prog).                (* log.push(v) *)

(** ** Outcomes *)

Inductive outcome (A : Type) : Type :=
| Ok (a : A) (st : state)         (* returned a *)
| Thrown (e : value) (st : state) (* threw e *)
| OutOfFuel.
Arguments Ok {A} a st.
Arguments Thrown {A} e st.
Arguments OutOfFuel {A}.

Definition bind {A B} (m : outcome A) (f : A → state → outcome B) : outcome B :=
  match m with
  | Ok a st => f a st
  | Thrown e st => Thrown e st
  | OutOfFuel => OutOfFuel
  end.

Notation "x <~ m ;; f" := (bind m (λ x, f))
  (at level 100, m at next level, right associativity, only parsing).

(** [try { return body } finally { fin }] where [fin] cannot fail. *)
Definition try_finally {A} (body : outcome A) (fin : state → state) : outcome A :=
  match body with
  | Ok a st => Ok a (fin st)
  | Thrown e st => Thrown e (fin st)
  | OutOfFuel => OutOfFuel
  end.

(** [try { return body } finally { fin }] where [fin] may itself throw, which
    then replaces the completion of [body]. *)
Definition try_finally_with {A} (body : outcome A) (fin : state → outcome unit) : outcome A :=
  match body with
  | Ok a st => bind (fin st) (λ _ st', Ok a st')
  | Thrown e st => bind (fin st) (λ _ st', Thrown e st')
  | OutOfFuel => OutOfFuel
  end.

(** [for (const x of xs) body(x)] over a snapshot [xs]. *)
Fixpoint for_each {A} (body : A → state → outcome unit) (xs : list A) (st : state) : outcome unit :=
  match xs with
  | [] => Ok () st
  | x :: rest => bind (body x st) (λ _ st', for_each body rest st')
  end.

(** The parent-chain walk of [want], starting at [cur]:
    [while (cur) { if (cur._provided && key in cur._provided) return
    cur._provided[key]; cur = cur.parent }].  [_provided] is taken as the map
    of its own properties, and keys are the strings the caller shares: names
    that every object inherits from [Object.prototype], and a prototype set
    through ["__proto__"], are not modelled. *)
Fixpoint find_provided (key : string) (cur : owner) : option value :=
  match cur with
  | Owner p parent =>
      match p ≫= (λ m, m !! key) with
      | Some v => Some v
      | None =>
          match parent with
          | Some o => find_provided key o
          | None => None
          end
      end
  end.

(** [share(key, value)] *)
Definition share (key : string) (v : value) (st : state) : state :=
  match currentOwner st with
  | None => console_warn "share() must be called inside a component setup." st
  | Some (Owner p parent) =>
      set_currentOwner (Some (Owner (Some (<[key := v]> (default ∅ p))) parent)) st
  end.

(** ** The engine: operations that call back *)

Section Engine.

(** The code of the caller's functions: [code f args] is the body of
    function [f] applied to [args]. *)
Variable code : nat → list value → prog.

Section Step.

(** The two recursive entry points, at the fuel below. *)
Variable run : prog → state → outcome value.
Variable notify : tracker → state → outcome unit.

(** [fn(...args)]: calling anything but a function throws a TypeError. *)
Definition call (fn : value) (args : list value) (st : state) : outcome value :=
  match fn with
  | VFunction f => run (code f args) st
  | _ => Thrown TypeError st
  end.

(** [trigger(subscribers)] *)
Definition trigger (ss : subscribers_ref) (st : state) : outcome unit :=
  let trackers := subscribers_of ss st in
  for_each (λ t st,
    if 0 <? batchDepth st
    then Ok () (set_pendingNotifications (set_add t (pendingNotifications st)) st)
    else notify t st) trackers st.

(** [runWithTracker(tracker, fn)] *)
Definition runWithTracker (t : tracker) (fn : value) (st : state) : outcome value :=
  try_finally (call fn [] (push_tracker (Some t) st)) pop_tracker.

(** [untrack(fn)] *)
Definition untrack (fn : value) (st : state) : outcome value :=
  try_finally (call fn [] (push_tracker None st)) pop_tracker.

(** [batch(fn)] *)
Definition batch (fn : value) (st : state) : outcome value :=
  try_finally_with (call fn [] (set_batchDepth (batchDepth st + 1) st))
    (λ st,
       let st := set_batchDepth (batchDepth st - 1) st in
       if batchDepth st =? 0 then
         let effects := pendingNotifications st in
         for_each notify effects (set_pendingNotifications [] st)
       else Ok () st).

(** [want(key, fallback)] *)
Definition want (key : string) (fallback : value) (st : state) : outcome value :=
  match currentOwner st with
  | None => call fallback [] st
  | Some owner =>
      match owner_parent owner ≫= find_provided key with
      | Some v => Ok v st
      | None => call fallback [] st
      end
  end.

(** [sig()] of [createSignal] *)
Definition sig_read (s : nat) (st : state) : outcome value :=
  match signals st !! s with
  | Some cell => Ok (sig_value cell) (track (SignalSubscribers s) st)
  | None => Thrown ReferenceError st
  end.

(** [sig.peek()] *)
Definition sig_peek (s : nat) (st : state) : outcome value :=
  match signals st !! s with
  | Some cell => Ok (sig_value cell) st
  | None => Thrown ReferenceError st
  end.

(** [sig(arg)] of [createSignal] *)
Definition sig_write (s : nat) (arg : value) (st : state) : outcome value :=
  match signals st !! s with
  | Some cell =>
      nextValue <~ (if is_function arg then call arg [sig_value cell] st else Ok arg st) ;;
      λ st,
        let value := from_option sig_value VUndefined (signals st !! s) in
        if negb (Object_is value nextValue) then
          _ <~ trigger (SignalSubscribers s) (alter_signal (with_sig_value nextValue) s st) ;;
          Ok VUndefined
        else Ok VUndefined st
  | None => Thrown ReferenceError st
  end.

(** [createSignal(initialValue)]: returns the new signal. *)
Definition createSignal (initialValue : value) (st : state) : nat * state :=
  (length (signals st),
   set_signals (signals st ++ [{| sig_value := initialValue; sig_subscribers := [] |}]) st).

(** [createComputed(computeFn)]: returns the new computed. *)
Definition createComputed (fn : value) (st : state) : nat * state :=
  (length (computeds st),
   set_computeds (computeds st ++
     [{| computeFn := fn; cachedValue := VUndefined; dirty := true;
         comp_subscribers := []; comp_deps := [] |}]) st).

(** [innerTracker._notify()] of [createComputed] *)
Definition computed_notify (c : nat) (st : state) : outcome unit :=
  match computeds st !! c with
  | Some cell =>
      if negb (dirty cell)
      then trigger (ComputedSubscribers c) (alter_computed (with_dirty true) c st)
      else Ok () st
  | None => Ok () st
  end.

(** [computed.peek()]: evaluate if dirty, return the cached value. *)
Definition computed_peek (c : nat) (st : state) : outcome value :=
  match computeds st !! c with
  | Some cell =>
      if dirty cell then
        v <~ runWithTracker (ComputedTracker c) (computeFn cell)
              (record (Computed c) (cleanupTracker (ComputedTracker c) st)) ;;
        λ st, Ok v (alter_computed (with_dirty false) c (alter_computed (with_cachedValue v) c st))
      else Ok (cachedValue cell) st
  | None => Thrown ReferenceError st
  end.

(** [computed()] *)
Definition computed_read (c : nat) (st : state) : outcome value :=
  match computeds st !! c with
  | Some _ => computed_peek c (track (ComputedSubscribers c) st)
  | None => Thrown ReferenceError st
  end.

(** [if (typeof cleanupFn === 'function') try { cleanupFn() } catch (e)
    { console.error(...) }], shared by [execute] and [dispose]. *)
Definition call_cleanupFn (e : nat) (st : state) : outcome unit :=
  match effects st !! e with
  | Some cell =>
      if is_function (cleanupFn cell) then
        match call (cleanupFn cell) [] (record (CleanupCalled e) st) with
        | Ok _ st' => Ok () st'
        | Thrown err st' => Ok () (console_error err st')
        | OutOfFuel => OutOfFuel
        end
      else Ok () st
  | None => Ok () st
  end.

(** [execute()] of [_makeEffect] *)
Definition execute (e : nat) (st : state) : outcome unit :=
  _ <~ call_cleanupFn e st ;;
  λ st,
    let fn := from_option effectFn VUndefined (effects st !! e) in
    r <~ runWithTracker (EffectTracker e) fn
          (record (EffectRan e) (cleanupTracker (EffectTracker e) st)) ;;
    λ st, Ok () (alter_effect (with_cleanupFn r) e st).

(** [dispose()] of [_makeEffect] *)
Definition dispose (e : nat) (st : state) : outcome unit :=
  match effects st !! e with
  | Some cell =>
      if negb (active cell) then Ok () st
      else
        _ <~ call_cleanupFn e (alter_effect (with_active false) e st) ;;
        λ st, Ok () (cleanupTracker (EffectTracker e) st)
  | None => Ok () st
  end.

(** [tracker._notify()] of [_makeEffect] *)
Definition effect_notify (e : nat) (st : state) : outcome unit :=
  match effects st !! e with
  | Some cell => if active cell then execute e st else Ok () st
  | None => Ok () st
  end.

(** [_makeEffect(effectFn)]: returns the new effect, whose [dispose] is
    what [createEffect] returns outside a component. *)
Definition _makeEffect (fn : value) (st : state) : outcome nat :=
  let e := length (effects st) in
  _ <~ execute e (set_effects (effects st ++
         [{| effectFn := fn; cleanupFn := VNull; active := true; eff_deps := [] |}]) st) ;;
  Ok e.

(** [tracker._notify()], by the kind of tracker. *)
Definition _notify (t : tracker) (st : state) : outcome unit :=
  match t with
  | ComputedTracker c => computed_notify c (record (Notified t) st)
  | EffectTracker e => effect_notify e (record (Notified t) st)
  end.

(** One step of a caller's program. *)
Definition step (p : prog) (st : state) : outcome value :=
  match p with
  | Return v => Ok v st
  | Throw e => Thrown e st
  | Read s k => v <~ sig_read s st ;; run (k v)
  | Write s arg k => _ <~ sig_write s arg st ;; run k
  | Peek s k => v <~ sig_peek s st ;; run (k v)
  | ReadComputed c k => v <~ computed_read c st ;; run (k v)
  | PeekComputed c k => v <~ computed_peek c st ;; run (k v)
  | CreateSignal v k => let '(s, st) := createSignal v st in run (k s) st
  | CreateComputed fn k => let '(c, st) := createComputed fn st in run (k c) st
  | CreateEffect fn k => e <~ _makeEffect fn st ;; run (k e)
  | Dispose e k => _ <~ dispose e st ;; run k
  | Batch fn k => v <~ batch fn st ;; run (k v)
  | Untrack fn k => v <~ untrack fn st ;; run (k v)
  | Share key v k => run k (share key v st)
  | Want key fallback k => v <~ want key fallback st ;; run (k v)
  | Push v k =>
      let st := set_log (log st ++ [v]) st in
      run (k (VNumber (Int (Z.of_nat (length (log st)))))) st
  end.

End Step.

(** Tying the knot: every call of a caller's function and every [_notify]
    uses one unit of fuel. *)
Fixpoint run (n : nat) (p : prog) (st : state) {struct n} : outcome value :=
  match n with
  | O => OutOfFuel
  | S n' => step (run n') (notify n') p st
  end
with notify (n : nat) (t : tracker) (st : state) {struct n} : outcome unit :=
  match n with
  | O => OutOfFuel
  | S n' => _notify (run n') (notify n') t st
  end.

End Engine.

(** ** Programs of the scenarios *)

(** Arithmetic of the caller's functions: [x * y] on the modelled Numbers. *)
Definition number_mul (x y : number) : number :=
  match x, y with
  | Int a, Int b =>
      if (a * b =? 0) && ((a <? 0) || (b <? 0)) then NegZero else Int (a * b)
  | NegZero, Int b => if b <? 0 then Int 0 else NegZero
  | Int a, NegZero => if a <? 0 then Int 0 else NegZero
  | NegZero, NegZero => Int 0
  | _, _ => NaN
  end.

Definition js_mul (v w : value) : value :=
  match v, w with
  | VNumber x, VNumber y => VNumber (number_mul x y)
  | _, _ => VNumber NaN
  end.

Definition num (z : Z) : value := VNumber (Int z).

(** Scenario of the end-to-end property:
    [s = createSignal(0); d = createComputed(() => s() * 2); log = [];
     dispose = createEffect(() => log.push(d()))]. *)
Module Doubling.

(** Function 0 is [() => s() * 2], function 1 is [() => log.push(d())],
    function 2 is [() => { s(7); return d() }]; [s] is signal 0 and [d] is
    computed 0, the first of their kind. *)
Definition code (f : nat) (args : list value) : prog :=
  match f with
  | 0%nat => Read 0 (λ v, Return (js_mul v (num 2)))
  | 1%nat => ReadComputed 0 (λ v, Push v Return)
  | 2%nat => Write 0 (num 7) (ReadComputed 0 Return)
  | _ => Return VUndefined
  end.

Definition setup (k : nat → nat → nat → prog) : prog :=
  CreateSignal (num 0) (λ s,
  CreateComputed (VFunction 0) (λ d,
  CreateEffect (VFunction 1) (λ dispose, k s d dispose))).

(** [s(3); s(5)] *)
Definition main : prog :=
  setup (λ s d dispose, Write s (num 3) (Write s (num 5) (Return VUndefined))).

(** [s(v1); ...; s(vn)] *)
Fixpoint writes (s : nat) (vs : list value) : prog :=
  match vs with
  | [] => Return VUndefined
  | v :: vs => Write s v (writes s vs)
  end.

(** [s(3); s(5); dispose(); s(v1); ...; s(vn)] *)
Definition main_disposed (vs : list value) : prog :=
  setup (λ s d dispose,
    Write s (num 3) (Write s (num 5) (Dispose dispose (writes s vs)))).

(** [s(3); s(5); return batch(() => { s(7); return d() })] *)
Definition main_batch_read : prog :=
  setup (λ s d dispose,
    Write s (num 3) (Write s (num 5) (Batch (VFunction 2) Return))).

(** The state after [s] and [d] have been created. *)
Definition created_cell : computed_cell :=
  {| computeFn := VFunction 0; cachedValue := VUndefined; dirty := true;
     comp_subscribers := []; comp_deps := [] |}.

Definition created : state := {|
  activeTracker := None; trackerStack := []; batchDepth := 0;
  pendingNotifications := []; currentOwner := None;
  signals := [{| sig_value := num 0; sig_subscribers := [] |}];
  computeds := [created_cell]; effects := [];
  log := []; console := []; history := [];
|}.

(** The state after [main]. *)
Definition after_main : state := {|
  activeTracker := None; trackerStack := []; batchDepth := 0;
  pendingNotifications := []; currentOwner := None;
  signals := [{| sig_value := num 5; sig_subscribers := [ComputedTracker 0] |}];
  computeds := [{| computeFn := VFunction 0; cachedValue := num 10; dirty := false;
                   comp_subscribers := [EffectTracker 0];
                   comp_deps := [SignalSubscribers 0] |}];
  effects := [{| effectFn := VFunction 1; cleanupFn := num 3; active := true;
                 eff_deps := [ComputedSubscribers 0] |}];
  log := [num 0; num 6; num 10]; console := [];
  history := [EffectRan 0; Computed 0; Notified (ComputedTracker 0);
              Notified (EffectTracker 0); EffectRan 0; Computed 0;
              Notified (ComputedTracker 0); Notified (EffectTracker 0);
              EffectRan 0; Computed 0];
|}.

(** The states after [dispose()]: only the value of [s], the dirty flag of
    [d] and the history vary. *)
Definition disposed (v : value) (b : bool) (h : list event) : state := {|
  activeTracker := None; trackerStack := []; batchDepth := 0;
  pendingNotifications := []; currentOwner := None;
  signals := [{| sig_value := v; sig_subscribers := [ComputedTracker 0] |}];
  computeds := [{| computeFn := VFunction 0; cachedValue := num 10; dirty := b;
                   comp_subscribers := []; comp_deps := [SignalSubscribers 0] |}];
  effects := [{| effectFn := VFunction 1; cleanupFn := num 3; active := false;
                 eff_deps := [] |}];
  log := [num 0; num 6; num 10]; console := []; history := h;
|}.

End Doubling.

Definition number_add (x y : number) : number :=
  match x, y with
  | Int a, Int b => Int (a + b)
  | NegZero, NegZero => NegZero
  | NegZero, Int b => Int b
  | Int a, NegZero => Int a
  | _, _ => NaN
  end.

(** [x + y] on Numbers; other operands are not used by the scenarios. *)
Definition js_add (v w : value) : value :=
  match v, w with
  | VNumber x, VNumber y => VNumber (number_add x y)
  | _, _ => VNumber NaN
  end.

(** The diamond: [a = createSignal(1); b = createComputed(() => a() * 2);
    c = createComputed(() => a() * 3); createEffect(() => log.push(b() + c()))]. *)
Module Diamond.

(** Functions 0 and 1 are the two compute functions, function 2 is the
    effect, function 3 is [() => { a(2) }]. *)
Definition code (f : nat) (args : list value) : prog :=
  match f with
  | 0%nat => Read 0 (λ v, Return (js_mul v (num 2)))
  | 1%nat => Read 0 (λ v, Return (js_mul v (num 3)))
  | 2%nat => ReadComputed 0 (λ x, ReadComputed 1 (λ y, Push (js_add x y) Return))
  | 3%nat => Write 0 (num 2) (Return VUndefined)
  | _ => Return VUndefined
  end.

Definition setup (k : prog) : prog :=
  CreateSignal (num 1) (λ a,
  CreateComputed (VFunction 0) (λ b,
  CreateComputed (VFunction 1) (λ c,
  CreateEffect (VFunction 2) (λ _, k)))).

(** Only the set-up. *)
Definition main_setup : prog := setup (Return VUndefined).

(** [a(2)] outside any batch. *)
Definition main_plain : prog := setup (Write 0 (num 2) (Return VUndefined)).

(** [batch(() => { a(2) })] *)
Definition main_batch : prog := setup (Batch (VFunction 3) Return).

(** Any diamond of this shape: [b = createComputed(() => gb(a()))],
    [c = createComputed(() => gc(a()))] and the effect
    [() => log.push(h(b(), c()))], for functions [gb], [gc] and [h] of
    values; function 3 is [() => { a(w) }]. *)
Definition code_of (gb gc : value → value) (h : value → value → value) (w : value)
    (f : nat) (args : list value) : prog :=
  match f with
  | 0%nat => Read 0 (λ v, Return (gb v))
  | 1%nat => Read 0 (λ v, Return (gc v))
  | 2%nat => ReadComputed 0 (λ x, ReadComputed 1 (λ y, Push (h x y) Return))
  | 3%nat => Write 0 w (Return VUndefined)
  | _ => Return VUndefined
  end.

Definition setup_of (v : value) (k : prog) : prog :=
  CreateSignal v (λ a,
  CreateComputed (VFunction 0) (λ b,
  CreateComputed (VFunction 1) (λ c,
  CreateEffect (VFunction 2) (λ _, k)))).

(** The states of a diamond between writes: the value [v] of [a], the log
    and the history vary; both computeds are clean and cache [gb v] and
    [gc v], both are subscribed to [a] and the effect to both of them.
    (The effect's arrow function returns what [push] returned, the length of
    the log, which the effect stores as [cleanupFn].) *)
Definition st (gb gc : value → value) (v : value) (lg : list value) (hs : list event)
    : state := {|
  activeTracker := None; trackerStack := []; batchDepth := 0;
  pendingNotifications := []; currentOwner := None;
  signals := [{| sig_value := v;
                 sig_subscribers := [ComputedTracker 0; ComputedTracker 1] |}];
  computeds :=
    [{| computeFn := VFunction 0; cachedValue := gb v; dirty := false;
        comp_subscribers := [EffectTracker 0]; comp_deps := [SignalSubscribers 0] |};
     {| computeFn := VFunction 1; cachedValue := gc v; dirty := false;
        comp_subscribers := [EffectTracker 0]; comp_deps := [SignalSubscribers 0] |}];
  effects :=
    [{| effectFn := VFunction 2; cleanupFn := VNumber (Int (Z.of_nat (length lg)));
        active := true;
        eff_deps := [ComputedSubscribers 0; ComputedSubscribers 1] |}];
  log := lg; console := []; history := hs;
|}.

(** The history after a write of a different value to [a]: each computed is
    notified and notifies the effect, which runs and reads both computeds,
    evaluating the dirty one. *)
Definition rerun (hs : list event) : list event :=
  (((((((hs ++ [Notified (ComputedTracker 0)]) ++ [Notified (EffectTracker 0)])
        ++ [EffectRan 0]) ++ [Computed 0])
      ++ [Notified (ComputedTracker 1)]) ++ [Notified (EffectTracker 0)])
    ++ [EffectRan 0]) ++ [Computed 1].

End Diamond.

(** A signal holding NaN with one subscriber, the effect [() => { s() }]
    (function 0 of [code]). *)
Module NaNSignal.

Definition code (f : nat) (args : list value) : prog :=
  match f with
  | 0%nat => Read 0 (λ _, Return VUndefined)
  | _ => Return VUndefined
  end.

Definition cell : signal_cell :=
  {| sig_value := VNumber NaN; sig_subscribers := [EffectTracker 0] |}.

Definition st : state := {|
  activeTracker := None; trackerStack := []; batchDepth := 0;
  pendingNotifications := []; currentOwner := None;
  signals := [cell]; computeds := [];
  effects := [{| effectFn := VFunction 0; cleanupFn := VUndefined; active := true;
                 eff_deps := [SignalSubscribers 0] |}];
  log := []; console := []; history := [EffectRan 0];
|}.

(** It is the state after [s = createSignal(NaN); createEffect(() => { s() })]. *)
Definition main : prog :=
  CreateSignal (VNumber NaN) (λ s, CreateEffect (VFunction 0) (λ _, Return VUndefined)).

End NaNSignal.

(** An effect on two signals:
    [a = createSignal(0); b = createSignal(0);
     createEffect(() => { log.push(a() + b()) })]. *)
Module Pair.

(** Function 0 is the effect, function 1 is [() => { a(1); b(2); return 42 }],
    function 2 is [() => { a(1); batch(() => { b(2) }); return 42 }] and
    function 3 is its inner [() => { b(2) }]. *)
Definition code (f : nat) (args : list value) : prog :=
  match f with
  | 0%nat => Read 0 (λ x, Read 1 (λ y, Push (js_add x y) (λ _, Return VUndefined)))
  | 1%nat => Write 0 (num 1) (Write 1 (num 2) (Return (num 42)))
  | 2%nat => Write 0 (num 1) (Batch (VFunction 3) (λ _, Return (num 42)))
  | 3%nat => Write 1 (num 2) (Return VUndefined)
  | _ => Return VUndefined
  end.

Definition setup (k : prog) : prog :=
  CreateSignal (num 0) (λ a, CreateSignal (num 0) (λ b,
  CreateEffect (VFunction 0) (λ _, k))).

(** The state after the set-up. *)
Definition after_setup : state := {|
  activeTracker := None; trackerStack := []; batchDepth := 0;
  pendingNotifications := []; currentOwner := None;
  signals := [{| sig_value := num 0; sig_subscribers := [EffectTracker 0] |};
              {| sig_value := num 0; sig_subscribers := [EffectTracker 0] |}];
  computeds := [];
  effects := [{| effectFn := VFunction 0; cleanupFn := VUndefined; active := true;
                 eff_deps := [SignalSubscribers 0; SignalSubscribers 1] |}];
  log := [num 0]; console := []; history := [EffectRan 0];
|}.

(** [a(1); b(2)] *)
Definition main_plain : prog :=
  setup (Write 0 (num 1) (Write 1 (num 2) (Return VUndefined))).

(** [return batch(() => { a(1); b(2); return 42 })] *)
Definition main_batch : prog := setup (Batch (VFunction 1) Return).

(** [return batch(() => { a(1); batch(() => { b(2) }); return 42 })] *)
Definition main_nested : prog := setup (Batch (VFunction 2) Return).

End Pair.

(** An effect that reads a signal and a computed of that signal:
    [a = createSignal(1); b = createComputed(() => a() * 2);
     createEffect(() => { log.push(a() + b()) })]. *)
Module Mixed.

(** Function 0 is the compute function, function 1 is the effect, function 2
    is [() => { a(2) }]. *)
Definition code (f : nat) (args : list value) : prog :=
  match f with
  | 0%nat => Read 0 (λ v, Return (js_mul v (num 2)))
  | 1%nat => Read 0 (λ x, ReadComputed 0 (λ y, Push (js_add x y) (λ _, Return VUndefined)))
  | 2%nat => Write 0 (num 2) (Return VUndefined)
  | _ => Return VUndefined
  end.

Definition setup (k : prog) : prog :=
  CreateSignal (num 1) (λ a,
  CreateComputed (VFunction 0) (λ b,
  CreateEffect (VFunction 1) (λ _, k))).

(** The state after the set-up: the effect and the computed are both
    subscribers of [a]. *)
Definition after_setup : state := {|
  activeTracker := None; trackerStack := []; batchDepth := 0;
  pendingNotifications := []; currentOwner := None;
  signals := [{| sig_value := num 1;
                 sig_subscribers := [EffectTracker 0; ComputedTracker 0] |}];
  computeds := [{| computeFn := VFunction 0; cachedValue := num 2; dirty := false;
                   comp_subscribers := [EffectTracker 0];
                   comp_deps := [SignalSubscribers 0] |}];
  effects := [{| effectFn := VFunction 1; cleanupFn := VUndefined; active := true;
                 eff_deps := [SignalSubscribers 0; ComputedSubscribers 0] |}];
  log := [num 3]; console := []; history := [EffectRan 0; Computed 0];
|}.

(** [batch(() => { a(2) })] *)
Definition main_batch : prog := setup (Batch (VFunction 2) Return).

End Mixed.

(** An effect with an untracked read:
    [createEffect(() => { a(); untrack(() => b()); log.push(0) })]. *)
Module Untracked.

(** Function 0 is the effect, function 1 is [() => b()], function 2 is
    [() => { throw "boom" }]. *)
Definition code (f : nat) (args : list value) : prog :=
  match f with
  | 0%nat => Read 0 (λ _, Untrack (VFunction 1) (λ _, Push (num 0) (λ _, Return VUndefined)))
  | 1%nat => Read 1 Return
  | 2%nat => Throw (VString "boom")
  | _ => Return VUndefined
  end.

Definition setup (k : prog) : prog :=
  CreateSignal (num 0) (λ a, CreateSignal (num 0) (λ b,
  CreateEffect (VFunction 0) (λ _, k))).

End Untracked.

(** An effect with a cleanup callback:
    [s = createSignal(0);
     dispose = createEffect(() => { s(); log.push(1); return () => { log.push(-1) } })]. *)
Module Cleanup.

(** Function 0 is the effect, function 1 its cleanup callback. *)
Definition code (f : nat) (args : list value) : prog :=
  match f with
  | 0%nat => Read 0 (λ _, Push (num 1) (λ _, Return (VFunction 1)))
  | 1%nat => Push (num (-1)) (λ _, Return VUndefined)
  | _ => Return VUndefined
  end.

Definition setup (k : nat → nat → prog) : prog :=
  CreateSignal (num 0) (λ s, CreateEffect (VFunction 0) (λ dispose, k s dispose)).

Definition cell : effect_cell :=
  {| effectFn := VFunction 0; cleanupFn := VFunction 1; active := true;
     eff_deps := [SignalSubscribers 0] |}.

(** The state after the set-up. *)
Definition after_setup : state := {|
  activeTracker := None; trackerStack := []; batchDepth := 0;
  pendingNotifications := []; currentOwner := None;
  signals := [{| sig_value := num 0; sig_subscribers := [EffectTracker 0] |}];
  computeds := []; effects := [cell];
  log := [num 1]; console := []; history := [EffectRan 0];
|}.

(** [dispose(); dispose(); s(9)] *)
Definition main : prog :=
  setup (λ s dispose, Dispose dispose (Dispose dispose (Write s (num 9) (Return VUndefined)))).

End Cleanup.

(** An effect whose cleanup callback disposes the effect:
    [s = createSignal(0);
     dispose = createEffect(() => { s(); log.push(1);
                                    return () => { dispose(); log.push(-1) } })]. *)
Module SelfDispose.

(** Function 0 is the effect, function 1 its cleanup callback; the effect is
    effect 0. *)
Definition code (f : nat) (args : list value) : prog :=
  match f with
  | 0%nat => Read 0 (λ _, Push (num 1) (λ _, Return (VFunction 1)))
  | 1%nat => Dispose 0 (Push (num (-1)) (λ _, Return VUndefined))
  | _ => Return VUndefined
  end.

Definition setup (k : prog) : prog :=
  CreateSignal (num 0) (λ s, CreateEffect (VFunction 0) (λ dispose, k)).

Definition cell : effect_cell :=
  {| effectFn := VFunction 0; cleanupFn := VFunction 1; active := true;
     eff_deps := [SignalSubscribers 0] |}.

(** The state after the set-up. *)
Definition after_setup : state := {|
  activeTracker := None; trackerStack := []; batchDepth := 0;
  pendingNotifications := []; currentOwner := None;
  signals := [{| sig_value := num 0; sig_subscribers := [EffectTracker 0] |}];
  computeds := []; effects := [cell];
  log := [num 1]; console := []; history := [EffectRan 0];
|}.

(** The state in which [execute], started by the write [s(1)], calls the
    cleanup callback. *)
Definition at_cleanup : state :=
  record (CleanupCalled 0)
    (record (Notified (EffectTracker 0))
       (alter_signal (with_sig_value (num 1)) 0 after_setup)).

End SelfDispose.

(** Conditional dependencies:
    [toggle = createSignal(true); a = createSignal(1); b = createSignal(2);
     createEffect(() => toggle() ? a() : b())]. *)
Module Toggle.

(** Function 0 is the effect; [toggle], [a], [b] are signals 0, 1, 2. *)
Definition code (f : nat) (args : list value) : prog :=
  match f with
  | 0%nat => Read 0 (λ t, if truthy t then Read 1 Return else Read 2 Return)
  | _ => Return VUndefined
  end.

Definition setup (k : prog) : prog :=
  CreateSignal (VBool true) (λ toggle,
  CreateSignal (num 1) (λ a,
  CreateSignal (num 2) (λ b,
  CreateEffect (VFunction 0) (λ _, k)))).

(** The signal read by the branch that [tv] selects. *)
Definition taken (tv : value) : nat := if truthy tv then 1%nat else 2%nat.

(** The states of the scenario: the three values and the history vary; the
    effect is subscribed to [toggle] and to the signal of the taken branch,
    and to nothing else.  (The arrow function returns what it read, which
    the effect stores as [cleanupFn].) *)
Definition st (tv av bv : value) (h : list event) : state := {|
  activeTracker := None; trackerStack := []; batchDepth := 0;
  pendingNotifications := []; currentOwner := None;
  signals :=
    [{| sig_value := tv; sig_subscribers := [EffectTracker 0] |};
     {| sig_value := av;
        sig_subscribers := if truthy tv then [EffectTracker 0] else [] |};
     {| sig_value := bv;
        sig_subscribers := if truthy tv then [] else [EffectTracker 0] |}];
  computeds := [];
  effects :=
    [{| effectFn := VFunction 0; cleanupFn := if truthy tv then av else bv;
        active := true;
        eff_deps := [SignalSubscribers 0; SignalSubscribers (taken tv)] |}];
  log := []; console := []; history := h;
|}.

(** The history after one more notification and evaluation of the effect. *)
Definition rerun (h : list event) : list event :=
  (h ++ [Notified (EffectTracker 0)]) ++ [EffectRan 0].

End Toggle.

(** Injection: a root owner that has shared ["user"], and a child of it. *)
Module Injection.

(** Function 0 is the resolver [() => "light"]. *)
Definition code (f : nat) (args : list value) : prog :=
  match f with
  | 0%nat => Return (VString "light")
  | _ => Return VUndefined
  end.

Definition root : owner := Owner (Some {["user" := VObject 1]}) None.
Definition child : owner := Owner None (Some root).

(** Inside the set-up of [child]. *)
Definition in_child : state := set_currentOwner (Some child) initial_state.

End Injection.

(** ** What the invariants look at *)

(** The part of the state the invariants speak about.  Subscriber sets,
    dependency sets, values and the caller's [log] are left out: operations
    that touch only those leave the view as it is. *)
Record view : Type := {
  v_active : option tracker;
  v_stack : list (option tracker);
  v_depth : Z;
  v_pending : list tracker;
  v_history : list event;
  v_alive : list bool;
  v_computeds : nat;
}.

Definition view_of (st : state) : view := {|
  v_active := activeTracker st; v_stack := trackerStack st; v_depth := batchDepth st;
  v_pending := pendingNotifications st; v_history := history st;
  v_alive := active <$> effects st; v_computeds := length (computeds st);
|}.

(** Effect [e] exists and has been disposed. *)
Definition inactive (e : nat) (st : state) : Prop :=
  (active <$> effects st) !! e = Some false.

(** The tracker context and the batch depth are as they were. *)
Definition balanced (st st' : state) : Prop :=
  activeTracker st' = activeTracker st ∧
  trackerStack st' = trackerStack st ∧
  batchDepth st' = batchDepth st.

(** The history only grows, a disposed effect stays disposed and neither runs
    nor cleans up, the pending set stays duplicate-free, no computed
    disappears. *)
Definition extends (st st' : state) : Prop :=
  ∃ h, history st' = history st ++ h ∧
       (∀ e, inactive e st → inactive e st' ∧ (EffectRan e ∉ h) ∧ (CleanupCalled e ∉ h)) ∧
       (NoDup (pendingNotifications st) → NoDup (pendingNotifications st')) ∧
       (length (computeds st) ≤ length (computeds st'))%nat.

(** Inside a batch, what is pending stays pending. *)
Definition keeps_pending (st st' : state) : Prop :=
  0 < batchDepth st →
  ∀ t, t ∈ pendingNotifications st → t ∈ pendingNotifications st'.

Definition sound (st st' : state) : Prop :=
  balanced st st' ∧ extends st st' ∧ keeps_pending st st'.

(** A property of the final state of an outcome that did not run out of fuel. *)
Definition ensures {A} (P : state → Prop) (o : outcome A) : Prop :=
  match o with
  | Ok _ st' | Thrown _ st' => P st'
  | OutOfFuel => True
  end.


(** How often an event occurs in a history. *)
Definition occurrences (ev : event) (h : list event) : nat :=
  length (filter (λ x, x = ev) h).

(** The pending set after [trigger] inside a batch. *)
Definition deferred (trackers pending : list tracker) : list tracker :=
  foldl (λ acc t, set_add t acc) pending trackers.



(** Effect [e] is disposed in [st'] as it was in [st], and between the two
    states neither its body nor its cleanup callback has been invoked. *)
Definition frozen (e : nat) (st st' : state) : Prop :=
  inactive e st' ∧
  occurrences (EffectRan e) (history st') = occurrences (EffectRan e) (history st) ∧
  occurrences (CleanupCalled e) (history st') = occurrences (CleanupCalled e) (history st).

(** No ancestor of the current owner has shared [key]; also when there is no
    current owner. *)
Definition not_shared (key : string) (st : state) : Prop :=
  match currentOwner st with
  | None => True
  | Some o => owner_parent o ≫= find_provided key = None
  end.

(** [o'] is [o], unless [o] ran out of fuel. *)
Definition defined_as {A} (o o' : outcome A) : Prop :=
  o = OutOfFuel ∨ o' = o.

(** A dirty computed stays dirty until it is evaluated: in [st'] it is still
    dirty, or an evaluation of it has been recorded since [st]. *)
Definition keeps_dirty (st st' : state) : Prop :=
  (∃ h, history st' = history st ++ h) ∧
  (length (computeds st) ≤ length (computeds st'))%nat ∧
  ∀ c cell, computeds st !! c = Some cell → dirty cell = true →
    ∃ cell', computeds st' !! c = Some cell' ∧
             (dirty cell' = true ∨
              (occurrences (Computed c) (history st)
               < occurrences (Computed c) (history st'))%nat).

(** ** Well-formed states *)

(** The cell of a tracker exists. *)
Definition tracker_exists (t : tracker) (st : state) : Prop :=
  match t with
  | ComputedTracker c => (c < length (computeds st))%nat
  | EffectTracker e => (e < length (effects st))%nat
  end.

(** The [subscribers] Set exists. *)
Definition subscribers_exist (ss : subscribers_ref) (st : state) : Prop :=
  match ss with
  | SignalSubscribers s => (s < length (signals st))%nat
  | ComputedSubscribers c => (c < length (computeds st))%nat
  end.

(** The two directions of an edge agree: a tracker is in a [subscribers] Set
    exactly when that Set is in the tracker's [_deps]. *)
Definition edges_symmetric (st : state) : Prop :=
  ∀ t ss, t ∈ subscribers_of ss st ↔ ss ∈ deps_of t st.

(** What holds of every state the engine reaches from the initial one. *)
Definition tidy (st : state) : Prop :=
  0 ≤ batchDepth st ∧
  (batchDepth st = 0 → pendingNotifications st = []) ∧
  (∀ t, activeTracker st = Some t → tracker_exists t st) ∧
  (∀ t, Some t ∈ trackerStack st → tracker_exists t st) ∧
  edges_symmetric st.

(** What only grows: the console output and the three stores of cells. *)
Definition grows (st st' : state) : Prop :=
  (∃ c, console st' = console st ++ c) ∧
  (length (signals st) ≤ length (signals st'))%nat ∧
  (length (computeds st) ≤ length (computeds st'))%nat ∧
  (length (effects st) ≤ length (effects st'))%nat.

Definition steady (st st' : state) : Prop :=
  grows st st' ∧ (tidy st → tidy st').

(** ** Statements about owners *)

(** The owner [o] below a chain of owners, nearest first, each given by its
    [_provided]. *)
Fixpoint below (chain : list (option (gmap string value))) (o : owner) : owner :=
  match chain with
  | [] => o
  | p :: rest => Owner p (Some (below rest o))
  end.

(** [_provided] does not hold [key]. *)
Definition lacks (key : string) (p : option (gmap string value)) : Prop :=
  p ≫= (λ m, m !! key) = None.

(** [_provided] is a plain object.  [key in _provided] also holds for the
    names it inherits from [Object.prototype], and an assignment to
    ["__proto__"] sets its prototype instead of creating a property.  The
    models of [share] and [want] take [_provided] as the map of its own
    properties: they are what the code does for objects that were never given
    a ["__proto__"], looked up at keys that are not inherited names.  The
    statements about [share] and [want] below say so in their hypotheses. *)
Definition Object_prototype_names : list string :=
  ["constructor"; "__defineGetter__"; "__defineSetter__"; "hasOwnProperty";
   "__lookupGetter__"; "__lookupSetter__"; "isPrototypeOf"; "propertyIsEnumerable";
   "toString"; "valueOf"; "__proto__"; "toLocaleString"].

(** [key] is not a name that every object inherits. *)
Definition plain_key (key : string) : Prop := key ∉ Object_prototype_names.

(** ** Statements about effects *)

(** No effect is active. *)
Definition no_live_effects (st : state) : Prop :=
  ∀ e cell, effects st !! e = Some cell → active cell = false.

(** The state without the dirty flags, the pending set and the history. *)
Definition unmarked (st : state) : state :=
  set_history [] (set_pendingNotifications []
    (set_computeds (with_dirty false <$> computeds st) st)).

(** [st'] is [st] except for dirty flags, pending trackers and recorded
    [_notify] calls. *)
Definition only_marks (st st' : state) : Prop :=
  unmarked st' = unmarked st ∧
  ∃ h, history st' = history st ++ h ∧ Forall (λ ev, ∃ t, ev = Notified t) h.

(** ** Components: the slots of an owner

    Inside a component [signal], [createEffect] and [onCleanup] read and
    update fields of [currentOwner].  Whether there is an owner is read from
    the state; the fields of that owner other than [_provided] and [parent]
    are the record [owner_slots], passed in and out. *)

(** [owner.mode], null until the first setup. *)
Inductive owner_mode : Type :=
| RenderFn   (* 'render-fn' *)
| Jsx.       (* 'jsx' *)

(** An entry of [owner.disposables]: the [dispose] of an effect, or a value
    given to [onCleanup]. *)
Inductive disposable : Type :=
| DisposeEffect (e : nat)
| CleanupCallback (fn : value).

Record owner_slots : Type := {
  mode : option owner_mode;
  disposables : list disposable;
  owner_signals : list nat;            (* owner.signals *)
  signalIndex : nat;
  owner_effects : list nat;            (* owner.effects *)
  effectIndex : nat;
  _cleanupSet : option (list value);   (* undefined until first used *)
}.

(** The owner that [component] creates at the first render. *)
Definition new_owner_slots : owner_slots :=
  {| mode := None; disposables := []; owner_signals := []; signalIndex := 0%nat;
     owner_effects := []; effectIndex := 0%nat; _cleanupSet := None |}.

Definition with_mode (x : option owner_mode) (o : owner_slots) : owner_slots :=
  {| mode := x; disposables := disposables o; owner_signals := owner_signals o;
     signalIndex := signalIndex o; owner_effects := owner_effects o;
     effectIndex := effectIndex o; _cleanupSet := _cleanupSet o |}.
Definition with_disposables (x : list disposable) (o : owner_slots) : owner_slots :=
  {| mode := mode o; disposables := x; owner_signals := owner_signals o;
     signalIndex := signalIndex o; owner_effects := owner_effects o;
     effectIndex := effectIndex o; _cleanupSet := _cleanupSet o |}.
Definition with_owner_signals (x : list nat) (o : owner_slots) : owner_slots :=
  {| mode := mode o; disposables := disposables o; owner_signals := x;
     signalIndex := signalIndex o; owner_effects := owner_effects o;
     effectIndex := effectIndex o; _cleanupSet := _cleanupSet o |}.
Definition with_signalIndex (x : nat) (o : owner_slots) : owner_slots :=
  {| mode := mode o; disposables := disposables o; owner_signals := owner_signals o;
     signalIndex := x; owner_effects := owner_effects o;
     effectIndex := effectIndex o; _cleanupSet := _cleanupSet o |}.
Definition with__cleanupSet (x : option (list value)) (o : owner_slots) : owner_slots :=
  {| mode := mode o; disposables := disposables o; owner_signals := owner_signals o;
     signalIndex := signalIndex o; owner_effects := owner_effects o;
     effectIndex := effectIndex o; _cleanupSet := x |}.


(** SameValueZero, the equality of [Set.prototype.has]: NaN is the same as
    NaN and +0 the same as -0. *)
Definition same_value_zero (v w : value) : bool :=
  Object_is v w || strict_equals v w.

(** [set.has(v)] *)
Definition Set_has (v : value) (l : list value) : bool :=
  existsb (same_value_zero v) l.

(** [signal(initialValue)]: returns the signal and the owner's slots. *)
Definition signal (initialValue : value) (o : owner_slots) (st : state)
    : nat * owner_slots * state :=
  match currentOwner st, mode o with
  | Some _, Some Jsx =>
      let idx := signalIndex o in
      let o := with_signalIndex (S idx) o in
      match owner_signals o !! idx with   (* idx < owner.signals.length *)
      | Some sig => (sig, o, st)
      | None =>
          let '(sig, st) := createSignal initialValue st in
          (sig, with_owner_signals (owner_signals o ++ [sig]) o, st)
      end
  | _, _ =>
      let '(sig, st) := createSignal initialValue st in (sig, o, st)
  end.

(** [onCleanup(fn)] *)
Definition onCleanup (fn : value) (o : owner_slots) (st : state) : owner_slots :=
  match currentOwner st with
  | None => o
  | Some _ =>
      match mode o with
      | Some RenderFn => with_disposables (disposables o ++ [CleanupCallback fn]) o
      | _ =>
          if (length (owner_signals o) <? signalIndex o)%nat then o
          else
            let cset := default [] (_cleanupSet o) in
            if Set_has fn cset then with__cleanupSet (Some cset) o
            else
              with_disposables (disposables o ++ [CleanupCallback fn])
                (with__cleanupSet (Some (cset ++ [fn])) o)
      end
  end.




(** A setup function that calls [signal] once for each of the given initial
    values, in order; the signals it obtained. *)
Fixpoint signals_of_setup (inits : list value) (o : owner_slots) (st : state)
    : list nat * owner_slots * state :=
  match inits with
  | [] => ([], o, st)
  | v :: rest =>
      let '(sig, o, st) := signal v o st in
      let '(sigs, o, st) := signals_of_setup rest o st in
      (sig :: sigs, o, st)
  end.

(** The slots of an owner in 'jsx' mode before its setup runs. *)
Definition jsx_owner_slots : owner_slots := with_mode (Some Jsx) new_owner_slots.

(** A state inside a component without ancestors. *)
Definition in_component (st : state) : state :=
  set_currentOwner (Some (Owner None None)) st.

(** ** The condensed copy of the engine

    The repository holds a second, condensed copy of the engine whose [want]
    differs from that of [kra.js]. *)
Module Condensed.

(** [want(key, fallback)] of the condensed copy:
    [for (let o = currentOwner?.parent; o; o = o.parent) if (o._provided &&
    key in o._provided) return o._provided[key];
    return typeof fallback === 'function' ? fallback() : fallback]. *)
Definition want (code : nat → list value → prog) (run : prog → state → outcome value)
    (key : string) (fallback : value) (st : state) : outcome value :=
  match (currentOwner st ≫= owner_parent) ≫= find_provided key with
  | Some v => Ok v st
  | None => if is_function fallback then call code run fallback [] st else Ok fallback st
  end.

End Condensed.

(** An effect whose cleanup callback throws:
    [createEffect(() => { s(); log.push(1); return () => { throw "bad" } })]. *)
Module Faulty.

(** Function 0 is the effect, function 1 its cleanup callback, function 2 is
    [() => { s(1); throw "stop" }]. *)
Definition code (f : nat) (args : list value) : prog :=
  match f with
  | 0%nat => Read 0 (λ _, Push (num 1) (λ _, Return (VFunction 1)))
  | 1%nat => Throw (VString "bad")
  | 2%nat => Write 0 (num 1) (Throw (VString "stop"))
  | _ => Return VUndefined
  end.

Definition cell : effect_cell :=
  {| effectFn := VFunction 0; cleanupFn := VFunction 1; active := true;
     eff_deps := [SignalSubscribers 0] |}.

(** The state after [s = createSignal(0)] and the creation of the effect. *)
Definition after_setup : state := {|
  activeTracker := None; trackerStack := []; batchDepth := 0;
  pendingNotifications := []; currentOwner := None;
  signals := [{| sig_value := num 0; sig_subscribers := [EffectTracker 0] |}];
  computeds := []; effects := [cell];
  log := [num 1]; console := []; history := [EffectRan 0];
|}.

End Faulty.

(** A counter with an updater: function 0 is [(c) => c + 1], function 1 is
    [(c) => (() => c)], an updater that returns a function. *)
Module Counter.

Definition code (f : nat) (args : list value) : prog :=
  match f, args with
  | 0%nat, [c] => Return (js_add c (num 1))
  | 1%nat, [c] => Return (VFunction 2)
  | _, _ => Return VUndefined
  end.

Definition cell : signal_cell := {| sig_value := num 5; sig_subscribers := [] |}.

(** The state after [count = createSignal(5)]. *)
Definition st : state := set_signals [cell] initial_state.

End Counter.

(** * Metatheory *)

Lemma alive_alter f e (l : list effect_cell) :
  (∀ c, active (f c) = active c) → active <$> alter f e l = active <$> l.
Proof.
  intros Hf. apply list_eq. intros i. rewrite !list_lookup_fmap.
  destruct (decide (e = i)) as [->|Hne].
  - rewrite list_lookup_alter_eq. destruct (l !! i); simpl; [by rewrite Hf|done].
  - by rewrite list_lookup_alter_ne.
Qed.

Lemma view_alter_subscribers f ss st : view_of (alter_subscribers f ss st) = view_of st.
Proof.
  destruct ss; unfold view_of; simpl; f_equal. apply length_alter.
Qed.

Lemma view_alter_deps f t st : view_of (alter_deps f t st) = view_of st.
Proof.
  destruct t; unfold view_of; simpl; f_equal.
  - apply length_alter.
  - by apply alive_alter.
Qed.

Lemma view_alter_signal f s st : view_of (alter_signal f s st) = view_of st.
Proof. done. Qed.

Lemma view_alter_computed f c st : view_of (alter_computed f c st) = view_of st.
Proof. unfold view_of; simpl; f_equal. apply length_alter. Qed.

Lemma view_alter_effect f e st :
  (∀ c, active (f c) = active c) → view_of (alter_effect f e st) = view_of st.
Proof. intros Hf. unfold view_of; simpl; f_equal. by apply alive_alter. Qed.

Lemma view_track ss st : view_of (track ss st) = view_of st.
Proof.
  unfold track. destruct (activeTracker st); [|done].
  by rewrite view_alter_deps, view_alter_subscribers.
Qed.

Lemma view_cleanupTracker t st : view_of (cleanupTracker t st) = view_of st.
Proof.
  unfold cleanupTracker. rewrite view_alter_deps.
  generalize (deps_of t st). intros l. revert st.
  induction l as [|d l IH]; intros st; simpl; [done|].
  by rewrite IH, view_alter_subscribers.
Qed.

Lemma view_set_log l st : view_of (set_log l st) = view_of st.
Proof. done. Qed.

Lemma view_console_error e st : view_of (console_error e st) = view_of st.
Proof. done. Qed.

Lemma view_share key v st : view_of (share key v st) = view_of st.
Proof. unfold share. by destruct (currentOwner st) as [[]|]. Qed.

(** The invariants depend on the view only. *)
Lemma sound_view_r st st1 st2 :
  view_of st2 = view_of st1 → sound st st1 → sound st st2.
Proof.
  intros Hv ((Ha & Hs & Hd) & (h & Hh & Hi & Hp & Hc) & Hk).
  injection Hv as Ea Es Ed Ep Eh El Ec.
  split; [split_and!; congruence|]. split.
  - exists h. unfold inactive in *. rewrite Eh, El, Ep, Ec. done.
  - unfold keeps_pending. by rewrite Ep.
Qed.

Lemma sound_view_l st1 st2 st' :
  view_of st2 = view_of st1 → sound st1 st' → sound st2 st'.
Proof.
  intros Hv ((Ha & Hs & Hd) & (h & Hh & Hi & Hp & Hc) & Hk).
  injection Hv as Ea Es Ed Ep Eh El Ec.
  split; [split_and!; congruence|]. split.
  - exists h. unfold inactive in *. rewrite Eh, El, Ep, Ec. done.
  - unfold keeps_pending. by rewrite Ed, Ep.
Qed.

Lemma extends_refl st : extends st st.
Proof.
  exists []. rewrite app_nil_r. split_and!; auto.
  intros e He. split_and!; [done|apply not_elem_of_nil..].
Qed.

Lemma extends_trans st1 st2 st3 : extends st1 st2 → extends st2 st3 → extends st1 st3.
Proof.
  intros (h1 & Hh1 & Hi1 & Hp1 & Hc1) (h2 & Hh2 & Hi2 & Hp2 & Hc2).
  exists (h1 ++ h2). split_and!.
  - by rewrite Hh2, Hh1, app_assoc.
  - intros e He. destruct (Hi1 e He) as (He1 & Hr1 & Hk1).
    destruct (Hi2 e He1) as (He2 & Hr2 & Hk2).
    split_and!; [done|..]; rewrite elem_of_app; tauto.
  - auto.
  - lia.
Qed.

Lemma sound_refl st : sound st st.
Proof. split; [done|]. split; [apply extends_refl|by intros ?]. Qed.

Lemma sound_trans st1 st2 st3 : sound st1 st2 → sound st2 st3 → sound st1 st3.
Proof.
  intros ((Ha & Hs & Hd) & He & Hk) ((Ha' & Hs' & Hd') & He' & Hk').
  split; [split_and!; congruence|]. split; [by eapply extends_trans|].
  intros H t Ht. apply Hk'; [lia|by apply Hk].
Qed.

Lemma Ok_inj {A} (a a' : A) st st' : Ok a st = Ok a' st' → a = a' ∧ st = st'.
Proof. by intros [= -> ->]. Qed.

Lemma ensures_mono {A} (P Q : state → Prop) (o : outcome A) :
  (∀ st, P st → Q st) → ensures P o → ensures Q o.
Proof. destruct o; simpl; auto. Qed.

Lemma ensures_bind {A B} (P Q : state → Prop) (m : outcome A) (f : A → state → outcome B) :
  ensures P m → (∀ st, P st → Q st) → (∀ a st, P st → ensures Q (f a st)) →
  ensures Q (bind m f).
Proof. destruct m; simpl; auto. Qed.

(** Recording an event of [e] is sound relative to a state in which [e] was
    not disposed. *)
Lemma sound_record st0 st ev :
  (∀ e, ev = EffectRan e ∨ ev = CleanupCalled e → ¬ inactive e st0) →
  sound st0 st → sound st0 (record ev st).
Proof.
  intros Hev (Hb & (h & Hh & Hi & Hp & Hc) & Hk). split; [done|]. split; [|done].
  exists (h ++ [ev]). split_and!; [|clear Hh|done..].
  - simpl. by rewrite Hh, app_assoc.
  - intros e He. destruct (Hi e He) as (He1 & Hr1 & Hk1).
    split_and!; [done|..]; rewrite elem_of_app, list_elem_of_singleton;
      intros [?|<-]; try done; eapply Hev; eauto.
Qed.

Lemma NoDup_set_add {A} `{EqDecision A} (x : A) l : NoDup l → NoDup (set_add x l).
Proof.
  intros Hl. unfold set_add. case_decide; [done|].
  apply NoDup_app. split_and!; [done| |apply NoDup_singleton].
  intros y Hy ->%list_elem_of_singleton. done.
Qed.

Lemma elem_of_set_add {A} `{EqDecision A} (x y : A) l : y ∈ set_add x l ↔ y = x ∨ y ∈ l.
Proof.
  unfold set_add. case_decide.
  - split; [auto|]. by intros [->|].
  - rewrite elem_of_app, list_elem_of_singleton. tauto.
Qed.

(** ** Every operation is sound *)

Section Soundness.

Variable code : nat → list value → prog.
Variable run : prog → state → outcome value.
Variable notify : tracker → state → outcome unit.
Hypothesis run_sound : ∀ p st, ensures (sound st) (run p st).
Hypothesis notify_sound : ∀ t st, ensures (sound st) (notify t st).

Lemma call_sound fn args st : ensures (sound st) (call code run fn args st).
Proof. destruct fn; simpl; auto using sound_refl. Qed.

Lemma call_sound_from st0 fn args st :
  sound st0 st → ensures (sound st0) (call code run fn args st).
Proof.
  intros H. eapply ensures_mono; [|apply call_sound].
  intros st'. by apply sound_trans.
Qed.

Lemma for_each_sound {A} (body : A → state → outcome unit) xs st :
  (∀ x st, ensures (sound st) (body x st)) →
  ensures (sound st) (for_each body xs st).
Proof.
  intros Hbody. cut (∀ st0, sound st0 st → ensures (sound st0) (for_each body xs st)).
  { intros H. apply H, sound_refl. }
  revert st. induction xs as [|x xs IH]; intros st st0 H0; simpl; [done|].
  eapply ensures_bind with (P := sound st0); [|done|auto].
  eapply ensures_mono; [|apply Hbody]. intros st'. by apply sound_trans.
Qed.

Lemma sound_pending_add t st :
  sound st (set_pendingNotifications (set_add t (pendingNotifications st)) st).
Proof.
  split; [done|]. split.
  - exists []. simpl. rewrite app_nil_r. split_and!; auto.
    + intros e He. split_and!; [done|apply not_elem_of_nil..].
    + apply NoDup_set_add.
  - intros _ t' Ht'. simpl. apply elem_of_set_add. by right.
Qed.

Lemma trigger_sound ss st : ensures (sound st) (trigger notify ss st).
Proof.
  unfold trigger. apply for_each_sound. intros t st1.
  destruct (0 <? batchDepth st1); [apply sound_pending_add|apply notify_sound].
Qed.

Lemma sound_push_pop t st st' :
  sound (push_tracker t st) st' → sound st (pop_tracker st').
Proof.
  intros ((Ha & Hs & Hd) & (h & Hh & Hi & Hp & Hc) & Hk). simpl in *.
  unfold pop_tracker. rewrite Hs. split; [done|]. split; [by exists h|done].
Qed.

Lemma scoped_sound t fn st :
  ensures (sound st) (try_finally (call code run fn [] (push_tracker t st)) pop_tracker).
Proof.
  pose proof (call_sound fn [] (push_tracker t st)) as H.
  destruct (call _ _ _ _ _); [exact (sound_push_pop t _ _ H)..|done].
Qed.

Lemma runWithTracker_sound t fn st : ensures (sound st) (runWithTracker code run t fn st).
Proof. apply scoped_sound. Qed.

Lemma untrack_sound fn st : ensures (sound st) (untrack code run fn st).
Proof. apply scoped_sound. Qed.

Lemma sound_depth_restore st st' :
  sound (set_batchDepth (batchDepth st + 1) st) st' →
  sound st (set_batchDepth (batchDepth st' - 1) st').
Proof.
  intros ((Ha & Hs & Hd) & (h & Hh & Hi & Hp & Hc) & Hk). simpl in *.
  split; [split_and!; simpl; [done..|lia]|]. split; [by exists h|].
  intros Hpos. apply Hk. simpl. lia.
Qed.

Lemma sound_pending_clear st :
  batchDepth st = 0 → sound st (set_pendingNotifications [] st).
Proof.
  intros Hd. split; [done|]. split.
  - exists []. simpl. rewrite app_nil_r. split_and!; auto.
    + intros e He. split_and!; [done|apply not_elem_of_nil..].
    + intros _. apply NoDup_nil_2.
  - intros Hpos. lia.
Qed.

Lemma batch_exit_sound st0 st :
  sound (set_batchDepth (batchDepth st0 + 1) st0) st →
  ensures (sound st0)
    (let st := set_batchDepth (batchDepth st - 1) st in
     if batchDepth st =? 0
     then for_each notify (pendingNotifications st) (set_pendingNotifications [] st)
     else Ok () st).
Proof.
  intros H%sound_depth_restore. cbv zeta.
  destruct (Z.eqb_spec (batchDepth (set_batchDepth (batchDepth st - 1) st)) 0) as [E|E];
    [|done].
  eapply ensures_mono; [|apply for_each_sound, notify_sound].
  intros st'. apply sound_trans. eapply sound_trans; [exact H|by apply sound_pending_clear].
Qed.

Lemma batch_sound fn st : ensures (sound st) (batch code run notify fn st).
Proof.
  unfold batch, try_finally_with.
  pose proof (call_sound fn [] (set_batchDepth (batchDepth st + 1) st)) as H.
  destruct (call _ _ _ _ _) as [a st1|e st1|]; simpl in H; [..|done].
  - eapply ensures_bind; [by apply batch_exit_sound|auto..].
  - eapply ensures_bind; [by apply batch_exit_sound|auto..].
Qed.

Lemma want_sound key fallback st : ensures (sound st) (want code run key fallback st).
Proof.
  unfold want. destruct (currentOwner st) as [o|]; [|apply call_sound].
  destruct (_ ≫= _); [apply sound_refl|apply call_sound].
Qed.

Lemma sig_read_sound s st : ensures (sound st) (sig_read s st).
Proof.
  unfold sig_read. destruct (_ !! _); simpl; [|apply sound_refl].
  eapply sound_view_r; [apply view_track|apply sound_refl].
Qed.

Lemma sig_peek_sound s st : ensures (sound st) (sig_peek s st).
Proof. unfold sig_peek. destruct (_ !! _); simpl; apply sound_refl. Qed.

Lemma trigger_sound_from st0 ss st :
  sound st0 st → ensures (sound st0) (trigger notify ss st).
Proof.
  intros H. eapply ensures_mono; [|apply trigger_sound].
  intros st'. by apply sound_trans.
Qed.

Lemma sig_write_sound s arg st : ensures (sound st) (sig_write code run notify s arg st).
Proof.
  unfold sig_write. destruct (_ !! _) as [cell|]; [|apply sound_refl].
  eapply ensures_bind with (P := sound st); [|done|].
  { destruct (is_function arg); [apply call_sound|apply sound_refl]. }
  intros nextValue st1 H1. destruct (negb _); [|done].
  eapply ensures_bind with (P := sound st); [|done|done].
  apply trigger_sound_from. eapply sound_view_r; [apply view_alter_signal|done].
Qed.

Lemma computed_notify_sound_from st0 c st :
  sound st0 st → ensures (sound st0) (computed_notify notify c st).
Proof.
  intros H. unfold computed_notify. destruct (_ !! _) as [cell|]; [|done].
  destruct (negb _); [|done].
  apply trigger_sound_from. eapply sound_view_r; [apply view_alter_computed|done].
Qed.

Lemma runWithTracker_sound_from st0 t fn st :
  sound st0 st → ensures (sound st0) (runWithTracker code run t fn st).
Proof.
  intros H. eapply ensures_mono; [|apply runWithTracker_sound].
  intros st'. by apply sound_trans.
Qed.

Lemma computed_peek_sound_from st0 c st :
  sound st0 st → ensures (sound st0) (computed_peek code run c st).
Proof.
  intros H. unfold computed_peek. destruct (_ !! _) as [cell|]; [|done].
  destruct (dirty cell); [|done].
  eapply ensures_bind with (P := sound st0); [|done|].
  - apply runWithTracker_sound_from, sound_record; [intros e [?|?]; done|].
    eapply sound_view_r; [apply view_cleanupTracker|done].
  - intros v st1 H1. cbn [ensures].
    eapply sound_view_r; [|exact H1]. by rewrite !view_alter_computed.
Qed.

Lemma computed_read_sound c st : ensures (sound st) (computed_read code run c st).
Proof.
  unfold computed_read. destruct (_ !! _); [|apply sound_refl].
  apply computed_peek_sound_from. eapply sound_view_r; [apply view_track|apply sound_refl].
Qed.

Lemma call_cleanupFn_sound_from st0 e st :
  ¬ inactive e st0 → sound st0 st → ensures (sound st0) (call_cleanupFn code run e st).
Proof.
  intros He H. unfold call_cleanupFn. destruct (_ !! _) as [cell|]; [|done].
  destruct (is_function _); [|done].
  assert (sound st0 (record (CleanupCalled e) st)) as H1.
  { apply sound_record; [|done]. intros e' [?|?]; simplify_eq. done. }
  pose proof (call_sound_from _ (cleanupFn cell) [] _ H1) as H2.
  destruct (call _ _ _ _ _); simpl in *; [done| |done].
  eapply sound_view_r; [apply view_console_error|done].
Qed.

Lemma execute_sound_from st0 e st :
  ¬ inactive e st0 → sound st0 st → ensures (sound st0) (execute code run e st).
Proof.
  intros He H. unfold execute.
  eapply ensures_bind with (P := sound st0); [by apply call_cleanupFn_sound_from|done|].
  intros _ st1 H1.
  eapply ensures_bind with (P := sound st0); [|done|].
  - apply runWithTracker_sound_from, sound_record.
    { intros e' [?|?]; simplify_eq. done. }
    eapply sound_view_r; [apply view_cleanupTracker|done].
  - intros r st2 H2. cbn [ensures]. eapply sound_view_r; [|exact H2].
    by apply view_alter_effect.
Qed.

Lemma active_not_inactive e st cell :
  effects st !! e = Some cell → active cell = true → ¬ inactive e st.
Proof.
  unfold inactive. rewrite list_lookup_fmap. intros Hc Ha. rewrite Hc. simpl.
  by rewrite Ha.
Qed.

Lemma sound_deactivate e st : sound st (alter_effect (with_active false) e st).
Proof.
  split; [done|]. split; [|by intros ?].
  exists []. simpl. rewrite app_nil_r. split_and!; auto.
  intros e' He'. split_and!; [|apply not_elem_of_nil..].
  unfold inactive in *. simpl. rewrite list_lookup_fmap in *.
  destruct (decide (e = e')) as [->|Hne].
  - rewrite list_lookup_alter_eq. by destruct (effects st !! e').
  - by rewrite list_lookup_alter_ne.
Qed.

Lemma dispose_sound e st : ensures (sound st) (dispose code run e st).
Proof.
  unfold dispose. destruct (_ !! _) as [cell|] eqn:Hcell; [|apply sound_refl].
  destruct (active cell) eqn:Hact; cbn [negb]; [|apply sound_refl].
  eapply ensures_bind with (P := sound st); [|done|].
  - apply call_cleanupFn_sound_from; [by eapply active_not_inactive|].
    apply sound_deactivate.
  - intros _ st1 H1. cbn [ensures]. eapply sound_view_r; [apply view_cleanupTracker|done].
Qed.

Lemma effect_notify_sound_from st0 e st :
  (inactive e st0 → inactive e st) →
  sound st0 st → ensures (sound st0) (effect_notify code run e st).
Proof.
  intros He H. unfold effect_notify. destruct (_ !! _) as [cell|] eqn:Hcell; [|done].
  destruct (active cell) eqn:Hact; [|done].
  apply execute_sound_from; [|done].
  intros H0%He. by eapply active_not_inactive.
Qed.

Lemma sound_new_effect cell st : sound st (set_effects (effects st ++ [cell]) st).
Proof.
  split; [done|]. split; [|by intros ?].
  exists []. simpl. rewrite app_nil_r. split_and!; auto.
  intros e He. split_and!; [|apply not_elem_of_nil..].
  unfold inactive in *. simpl. rewrite fmap_app. by apply lookup_app_l_Some.
Qed.

Lemma makeEffect_sound fn st : ensures (sound st) (_makeEffect code run fn st).
Proof.
  unfold _makeEffect.
  eapply ensures_bind with (P := sound st); [|done|done].
  apply execute_sound_from; [|apply sound_new_effect].
  unfold inactive. rewrite lookup_ge_None_2; [done|]. by rewrite length_fmap.
Qed.

Lemma notify_step_sound t st : ensures (sound st) (_notify code run notify t st).
Proof.
  assert (sound st (record (Notified t) st)) as H.
  { apply sound_record; [intros e [?|?]; done|apply sound_refl]. }
  destruct t as [c|e]; simpl.
  - by apply computed_notify_sound_from.
  - by apply effect_notify_sound_from.
Qed.

Lemma sound_new_signal cell st : sound st (set_signals (signals st ++ [cell]) st).
Proof. eapply sound_view_r; [|apply sound_refl]. done. Qed.

Lemma sound_new_computed cell st : sound st (set_computeds (computeds st ++ [cell]) st).
Proof.
  split; [done|]. split; [|by intros ?].
  exists []. simpl. rewrite app_nil_r. split_and!; auto.
  - intros e He. split_and!; [done|apply not_elem_of_nil..].
  - rewrite length_app. lia.
Qed.

Lemma run_sound_from st0 p st : sound st0 st → ensures (sound st0) (run p st).
Proof.
  intros H. eapply ensures_mono; [|apply run_sound].
  intros st'. by apply sound_trans.
Qed.

Lemma step_sound p st : ensures (sound st) (step code run notify p st).
Proof.
  destruct p; simpl; try apply sound_refl.
  - eapply ensures_bind; [apply sig_read_sound|done|]. intros; by apply run_sound_from.
  - eapply ensures_bind; [apply sig_write_sound|done|]. intros; by apply run_sound_from.
  - eapply ensures_bind; [apply sig_peek_sound|done|]. intros; by apply run_sound_from.
  - eapply ensures_bind; [apply computed_read_sound|done|]. intros; by apply run_sound_from.
  - eapply ensures_bind; [apply computed_peek_sound_from, sound_refl|done|].
    intros; by apply run_sound_from.
  - apply run_sound_from, sound_new_signal.
  - apply run_sound_from, sound_new_computed.
  - eapply ensures_bind; [apply makeEffect_sound|done|]. intros; by apply run_sound_from.
  - eapply ensures_bind; [apply dispose_sound|done|]. intros; by apply run_sound_from.
  - eapply ensures_bind; [apply batch_sound|done|]. intros; by apply run_sound_from.
  - eapply ensures_bind; [apply untrack_sound|done|]. intros; by apply run_sound_from.
  - apply run_sound_from. eapply sound_view_r; [apply view_share|apply sound_refl].
  - eapply ensures_bind; [apply want_sound|done|]. intros; by apply run_sound_from.
  - apply run_sound_from. eapply sound_view_r; [apply view_set_log|apply sound_refl].
Qed.

End Soundness.

(** The interpreter is sound at every fuel. *)
Lemma run_notify_sound code n :
  (∀ p st, ensures (sound st) (run code n p st)) ∧
  (∀ t st, ensures (sound st) (notify code n t st)).
Proof.
  induction n as [|n [IHr IHn]]; [done|].
  split; intros; simpl.
  - by apply step_sound.
  - by apply notify_step_sound.
Qed.

(** * More fuel changes nothing *)

Lemma defined_as_refl {A} (o : outcome A) : defined_as o o.
Proof. by right. Qed.

Lemma defined_as_bind {A B} (o o' : outcome A) (f f' : A → state → outcome B) :
  defined_as o o' → (∀ a st, defined_as (f a st) (f' a st)) →
  defined_as (bind o f) (bind o' f').
Proof.
  intros [->| ->] Hf; [by left|]. destruct o; simpl; [apply Hf|by right|by left].
Qed.

Lemma defined_as_for_each {A} (body body' : A → state → outcome unit) xs st :
  (∀ x st, defined_as (body x st) (body' x st)) →
  defined_as (for_each body xs st) (for_each body' xs st).
Proof.
  intros Hbody. revert st. induction xs as [|x xs IH]; intros st; simpl.
  - apply defined_as_refl.
  - apply defined_as_bind; [apply Hbody|]. intros _ st'. apply IH.
Qed.

Lemma defined_as_try_finally {A} (o o' : outcome A) fin :
  defined_as o o' → defined_as (try_finally o fin) (try_finally o' fin).
Proof. intros [->| ->]; [by left|by right]. Qed.

Lemma defined_as_try_finally_with {A} (o o' : outcome A) fin fin' :
  defined_as o o' → (∀ st, defined_as (fin st) (fin' st)) →
  defined_as (try_finally_with o fin) (try_finally_with o' fin').
Proof.
  intros [->| ->] Hfin; [by left|].
  destruct o; simpl; [..|by left];
    (apply defined_as_bind; [apply Hfin|intros; apply defined_as_refl]).
Qed.

Section Fuel.

Variable code : nat → list value → prog.
Variables run run' : prog → state → outcome value.
Variables notify notify' : tracker → state → outcome unit.
Hypothesis run_le : ∀ p st, defined_as (run p st) (run' p st).
Hypothesis notify_le : ∀ t st, defined_as (notify t st) (notify' t st).

Lemma call_le fn args st :
  defined_as (call code run fn args st) (call code run' fn args st).
Proof. destruct fn; simpl; auto using defined_as_refl. Qed.

Lemma trigger_le ss st :
  defined_as (trigger notify ss st) (trigger notify' ss st).
Proof.
  unfold trigger. apply defined_as_for_each. intros t st'.
  destruct (0 <? batchDepth st'); [apply defined_as_refl|apply notify_le].
Qed.

Lemma runWithTracker_le t fn st :
  defined_as (runWithTracker code run t fn st) (runWithTracker code run' t fn st).
Proof. apply defined_as_try_finally, call_le. Qed.

Lemma untrack_le fn st :
  defined_as (untrack code run fn st) (untrack code run' fn st).
Proof. apply defined_as_try_finally, call_le. Qed.

Lemma batch_le fn st :
  defined_as (batch code run notify fn st) (batch code run' notify' fn st).
Proof.
  apply defined_as_try_finally_with; [apply call_le|]. intros st'. cbv zeta.
  destruct (_ =? 0); [|apply defined_as_refl].
  apply defined_as_for_each, notify_le.
Qed.

Lemma want_le key fallback st :
  defined_as (want code run key fallback st) (want code run' key fallback st).
Proof.
  unfold want. destruct (currentOwner st); [|apply call_le].
  destruct (_ ≫= _); [apply defined_as_refl|apply call_le].
Qed.

Lemma sig_write_le s arg st :
  defined_as (sig_write code run notify s arg st) (sig_write code run' notify' s arg st).
Proof.
  unfold sig_write. destruct (_ !! _); [|apply defined_as_refl].
  apply defined_as_bind.
  { destruct (is_function arg); [apply call_le|apply defined_as_refl]. }
  intros v st'. destruct (negb _); [|apply defined_as_refl].
  apply defined_as_bind; [apply trigger_le|intros; apply defined_as_refl].
Qed.

Lemma computed_notify_le c st :
  defined_as (computed_notify notify c st) (computed_notify notify' c st).
Proof.
  unfold computed_notify. destruct (_ !! _); [|apply defined_as_refl].
  destruct (negb _); [apply trigger_le|apply defined_as_refl].
Qed.

Lemma computed_peek_le c st :
  defined_as (computed_peek code run c st) (computed_peek code run' c st).
Proof.
  unfold computed_peek. destruct (_ !! _) as [cell|]; [|apply defined_as_refl].
  destruct (dirty cell); [|apply defined_as_refl].
  apply defined_as_bind; [apply runWithTracker_le|intros; apply defined_as_refl].
Qed.

Lemma computed_read_le c st :
  defined_as (computed_read code run c st) (computed_read code run' c st).
Proof.
  unfold computed_read. destruct (_ !! _); [apply computed_peek_le|apply defined_as_refl].
Qed.

Lemma call_cleanupFn_le e st :
  defined_as (call_cleanupFn code run e st) (call_cleanupFn code run' e st).
Proof.
  unfold call_cleanupFn. destruct (_ !! _) as [cell|]; [|apply defined_as_refl].
  destruct (is_function _); [|apply defined_as_refl].
  destruct (call_le (cleanupFn cell) [] (record (CleanupCalled e) st)) as [->| ->];
    [by left|by right].
Qed.

Lemma execute_le e st :
  defined_as (execute code run e st) (execute code run' e st).
Proof.
  unfold execute. apply defined_as_bind; [apply call_cleanupFn_le|].
  intros _ st'. apply defined_as_bind; [apply runWithTracker_le|].
  intros; apply defined_as_refl.
Qed.

Lemma dispose_le e st :
  defined_as (dispose code run e st) (dispose code run' e st).
Proof.
  unfold dispose. destruct (_ !! _) as [cell|]; [|apply defined_as_refl].
  destruct (negb _); [apply defined_as_refl|].
  apply defined_as_bind; [apply call_cleanupFn_le|intros; apply defined_as_refl].
Qed.

Lemma effect_notify_le e st :
  defined_as (effect_notify code run e st) (effect_notify code run' e st).
Proof.
  unfold effect_notify. destruct (_ !! _) as [cell|]; [|apply defined_as_refl].
  destruct (active cell); [apply execute_le|apply defined_as_refl].
Qed.

Lemma makeEffect_le fn st :
  defined_as (_makeEffect code run fn st) (_makeEffect code run' fn st).
Proof.
  unfold _makeEffect. apply defined_as_bind; [apply execute_le|].
  intros; apply defined_as_refl.
Qed.

Lemma notify_step_le t st :
  defined_as (_notify code run notify t st) (_notify code run' notify' t st).
Proof. destruct t; simpl; [apply computed_notify_le|apply effect_notify_le]. Qed.

Lemma step_le p st :
  defined_as (step code run notify p st) (step code run' notify' p st).
Proof.
  destruct p; simpl; try apply defined_as_refl; try apply run_le;
    apply defined_as_bind; try (intros; apply run_le).
  - apply defined_as_refl.
  - apply sig_write_le.
  - apply defined_as_refl.
  - apply computed_read_le.
  - apply computed_peek_le.
  - apply makeEffect_le.
  - apply dispose_le.
  - apply batch_le.
  - apply untrack_le.
  - apply want_le.
Qed.

End Fuel.

Lemma fuel_S code n :
  (∀ p st, defined_as (run code n p st) (run code (S n) p st)) ∧
  (∀ t st, defined_as (notify code n t st) (notify code (S n) t st)).
Proof.
  induction n as [|n [IHr IHn]]; [split; by left|].
  split; intros.
  - by apply step_le.
  - by apply notify_step_le.
Qed.

(** A run that returns or throws does the same with any larger fuel. *)
Lemma run_fuel code n m p st :
  (n ≤ m)%nat → defined_as (run code n p st) (run code m p st).
Proof.
  induction 1 as [|m _ IH]; [apply defined_as_refl|].
  destruct IH as [->|IH]; [by left|].
  destruct (proj1 (fuel_S code m) p st) as [E|E]; [|right; congruence].
  left. congruence.
Qed.

Lemma run_fuel_Ok code n m p st v st' :
  (n ≤ m)%nat → run code n p st = Ok v st' → run code m p st = Ok v st'.
Proof.
  intros Hle H. destruct (run_fuel code n m p st Hle) as [E|E]; congruence.
Qed.

(** * The end-to-end scenario *)

Lemma occurrences_app ev h1 h2 :
  occurrences ev (h1 ++ h2) = (occurrences ev h1 + occurrences ev h2)%nat.
Proof. unfold occurrences. by rewrite filter_app, length_app. Qed.

Lemma occurrences_notin ev h : ev ∉ h → occurrences ev h = 0%nat.
Proof.
  unfold occurrences. induction h as [|x h IH]; [done|].
  rewrite not_elem_of_cons. intros [Hne Hh].
  rewrite filter_cons. case_decide; [congruence|auto].
Qed.

(** A write of a value that is not a function, after [dispose()]: the effect
    does not run and [log] is as it was. *)
Lemma Doubling_write_disposed n v b h arg :
  is_function arg = false →
  ∃ b' h',
    sig_write Doubling.code (run Doubling.code (S n)) (notify Doubling.code (S n)) 0 arg
      (Doubling.disposed v b h) = Ok VUndefined (Doubling.disposed arg b' h') ∧
    occurrences (EffectRan 0) h' = occurrences (EffectRan 0) h.
Proof.
  intros Hf. unfold sig_write. simpl. rewrite Hf. simpl.
  unfold Object_is. case_bool_decide; simpl.
  - subst. eauto.
  - exists true, (h ++ [Notified (ComputedTracker 0)]).
    split; [by destruct b|].
    rewrite occurrences_app. apply Nat.add_0_r.
Qed.

Lemma Doubling_writes_disposed vs : ∀ n v b h,
  Forall (λ arg, is_function arg = false) vs →
  (length vs ≤ n)%nat →
  ∃ v' b' h',
    run Doubling.code (S n) (Doubling.writes 0 vs) (Doubling.disposed v b h)
      = Ok VUndefined (Doubling.disposed v' b' h') ∧
    occurrences (EffectRan 0) h' = occurrences (EffectRan 0) h.
Proof.
  induction vs as [|arg vs IH]; intros n v b h Hvs Hn.
  - simpl. eauto.
  - apply Forall_cons in Hvs as [Harg Hvs].
    destruct n as [|n]; [simpl in Hn; lia|].
    destruct (Doubling_write_disposed n v b h arg Harg) as (b1 & h1 & Hw & Hc).
    destruct (IH n arg b1 h1 Hvs) as (v' & b' & h' & Hr & Hc'); [simpl in Hn; lia|].
    exists v', b', h'. split; [|congruence].
    change (run Doubling.code (S (S n)) (Doubling.writes 0 (arg :: vs)) (Doubling.disposed v b h))
      with (bind (sig_write Doubling.code (run Doubling.code (S n)) (notify Doubling.code (S n))
                    0 arg (Doubling.disposed v b h))
                 (λ _, run Doubling.code (S n) (Doubling.writes 0 vs))).
    rewrite Hw. exact Hr.
Qed.

(** C1.  In the scenario [s = createSignal(0); d = createComputed(() => s()*2);
    log = []; createEffect(() => log.push(d()))], the writes [s(3); s(5)]
    leave [log = [0, 6, 10]], with any fuel from 20 on; and after [dispose()],
    any further writes of values to [s] return with [log] unchanged, the
    effect having run three times in all. *)
Theorem C1_doubling_log :
  (∀ n, (20 ≤ n)%nat →
     ∃ st, run Doubling.code n Doubling.main initial_state = Ok VUndefined st ∧
           log st = [num 0; num 6; num 10]) ∧
  (∀ vs m,
     Forall (λ arg, is_function arg = false) vs →
     (length vs ≤ m)%nat →
     ∃ st, run Doubling.code (20 + m) (Doubling.main_disposed vs) initial_state
             = Ok VUndefined st ∧
           log st = [num 0; num 6; num 10] ∧
           occurrences (EffectRan 0) (history st) = 3%nat).
Proof.
  split.
  - intros n Hn. eexists. split.
    + apply (run_fuel_Ok Doubling.code 20 n); [done|]. vm_compute. reflexivity.
    + reflexivity.
  - intros vs m Hvs Hm.
    destruct (Doubling_writes_disposed vs (13 + m) (num 5) false
                [EffectRan 0; Computed 0; Notified (ComputedTracker 0);
                 Notified (EffectTracker 0); EffectRan 0; Computed 0;
                 Notified (ComputedTracker 0); Notified (EffectTracker 0);
                 EffectRan 0; Computed 0] Hvs) as (v' & b' & h' & Hr & Hc); [lia|].
    exists (Doubling.disposed v' b' h'). split_and!; [|done|simpl; by rewrite Hc].
    rewrite <- Hr. reflexivity.
Qed.

Lemma C1_doubling_log_witness :
  ∃ st, run Doubling.code 23 (Doubling.main_disposed [num 7; num 7; num 8]) initial_state
          = Ok VUndefined st ∧
        log st = [num 0; num 6; num 10] ∧
        occurrences (EffectRan 0) (history st) = 3%nat.
Proof.
  apply (proj2 C1_doubling_log [num 7; num 7; num 8] 3%nat).
  - repeat constructor.
  - simpl. lia.
Defined.

(** * The diamond *)

(** The set-up of the diamond runs the effect once. *)
Lemma Diamond_setup_runs_once :
  ∃ st, run Diamond.code 30 Diamond.main_setup initial_state = Ok VUndefined st ∧
        occurrences (EffectRan 0) (history st) = 1%nat ∧
        log st = [num 5].
Proof. eexists. split; [vm_compute; reflexivity|by vm_compute]. Qed.

(** The diamond of the scenario: one write to [a] re-runs the effect twice,
    outside a batch and also when the write is wrapped in [batch].  The first
    re-run sees the old value of [c], the last one the new values. *)
Lemma Diamond_reruns n :
  (30 ≤ n)%nat →
  (∃ st, run Diamond.code n Diamond.main_plain initial_state = Ok VUndefined st ∧
         occurrences (EffectRan 0) (history st) = (1 + 2)%nat ∧
         log st = [num 5; num 7; num 10]) ∧
  (∃ st, run Diamond.code n Diamond.main_batch initial_state = Ok VUndefined st ∧
         occurrences (EffectRan 0) (history st) = (1 + 2)%nat ∧
         log st = [num 5; num 7; num 10]).
Proof.
  intros Hn.
  split; (eexists; split;
          [apply (run_fuel_Ok Diamond.code 30 n); [done|]; vm_compute; reflexivity
          |by vm_compute]).
Qed.

(** C3 fails as stated: with the write wrapped in [batch], the effect does not
    re-run exactly once, whatever the fuel: there is no run of the batched
    diamond after which the effect has run once for the set-up and once more. *)
Lemma C3_batch_diamond_counterexample :
  ¬ (∃ n st, run Diamond.code n Diamond.main_batch initial_state = Ok VUndefined st ∧
             occurrences (EffectRan 0) (history st) = (1 + 1)%nat).
Proof.
  intros (n & st & Hrun & Hocc).
  assert (run Diamond.code (n `max` 30) Diamond.main_batch initial_state = Ok VUndefined st)
    as H1 by (apply (run_fuel_Ok Diamond.code n); [lia|done]).
  assert (∃ st', run Diamond.code 30 Diamond.main_batch initial_state = Ok VUndefined st' ∧
                 occurrences (EffectRan 0) (history st') = 3%nat) as (st' & H2 & Hocc').
  { eexists. split; [vm_compute; reflexivity|by vm_compute]. }
  apply (run_fuel_Ok Diamond.code 30 (n `max` 30)) in H2; [|lia].
  rewrite H1 in H2. apply Ok_inj in H2 as [_ ->]. rewrite Hocc' in Hocc. discriminate.
Qed.


(** * Triggering *)

Lemma run_sound code n p st : ensures (sound st) (run code n p st).
Proof. apply run_notify_sound. Qed.

Lemma notify_sound code n t st : ensures (sound st) (notify code n t st).
Proof. apply run_notify_sound. Qed.

Lemma extends_occurrences st st' ev :
  extends st st' → (occurrences ev (history st) ≤ occurrences ev (history st'))%nat.
Proof. intros (h & -> & _). rewrite occurrences_app. lia. Qed.

Lemma NoDup_deferred trackers pending : NoDup pending → NoDup (deferred trackers pending).
Proof.
  revert pending. induction trackers as [|t l IH]; intros pending H; simpl; [done|].
  apply IH. by apply NoDup_set_add.
Qed.

Lemma elem_of_deferred trackers pending t :
  t ∈ deferred trackers pending ↔ t ∈ trackers ∨ t ∈ pending.
Proof.
  revert pending. induction trackers as [|x l IH]; intros pending; simpl.
  - rewrite elem_of_nil. tauto.
  - rewrite IH, elem_of_set_add, elem_of_cons. tauto.
Qed.

(** Inside a batch, [trigger] calls no [_notify]: it adds the subscribers to
    the pending set and changes nothing else. *)
Lemma trigger_deferred notify ss st :
  0 < batchDepth st →
  trigger notify ss st =
    Ok () (set_pendingNotifications
             (deferred (subscribers_of ss st) (pendingNotifications st)) st).
Proof.
  intros Hd. unfold trigger. generalize (subscribers_of ss st). intros l.
  assert (∀ pending st0, batchDepth st0 = batchDepth st →
            for_each (λ t st,
              if 0 <? batchDepth st
              then Ok () (set_pendingNotifications (set_add t (pendingNotifications st)) st)
              else notify t st) l (set_pendingNotifications pending st0)
            = Ok () (set_pendingNotifications (deferred l pending) st0)) as H.
  { induction l as [|t l IH]; intros pending st0 E; simpl; [done|].
    rewrite E. destruct (Z.ltb_spec 0 (batchDepth st)); [|lia].
    exact (IH (set_add t pending) st0 E). }
  specialize (H (pendingNotifications st) st eq_refl).
  by destruct st.
Qed.

(** A [_notify] that returns has been recorded. *)
Lemma notify_recorded code n t st st' :
  notify code n t st = Ok () st' →
  (occurrences (Notified t) (history st) < occurrences (Notified t) (history st'))%nat.
Proof.
  destruct n as [|n]; [done|]. simpl. intros H.
  assert (sound (record (Notified t) st) st') as (_ & Hext & _).
  { pose proof (run_notify_sound code n) as [Hr Hn].
    destruct t as [c|e]; simpl in H.
    - pose proof (computed_notify_sound_from _ Hn _ c _ (sound_refl (record (Notified (ComputedTracker c)) st))) as Hs.
      by rewrite H in Hs.
    - pose proof (effect_notify_sound_from code _ Hr _ e _ (λ x, x)
                    (sound_refl (record (Notified (EffectTracker e)) st))) as Hs.
      by rewrite H in Hs. }
  apply (extends_occurrences _ _ (Notified t)) in Hext. simpl in Hext.
  rewrite occurrences_app in Hext.
  assert (occurrences (Notified t) [Notified t] = 1%nat) as E.
  { unfold occurrences. rewrite filter_cons. by case_decide. }
  lia.
Qed.


(** A write of a value that is not a function: nothing happens when it is the
    same value as the stored one, otherwise it is stored and the subscribers
    are triggered. *)
Lemma sig_write_literal code run notify s arg st cell :
  signals st !! s = Some cell → is_function arg = false →
  sig_write code run notify s arg st =
    if Object_is (sig_value cell) arg then Ok VUndefined st
    else (_ <~ trigger notify (SignalSubscribers s)
                 (alter_signal (with_sig_value arg) s st) ;; Ok VUndefined).
Proof.
  intros Hs Hlit. unfold sig_write. rewrite Hs, Hlit. simpl. rewrite Hs. simpl.
  by destruct (Object_is _ _).
Qed.

(** * Writing a signal *)

Lemma NaNSignal_reached :
  run NaNSignal.code 10 NaNSignal.main initial_state = Ok VUndefined NaNSignal.st.
Proof. reflexivity. Qed.



(** * Reading a computed inside a batch *)

Lemma with_sig_value_same cell : with_sig_value (sig_value cell) cell = cell.
Proof. by destruct cell. Qed.

(** [track] keeps the signals' values and the computeds' caches. *)
Lemma track_computed_signals c st : signals (track (ComputedSubscribers c) st) = signals st.
Proof. unfold track. by destruct (activeTracker st) as [[]|]. Qed.

Lemma track_computed_cell ss st c cell :
  computeds st !! c = Some cell →
  ∃ cell', computeds (track ss st) !! c = Some cell' ∧
           dirty cell' = dirty cell ∧ cachedValue cell' = cachedValue cell ∧
           computeFn cell' = computeFn cell.
Proof.
  intros Hc.
  assert (∀ (f : computed_cell → computed_cell) c0 (l : list computed_cell) x,
            (∀ y, dirty (f y) = dirty y ∧ cachedValue (f y) = cachedValue y ∧
                  computeFn (f y) = computeFn y) →
            l !! c = Some x →
            ∃ x', alter f c0 l !! c = Some x' ∧ dirty x' = dirty x ∧
                  cachedValue x' = cachedValue x ∧ computeFn x' = computeFn x) as Halter.
  { intros f c0 l x Hf Hx. destruct (decide (c0 = c)) as [->|Hne].
    - rewrite list_lookup_alter_eq, Hx. simpl. eexists. split; [done|apply Hf].
    - rewrite list_lookup_alter_ne by done. eauto. }
  unfold track. destruct (activeTracker st) as [t|]; [|eauto].
  assert (∃ cell1, computeds (alter_subscribers (set_add t) ss st) !! c = Some cell1 ∧
            dirty cell1 = dirty cell ∧ cachedValue cell1 = cachedValue cell ∧
            computeFn cell1 = computeFn cell) as (cell1 & H1 & Hd1 & Hv1 & Hf1).
  { destruct ss as [s|c0]; simpl; [eauto|]. by apply Halter. }
  destruct t as [c0|e]; simpl.
  - destruct (Halter (with_comp_deps (set_add ss)) c0 _ cell1 (λ _, ltac:(done)) H1)
      as (cell2 & H2 & Hd2 & Hv2 & Hf2).
    exists cell2. split_and!; [done|congruence..].
  - exists cell1. split_and!; done.
Qed.

(** At positive batch depth, after a write of a value to [s], a read of a
    clean computed [c] returns the value cached before the write: the write is
    visible in [s], but its trigger has only put the subscribers of [s] into
    the pending set and called no [_notify], so [c] is still clean. *)
Lemma stale_read_at_depth code n s c arg st cell_s cell_c :
  0 < batchDepth st →
  signals st !! s = Some cell_s →
  computeds st !! c = Some cell_c →
  dirty cell_c = false →
  is_function arg = false →
  ∃ st' cell_c',
    run code (S (S (S n))) (Write s arg (ReadComputed c Return)) st
      = Ok (cachedValue cell_c) st' ∧
    signals st' !! s = Some (with_sig_value arg cell_s) ∧
    computeds st' !! c = Some cell_c' ∧ dirty cell_c' = false ∧
    cachedValue cell_c' = cachedValue cell_c ∧
    history st' = history st ∧
    (Object_is (sig_value cell_s) arg = false →
       ∀ t, t ∈ sig_subscribers cell_s → t ∈ pendingNotifications st').
Proof.
  intros Hd Hs Hc Hclean Hlit.
  (* the write *)
  assert (∃ st1,
    sig_write code (run code (S (S n))) (notify code (S (S n))) s arg st = Ok VUndefined st1 ∧
    signals st1 !! s = Some (with_sig_value arg cell_s) ∧
    computeds st1 = computeds st ∧ history st1 = history st ∧
    (Object_is (sig_value cell_s) arg = false →
       ∀ t, t ∈ sig_subscribers cell_s → t ∈ pendingNotifications st1))
    as (st1 & Hw & Hs1 & Hc1 & Hh1 & Hp1).
  { rewrite (sig_write_literal code _ _ s arg st cell_s Hs Hlit).
    destruct (Object_is (sig_value cell_s) arg) eqn:E.
    - exists st. split_and!; [done| |done..].
      apply bool_decide_eq_true in E as <-. by rewrite with_sig_value_same.
    - rewrite trigger_deferred by done. eexists. split_and!; [done| |done|done|].
      + simpl. by rewrite list_lookup_alter_eq, Hs.
      + intros _ t Ht. apply elem_of_deferred. left. simpl.
        by rewrite list_lookup_alter_eq, Hs. }
  (* the read *)
  rewrite <- Hc1 in Hc.
  destruct (track_computed_cell (ComputedSubscribers c) st1 c cell_c Hc)
    as (cell' & Hc' & Hd' & Hv' & _).
  exists (track (ComputedSubscribers c) st1), cell'.
  split_and!; [|by rewrite track_computed_signals|done|congruence|done| |].
  - change (run code (S (S (S n))) (Write s arg (ReadComputed c Return)) st)
      with (bind (sig_write code (run code (S (S n))) (notify code (S (S n))) s arg st)
                 (λ _, run code (S (S n)) (ReadComputed c Return))).
    rewrite Hw. simpl. unfold computed_read, computed_peek. rewrite Hc, Hc'.
    rewrite Hd', Hclean. simpl. by rewrite Hv'.
  - assert (view_of (track (ComputedSubscribers c) st1) = view_of st1) as Hview
      by apply view_track.
    injection Hview as _ _ _ _ -> _ _. done.
  - intros E t Ht.
    assert (view_of (track (ComputedSubscribers c) st1) = view_of st1) as Hview
      by apply view_track.
    injection Hview as _ _ _ -> _ _ _. by apply Hp1.
Qed.

(** In the doubling scenario,
    [batch(() => { s(7); return d() })] returns 10, the value of [d] from
    before the write; the effect logs 14 when the batch exits. *)
Lemma Doubling_batch_reads_stale :
  run Doubling.code 20 Doubling.main initial_state = Ok VUndefined Doubling.after_main ∧
  ∃ st, run Doubling.code 20 Doubling.main_batch_read initial_state = Ok (num 10) st ∧
        log st = [num 0; num 6; num 10; num 14].
Proof.
  split; [reflexivity|]. eexists. split; [vm_compute; reflexivity|reflexivity].
Qed.

(** * Batches *)

(** A drain that returns has called [_notify] of every tracker of the snapshot. *)
Lemma drain_notifies code n l : ∀ st st',
  for_each (notify code n) l st = Ok () st' →
  ∀ t, t ∈ l →
       (occurrences (Notified t) (history st) < occurrences (Notified t) (history st'))%nat.
Proof.
  induction l as [|x l IH]; intros st st' H t Ht; [by apply elem_of_nil in Ht|].
  simpl in H.
  destruct (notify code n x st) as [[] st1| |] eqn:Hx; simpl in H; [|done..].
  pose proof (notify_sound code n x st) as Hs. rewrite Hx in Hs.
  destruct Hs as (_ & Hext & _).
  assert (sound st1 st') as (_ & Hext' & _).
  { pose proof (for_each_sound (notify code n) l st1 (notify_sound code n)) as Hs.
    by rewrite H in Hs. }
  apply elem_of_cons in Ht as [->|Ht].
  - apply notify_recorded in Hx.
    apply (extends_occurrences _ _ (Notified x)) in Hext'. lia.
  - specialize (IH st1 st' H t Ht).
    apply (extends_occurrences _ _ (Notified t)) in Hext. lia.
Qed.

(** C2, as amended.  Let [fn] be called one batch level deeper.  While the
    depth is positive a trigger calls no [_notify]; it puts the subscribers
    into the pending set, which holds each tracker once however often it is
    triggered, and whatever runs at positive depth keeps what is pending.
    When [fn] has returned [r] or thrown [err]:
    - The outermost [batch] (depth 0 before the call) snapshots and clears the
      pending set and runs [_notify] over the snapshot, which is free of
      duplicates: the loop calls each pending tracker once.  A drain that
      completes has therefore called [_notify] of every pending tracker at
      least once; the notified trackers run at depth 0 and may call it again.
      The batch then returns [r], or throws [err] again.
    - A nested [batch] (positive depth before the call) notifies nobody and
      leaves the pending set alone; it returns [r], or throws [err] again. *)
Theorem C2_batch code n fn st :
  NoDup (pendingNotifications st) →
  let body := call code (run code n) fn [] (set_batchDepth (batchDepth st + 1) st) in
  let exit := batch code (run code n) (notify code n) fn st in
  let drain st1 :=
    for_each (notify code n) (pendingNotifications st1)
      (set_pendingNotifications [] (set_batchDepth 0 st1)) in
  (∀ ss st0,
     0 < batchDepth st0 → NoDup (pendingNotifications st0) →
     ∃ st0', trigger (notify code n) ss st0 = Ok () st0' ∧
             history st0' = history st0 ∧
             NoDup (pendingNotifications st0') ∧
             ∀ t, t ∈ subscribers_of ss st0 → t ∈ pendingNotifications st0') ∧
  (∀ m p st0,
     0 < batchDepth st0 →
     ensures (λ st0', ∀ t, t ∈ pendingNotifications st0 → t ∈ pendingNotifications st0')
       (run code m p st0)) ∧
  match body with
  | Ok r st1 =>
      NoDup (pendingNotifications st1) ∧
      batchDepth st1 = batchDepth st + 1 ∧
      (batchDepth st = 0 →
         exit = (_ <~ drain st1 ;; Ok r) ∧
         ∀ v st', exit = Ok v st' →
           v = r ∧
           ∀ t, t ∈ pendingNotifications st1 →
                (occurrences (Notified t) (history st1)
                 < occurrences (Notified t) (history st'))%nat) ∧
      (0 < batchDepth st →
         exit = Ok r (set_batchDepth (batchDepth st) st1) ∧
         pendingNotifications (set_batchDepth (batchDepth st) st1)
           = pendingNotifications st1 ∧
         history (set_batchDepth (batchDepth st) st1) = history st1)
  | Thrown err st1 =>
      NoDup (pendingNotifications st1) ∧
      batchDepth st1 = batchDepth st + 1 ∧
      (batchDepth st = 0 →
         exit = (_ <~ drain st1 ;; Thrown err) ∧
         ∀ st', drain st1 = Ok () st' →
           exit = Thrown err st' ∧
           ∀ t, t ∈ pendingNotifications st1 →
                (occurrences (Notified t) (history st1)
                 < occurrences (Notified t) (history st'))%nat) ∧
      (0 < batchDepth st →
         exit = Thrown err (set_batchDepth (batchDepth st) st1) ∧
         pendingNotifications (set_batchDepth (batchDepth st) st1)
           = pendingNotifications st1 ∧
         history (set_batchDepth (batchDepth st) st1) = history st1)
  | OutOfFuel => exit = OutOfFuel
  end.
Proof.
  intros Hnd body exit drain. split_and!.
  - intros ss st0 Hd0 Hnd0. rewrite trigger_deferred by done. eexists.
    split_and!; [done|done|by apply NoDup_deferred|].
    intros t Ht. apply elem_of_deferred. by left.
  - intros m p st0 Hd0. eapply ensures_mono; [|apply (run_sound code m p st0)].
    intros st0' (_ & _ & Hk). by apply Hk.
  - pose proof (call_sound code _ (run_sound code n) fn []
                  (set_batchDepth (batchDepth st + 1) st)) as Hs.
    fold body in Hs.
    assert (exit = try_finally_with body
              (λ st1, let st2 := set_batchDepth (batchDepth st1 - 1) st1 in
                      if batchDepth st2 =? 0
                      then for_each (notify code n) (pendingNotifications st2)
                             (set_pendingNotifications [] st2)
                      else Ok () st2)) as Hexit by reflexivity.
    destruct body as [r st1|err st1|]; [| |done].
    + destruct Hs as ((_ & _ & Hd1) & (h & _ & _ & Hnd1 & _) & _).
      simpl in Hd1, Hnd1. specialize (Hnd1 Hnd).
      cbn [try_finally_with] in Hexit.
      replace (batchDepth st1 - 1) with (batchDepth st) in Hexit by lia.
      cbv zeta in Hexit. simpl in Hexit.
      split_and!; [done|done| |].
      * intros E. rewrite E in Hexit. simpl in Hexit. split; [done|].
        intros v st' Hv. rewrite Hexit in Hv.
        destruct (for_each _ _ _) as [[] st2| |] eqn:Hdrain; simpl in Hv; [|done..].
        injection Hv as <- <-. split; [done|].
        intros t Ht. by apply (drain_notifies code n _ _ _ Hdrain t Ht).
      * intros Hpos. destruct (Z.eqb_spec (batchDepth st) 0); [lia|].
        split_and!; done.
    + destruct Hs as ((_ & _ & Hd1) & (h & _ & _ & Hnd1 & _) & _).
      simpl in Hd1, Hnd1. specialize (Hnd1 Hnd).
      cbn [try_finally_with] in Hexit.
      replace (batchDepth st1 - 1) with (batchDepth st) in Hexit by lia.
      cbv zeta in Hexit. simpl in Hexit.
      split_and!; [done|done| |].
      * intros E. rewrite E in Hexit. simpl in Hexit. split; [done|].
        intros st' Hdrain. unfold drain in Hdrain. rewrite Hexit, Hdrain.
        split; [done|].
        intros t Ht. by apply (drain_notifies code n _ _ _ Hdrain t Ht).
      * intros Hpos. destruct (Z.eqb_spec (batchDepth st) 0); [lia|].
        split_and!; done.
Qed.

Lemma Pair_setup :
  run Pair.code 10 (Pair.setup (Return VUndefined)) initial_state
    = Ok VUndefined Pair.after_setup.
Proof. reflexivity. Qed.

Lemma C2_batch_witness :
  ∃ st', batch Pair.code (run Pair.code 10) (notify Pair.code 10) (VFunction 1)
           Pair.after_setup = Ok (num 42) st' ∧
         occurrences (Notified (EffectTracker 0)) (history st') = 1%nat ∧
         log st' = [num 0; num 3].
Proof.
  pose proof (C2_batch Pair.code 10 (VFunction 1) Pair.after_setup
                (NoDup_nil_2 : NoDup (pendingNotifications Pair.after_setup)))
    as (_ & _ & H).
  eassert (call Pair.code (run Pair.code 10) (VFunction 1) []
             (set_batchDepth (batchDepth Pair.after_setup + 1) Pair.after_setup)
           = Ok (num 42) _) as Hcall by (vm_compute; reflexivity).
  rewrite Hcall in H. destruct H as (_ & _ & Hout & _).
  destruct (Hout eq_refl) as [Heq _]. rewrite Heq.
  eexists. split; [vm_compute; reflexivity|]. split; reflexivity.
Defined.

(** Two writes re-run the effect twice; in one batch, also a nested one, they
    re-run it once, when the outermost batch exits. *)
Lemma Pair_batch_coalesces :
  (∃ st, run Pair.code 20 Pair.main_plain initial_state = Ok VUndefined st ∧
         log st = [num 0; num 1; num 3]) ∧
  (∃ st, run Pair.code 20 Pair.main_batch initial_state = Ok (num 42) st ∧
         log st = [num 0; num 3]) ∧
  (∃ st, run Pair.code 20 Pair.main_nested initial_state = Ok (num 42) st ∧
         log st = [num 0; num 3]).
Proof.
  split_and!; (eexists; split; [vm_compute; reflexivity|reflexivity]).
Qed.

Lemma Mixed_setup :
  run Mixed.code 10 (Mixed.setup (Return VUndefined)) initial_state
    = Ok VUndefined Mixed.after_setup.
Proof. reflexivity. Qed.

(** C2 fails as stated.  In [batch(() => { a(2) })] the write triggers the
    effect and the computed once each, at positive depth.  When the batch
    exits, the drain calls [_notify] of the effect, which re-runs it against
    the stale computed, and then [_notify] of the computed, which, the depth
    being 0 again, calls [_notify] of the effect a second time: two calls,
    not exactly one, whatever the fuel. *)
Lemma C2_batch_notifies_twice_counterexample :
  (∃ st1, call Mixed.code (run Mixed.code 20) (VFunction 2) []
            (set_batchDepth (batchDepth Mixed.after_setup + 1) Mixed.after_setup)
          = Ok VUndefined st1 ∧
          pendingNotifications st1 = [EffectTracker 0; ComputedTracker 0]) ∧
  (∃ st, run Mixed.code 20 (Batch (VFunction 2) Return) Mixed.after_setup = Ok VUndefined st ∧
         occurrences (Notified (EffectTracker 0)) (history st) = 2%nat ∧
         log st = [num 3; num 4; num 6]) ∧
  ¬ (∃ n st, run Mixed.code n (Batch (VFunction 2) Return) Mixed.after_setup = Ok VUndefined st ∧
             occurrences (Notified (EffectTracker 0)) (history st)
             = S (occurrences (Notified (EffectTracker 0)) (history Mixed.after_setup))).
Proof.
  assert (∃ st, run Mixed.code 20 (Batch (VFunction 2) Return) Mixed.after_setup
                = Ok VUndefined st ∧
                occurrences (Notified (EffectTracker 0)) (history st) = 2%nat ∧
                log st = [num 3; num 4; num 6]) as Hrun.
  { eexists. split; [vm_compute; reflexivity|]. split; [by vm_compute|reflexivity]. }
  split_and!.
  - eexists. split; [vm_compute; reflexivity|reflexivity].
  - exact Hrun.
  - intros (n & st & Hn & Hocc). destruct Hrun as (st' & H20 & Hocc' & _).
    apply (run_fuel_Ok Mixed.code n (n `max` 20)) in Hn; [|lia].
    apply (run_fuel_Ok Mixed.code 20 (n `max` 20)) in H20; [|lia].
    rewrite Hn in H20. apply Ok_inj in H20 as [_ ->]. rewrite Hocc' in Hocc.
    vm_compute in Hocc. discriminate.
Qed.

(** * Scoped tracker contexts *)



(** The effect reads [a] directly and [b] inside [untrack]: it subscribes to
    [a] only, so [b(1)] does not re-run it and [a(1)] does. *)
Lemma Untracked_read_subscribes_nothing :
  (∃ st, run Untracked.code 20 (Untracked.setup (Return VUndefined)) initial_state
           = Ok VUndefined st ∧
         deps_of (EffectTracker 0) st = [SignalSubscribers 0] ∧
         subscribers_of (SignalSubscribers 1) st = [] ∧
         log st = [num 0]) ∧
  (∃ st, run Untracked.code 20
           (Untracked.setup (Write 1 (num 1) (Return VUndefined))) initial_state
           = Ok VUndefined st ∧ log st = [num 0]) ∧
  (∃ st, run Untracked.code 20
           (Untracked.setup (Write 0 (num 1) (Return VUndefined))) initial_state
           = Ok VUndefined st ∧ log st = [num 0; num 0]).
Proof.
  split_and!; (eexists; split; [vm_compute; reflexivity|by vm_compute]).
Qed.

(** When [fn] throws inside an effect, [untrack] and [runWithTracker] unwind:
    the error reaches the caller and the tracker context is the initial one. *)
Lemma Untracked_throw_restores :
  ∃ st, run Untracked.code 20
          (CreateSignal (num 0) (λ a, CreateSignal (num 0) (λ b,
           CreateEffect (VFunction 0) (λ _, Untrack (VFunction 2) Return)))) initial_state
          = Thrown (VString "boom") st ∧
        activeTracker st = None ∧ trackerStack st = [].
Proof. eexists. split; [vm_compute; reflexivity|done]. Qed.

(** * Disposal *)

Lemma sound_frozen e st st' : sound st st' → inactive e st → frozen e st st'.
Proof.
  intros (_ & (h & Hh & Hi & _) & _) He. destruct (Hi e He) as (He' & Hr & Hc).
  split_and!; [done|..]; rewrite Hh, occurrences_app, (occurrences_notin _ h) by done; lia.
Qed.

Lemma inactive_lookup e st :
  inactive e st ↔ ∃ cell, effects st !! e = Some cell ∧ active cell = false.
Proof.
  unfold inactive. rewrite list_lookup_fmap. destruct (effects st !! e) as [cell|]; simpl.
  - split; [intros [= H]; eauto|]. by intros (? & [= <-] & ->).
  - split; [done|]. by intros (? & ? & _).
Qed.

Lemma view_history st st' : view_of st = view_of st' → history st = history st'.
Proof. by intros [= _ _ _ _ ? _ _]. Qed.

Lemma view_inactive e st st' : view_of st = view_of st' → inactive e st → inactive e st'.
Proof. unfold inactive. by intros [= _ _ _ _ _ <- _]. Qed.

Lemma occurrences_singleton ev : occurrences ev [ev] = 1%nat.
Proof. unfold occurrences. rewrite filter_cons. by case_decide. Qed.

(** The first [dispose()] of an active effect. *)
Lemma dispose_active code n e st cell st1 :
  effects st !! e = Some cell → active cell = true →
  dispose code (run code n) e st = Ok () st1 →
  inactive e st1 ∧
  occurrences (EffectRan e) (history st1) = occurrences (EffectRan e) (history st) ∧
  occurrences (CleanupCalled e) (history st1)
    = (occurrences (CleanupCalled e) (history st)
       + (if is_function (cleanupFn cell) then 1 else 0))%nat.
Proof.
  intros Hcell Hact Hdisp. unfold dispose in Hdisp. rewrite Hcell, Hact in Hdisp.
  cbn [negb] in Hdisp.
  set (st_a := alter_effect (with_active false) e st) in *.
  assert (effects st_a !! e = Some (with_active false cell)) as Hcell_a.
  { unfold st_a. simpl. by rewrite list_lookup_alter_eq, Hcell. }
  assert (inactive e st_a) as Hin_a by (apply inactive_lookup; eauto).
  assert (history st_a = history st) as Hh_a by done.
  unfold call_cleanupFn in Hdisp. rewrite Hcell_a in Hdisp. simpl cleanupFn in Hdisp.
  destruct (is_function (cleanupFn cell)).
  - set (st_r := record (CleanupCalled e) st_a) in *.
    assert (inactive e st_r) as Hin_r by done.
    pose proof (call_sound code _ (run_sound code n) (cleanupFn cell) [] st_r) as Hs.
    assert (∃ st_b, sound st_r st_b ∧ view_of st1 = view_of st_b) as (st_b & Hsb & Hv).
    { destruct (call _ _ _ _ _) as [r st_b|err st_b|]; cbn [bind ensures] in Hdisp, Hs; [| |done].
      - apply Ok_inj in Hdisp as [_ <-]. exists st_b. split; [done|].
        apply view_cleanupTracker.
      - apply Ok_inj in Hdisp as [_ <-]. exists st_b. split; [done|].
        by rewrite view_cleanupTracker, view_console_error. }
    destruct (sound_frozen e _ _ Hsb Hin_r) as (Hin_b & Hr_b & Hc_b).
    symmetry in Hv. rewrite <- (view_history _ _ Hv).
    split_and!; [by eapply view_inactive|..].
    + rewrite Hr_b. unfold st_r. simpl. rewrite occurrences_app. simpl.
      unfold occurrences at 2. rewrite filter_cons. by case_decide.
    + rewrite Hc_b. unfold st_r. simpl.
      by rewrite occurrences_app, occurrences_singleton.
  - cbn [bind] in Hdisp. apply Ok_inj in Hdisp as [_ <-].
    pose proof (view_cleanupTracker (EffectTracker e) st_a) as Hv.
    rewrite (view_history _ _ Hv). symmetry in Hv.
    split_and!; [by eapply view_inactive|by rewrite Hh_a|rewrite Hh_a; lia].
Qed.

(** [execute] does not look at [active] again after the cleanup callback has
    returned: it evaluates the body whatever the callback did. *)
Lemma execute_after_cleanup code m e st cell r st_a st' :
  effects st !! e = Some cell → active cell = true →
  is_function (cleanupFn cell) = true →
  call code (run code m) (cleanupFn cell) []
    (record (CleanupCalled e) (record (Notified (EffectTracker e)) st)) = Ok r st_a →
  notify code (S m) (EffectTracker e) st = Ok () st' →
  (occurrences (EffectRan e) (history st_a) < occurrences (EffectRan e) (history st'))%nat.
Proof.
  intros Hcell Hact Hfun Hcall Hnotify.
  simpl in Hnotify. unfold effect_notify in Hnotify. simpl in Hnotify.
  rewrite Hcell, Hact in Hnotify. unfold execute, call_cleanupFn in Hnotify.
  simpl in Hnotify. rewrite Hcell, Hfun in Hnotify.
  change (record (CleanupCalled e) (set_history _ st))
    with (record (CleanupCalled e) (record (Notified (EffectTracker e)) st)) in Hnotify.
  rewrite Hcall in Hnotify. cbn [bind] in Hnotify.
  set (fn := from_option effectFn VUndefined (effects st_a !! e)) in *.
  set (st_r := record (EffectRan e) (cleanupTracker (EffectTracker e) st_a)) in *.
  pose proof (runWithTracker_sound code _ (run_sound code m) (EffectTracker e) fn st_r) as Hs.
  unfold runWithTracker in Hnotify, Hs.
  destruct (try_finally _ _) as [r' st_b| |]; cbn [bind] in Hnotify; [|done..].
  apply Ok_inj in Hnotify as [_ <-]. cbn [ensures] in Hs. destruct Hs as (_ & Hext & _).
  apply (extends_occurrences _ _ (EffectRan e)) in Hext.
  assert (history st_r = history st_a ++ [EffectRan e]) as Hr.
  { pose proof (view_cleanupTracker (EffectTracker e) st_a) as Hv.
    apply view_history in Hv.
    change (history (cleanupTracker (EffectTracker e) st_a) ++ [EffectRan e]
            = history st_a ++ [EffectRan e]).
    by rewrite Hv. }
  rewrite Hr, occurrences_app, occurrences_singleton in Hext.
  simpl. lia.
Qed.

(** C8, as amended.  The first [dispose()] of an active effect that returns
    has invoked the stored cleanup callback once, if there is one, and has not
    evaluated the body.  In every state in which the effect is disposed,
    however it is reached: [dispose()] changes nothing; [_notify()] evaluates
    nothing (only the call is recorded); and whatever program or notification
    starts there, the effect stays disposed, its body is not evaluated and its
    cleanup callback is not invoked.  A re-run that is under way is not
    stopped: [_notify()] of an active effect evaluates the body once its
    cleanup callback has returned, whatever the callback did, also when it
    disposed the effect. *)
Theorem C8_dispose_idempotent code n e st cell st1 :
  effects st !! e = Some cell → active cell = true →
  dispose code (run code n) e st = Ok () st1 →
  (inactive e st1 ∧
   occurrences (EffectRan e) (history st1) = occurrences (EffectRan e) (history st) ∧
   occurrences (CleanupCalled e) (history st1)
     = (occurrences (CleanupCalled e) (history st)
        + (if is_function (cleanupFn cell) then 1 else 0))%nat) ∧
  (∀ m, dispose code (run code m) e st1 = Ok () st1) ∧
  (∀ st2, inactive e st2 →
     (∀ m, dispose code (run code m) e st2 = Ok () st2) ∧
     (∀ m, notify code (S m) (EffectTracker e) st2
             = Ok () (record (Notified (EffectTracker e)) st2)) ∧
     (∀ m p, ensures (frozen e st2) (run code m p st2)) ∧
     (∀ m t, ensures (frozen e st2) (notify code m t st2))) ∧
  (∀ st0 cell0 m r st_a st',
     effects st0 !! e = Some cell0 → active cell0 = true →
     is_function (cleanupFn cell0) = true →
     call code (run code m) (cleanupFn cell0) []
       (record (CleanupCalled e) (record (Notified (EffectTracker e)) st0)) = Ok r st_a →
     notify code (S m) (EffectTracker e) st0 = Ok () st' →
     (occurrences (EffectRan e) (history st_a)
      < occurrences (EffectRan e) (history st'))%nat).
Proof.
  intros Hcell Hact Hdisp.
  pose proof (dispose_active code n e st cell st1 Hcell Hact Hdisp) as Hfirst.
  assert (∀ st2, inactive e st2 → ∀ m, dispose code (run code m) e st2 = Ok () st2) as Hagain.
  { intros st2 (c & Hc & Ha)%inactive_lookup m. unfold dispose. by rewrite Hc, Ha. }
  split; [exact Hfirst|]. split; [apply Hagain, Hfirst|].
  split; [|intros st0 cell0 m r st_a st'; apply execute_after_cleanup].
  intros st2 Hin. split; [by apply Hagain|]. split_and!.
  - intros m. apply inactive_lookup in Hin as (c & Hc & Ha).
    simpl. unfold effect_notify. simpl. by rewrite Hc, Ha.
  - intros m p. eapply ensures_mono; [|apply run_sound].
    intros st3 Hs. by apply sound_frozen.
  - intros m t. eapply ensures_mono; [|apply notify_sound].
    intros st3 Hs. by apply sound_frozen.
Qed.

Lemma Cleanup_setup :
  run Cleanup.code 10 (Cleanup.setup (λ _ _, Return VUndefined)) initial_state
    = Ok VUndefined Cleanup.after_setup.
Proof. reflexivity. Qed.

Lemma C8_dispose_idempotent_witness :
  ∃ st1, dispose Cleanup.code (run Cleanup.code 5) 0 Cleanup.after_setup = Ok () st1 ∧
         occurrences (CleanupCalled 0) (history st1) = 1%nat ∧
         ∀ m, dispose Cleanup.code (run Cleanup.code m) 0 st1 = Ok () st1.
Proof.
  pose proof (C8_dispose_idempotent Cleanup.code 5 0 Cleanup.after_setup Cleanup.cell _
                eq_refl eq_refl eq_refl) as H.
  eexists. split; [reflexivity|].
  split; [exact (proj2 (proj2 (proj1 H)))|exact (proj1 (proj2 H))].
Defined.

(** In the scenario, two calls of [dispose()] and a later write leave one
    invocation of the cleanup callback and one evaluation of the body. *)
Lemma Cleanup_dispose_twice :
  ∃ st, run Cleanup.code 20 Cleanup.main initial_state = Ok VUndefined st ∧
        log st = [num 1; num (-1)] ∧
        occurrences (CleanupCalled 0) (history st) = 1%nat ∧
        occurrences (EffectRan 0) (history st) = 1%nat.
Proof. eexists. split; [vm_compute; reflexivity|by vm_compute]. Qed.

Lemma SelfDispose_setup :
  run SelfDispose.code 10 (SelfDispose.setup (Return VUndefined)) initial_state
    = Ok VUndefined SelfDispose.after_setup.
Proof. reflexivity. Qed.

(** C8 fails as stated.  The write [s(1)] re-runs the effect; [execute] calls
    the cleanup callback, which calls [dispose()]; [dispose()] returns with
    the effect disposed, and [execute] carries on: the body is evaluated after
    the first [dispose()], whatever the fuel.  [log] shows the evaluation (1)
    after the two returns of the callback (-1, once called by [dispose()]
    itself and once by [execute]). *)
Lemma C8_dispose_in_cleanup_counterexample :
  (∃ st_d, call SelfDispose.code (run SelfDispose.code 20) (VFunction 1) []
             SelfDispose.at_cleanup = Ok VUndefined st_d ∧
           inactive 0 st_d ∧
           occurrences (EffectRan 0) (history st_d) = 1%nat) ∧
  (∃ st', run SelfDispose.code 20 (Write 0 (num 1) (Return VUndefined))
            SelfDispose.after_setup = Ok VUndefined st' ∧
          inactive 0 st' ∧
          occurrences (EffectRan 0) (history st') = 2%nat ∧
          log st' = [num 1; num (-1); num (-1); num 1]) ∧
  ¬ (∃ n st', run SelfDispose.code n (Write 0 (num 1) (Return VUndefined))
                SelfDispose.after_setup = Ok VUndefined st' ∧
              occurrences (EffectRan 0) (history st') = 1%nat).
Proof.
  assert (∃ st', run SelfDispose.code 20 (Write 0 (num 1) (Return VUndefined))
                   SelfDispose.after_setup = Ok VUndefined st' ∧
                 inactive 0 st' ∧
                 occurrences (EffectRan 0) (history st') = 2%nat ∧
                 log st' = [num 1; num (-1); num (-1); num 1]) as Hrun.
  { eexists. split; [vm_compute; reflexivity|]. split_and!; by vm_compute. }
  split_and!.
  - eexists. split; [vm_compute; reflexivity|]. split; by vm_compute.
  - exact Hrun.
  - intros (n & st & Hn & Hocc). destruct Hrun as (st' & H20 & _ & Hocc' & _).
    apply (run_fuel_Ok SelfDispose.code n (n `max` 20)) in Hn; [|lia].
    apply (run_fuel_Ok SelfDispose.code 20 (n `max` 20)) in H20; [|lia].
    rewrite Hn in H20. apply Ok_inj in H20 as [_ ->]. rewrite Hocc' in Hocc.
    discriminate.
Qed.

(** * Computeds *)




Lemma Doubling_created :
  run Doubling.code 5
    (CreateSignal (num 0) (λ _, CreateComputed (VFunction 0) (λ _, Return VUndefined)))
    initial_state = Ok VUndefined Doubling.created.
Proof. reflexivity. Qed.


(** In the doubling scenario without the effect: [d] is not evaluated when
    created or when [s] is written; two reads in a row evaluate it once; after
    a write, the next read evaluates it again. *)
Lemma Doubling_lazy :
  (∃ st, run Doubling.code 20
           (CreateSignal (num 0) (λ s, CreateComputed (VFunction 0) (λ d,
            Write s (num 4) (Return VUndefined)))) initial_state = Ok VUndefined st ∧
         occurrences (Computed 0) (history st) = 0%nat) ∧
  (∃ st, run Doubling.code 20
           (CreateSignal (num 0) (λ s, CreateComputed (VFunction 0) (λ d,
            Write s (num 4) (ReadComputed d (λ _, ReadComputed d Return))))) initial_state
           = Ok (num 8) st ∧
         occurrences (Computed 0) (history st) = 1%nat) ∧
  (∃ st, run Doubling.code 20
           (CreateSignal (num 0) (λ s, CreateComputed (VFunction 0) (λ d,
            ReadComputed d (λ _, Write s (num 4) (Write s (num 5)
              (PeekComputed d Return)))))) initial_state
           = Ok (num 10) st ∧
         occurrences (Computed 0) (history st) = 2%nat).
Proof.
  split_and!; (eexists; split; [vm_compute; reflexivity|by vm_compute]).
Qed.

(** * Conditional dependencies *)

Lemma run_S code n p st :
  run code (S n) p st = step code (run code n) (notify code n) p st.
Proof. reflexivity. Qed.

Lemma notify_S code n t st :
  notify code (S n) t st = _notify code (run code n) (notify code n) t st.
Proof. reflexivity. Qed.

(** Symbolic execution: unfold one level of fuel, compute, and use what is
    known about the values. *)
Ltac exec_with Harg Ha Hb Htarg Htv Hobj :=
  repeat (rewrite ?run_S, ?notify_S;
          cbv - [run notify Object_is truthy is_function];
          rewrite ?Harg, ?Ha, ?Hb, ?Htarg, ?Htv, ?Hobj;
          try reflexivity).

Lemma Toggle_write_toggle tv av bv h arg n :
  is_function av = false → is_function bv = false → is_function arg = false →
  run Toggle.code (8 + n) (Write 0 arg (Return VUndefined)) (Toggle.st tv av bv h)
  = Ok VUndefined
      (if Object_is tv arg then Toggle.st tv av bv h
       else Toggle.st arg av bv (Toggle.rerun h)).
Proof.
  intros Ha Hb Harg.
  change (8 + n)%nat with (S (S (S (S (S (S (S (S n)))))))).
  destruct (Object_is tv arg) eqn:Hobj;
    destruct (truthy tv) eqn:Htv; destruct (truthy arg) eqn:Htarg;
    exec_with Harg Ha Hb Htarg Htv Hobj.
Qed.

Lemma Toggle_write_a tv av bv h arg n :
  is_function av = false → is_function bv = false → is_function arg = false →
  run Toggle.code (8 + n) (Write 1 arg (Return VUndefined)) (Toggle.st tv av bv h)
  = Ok VUndefined
      (if truthy tv
       then if Object_is av arg then Toggle.st tv av bv h
            else Toggle.st tv arg bv (Toggle.rerun h)
       else Toggle.st tv arg bv h).
Proof.
  intros Ha Hb Harg.
  change (8 + n)%nat with (S (S (S (S (S (S (S (S n)))))))).
  destruct (Object_is av arg) eqn:Hobj; destruct (truthy tv) eqn:Htv;
    try (apply bool_decide_eq_true in Hobj as Heq; subst arg);
    exec_with Harg Ha Hb Htv Htv Hobj.
Qed.

Lemma Toggle_write_b tv av bv h arg n :
  is_function av = false → is_function bv = false → is_function arg = false →
  run Toggle.code (8 + n) (Write 2 arg (Return VUndefined)) (Toggle.st tv av bv h)
  = Ok VUndefined
      (if truthy tv
       then Toggle.st tv av arg h
       else if Object_is bv arg then Toggle.st tv av bv h
            else Toggle.st tv av arg (Toggle.rerun h)).
Proof.
  intros Ha Hb Harg.
  change (8 + n)%nat with (S (S (S (S (S (S (S (S n)))))))).
  destruct (Object_is bv arg) eqn:Hobj; destruct (truthy tv) eqn:Htv;
    try (apply bool_decide_eq_true in Hobj as Heq; subst arg);
    exec_with Harg Ha Hb Htv Htv Hobj.
Qed.

(** C6.  The scenario [createEffect(() => toggle() ? a() : b())] starts in a
    state [Toggle.st], and every write of a value to one of the three signals
    leads from such a state to such a state.  In these states the effect's
    dependency set is [toggle] and the signal of the taken branch, and it is
    subscribed to these two and to no other.  A write to the signal of the
    untaken branch re-runs nothing; a write of a different value to the signal
    of the taken branch, or to [toggle], re-runs the effect once, after which
    the dependencies are those of the new evaluation. *)
Theorem C6_conditional_dependencies tv av bv h arg n :
  is_function av = false → is_function bv = false → is_function arg = false →
  let st := Toggle.st tv av bv h in
  let write s := run Toggle.code (8 + n) (Write s arg (Return VUndefined)) st in
  run Toggle.code 10 (Toggle.setup (Return VUndefined)) initial_state
    = Ok VUndefined (Toggle.st (VBool true) (num 1) (num 2) [EffectRan 0]) ∧
  deps_of (EffectTracker 0) st
    = [SignalSubscribers 0; SignalSubscribers (Toggle.taken tv)] ∧
  (∀ s, EffectTracker 0 ∈ subscribers_of (SignalSubscribers s) st
        ↔ s = 0%nat ∨ s = Toggle.taken tv) ∧
  write 0%nat = Ok VUndefined
    (if Object_is tv arg then st else Toggle.st arg av bv (Toggle.rerun h)) ∧
  write 1%nat = Ok VUndefined
    (if truthy tv
     then if Object_is av arg then st else Toggle.st tv arg bv (Toggle.rerun h)
     else Toggle.st tv arg bv h) ∧
  write 2%nat = Ok VUndefined
    (if truthy tv
     then Toggle.st tv av arg h
     else if Object_is bv arg then st else Toggle.st tv av arg (Toggle.rerun h)) ∧
  occurrences (EffectRan 0) (Toggle.rerun h) = S (occurrences (EffectRan 0) h).
Proof.
  intros Ha Hb Harg st write. split_and!.
  - reflexivity.
  - reflexivity.
  - intros s. unfold st, Toggle.taken. simpl.
    destruct (truthy tv); destruct s as [|[|[|s]]]; simpl;
      rewrite ?list_elem_of_singleton, ?elem_of_nil; split; try tauto; try lia;
      intros [?|?]; done.
  - by apply Toggle_write_toggle.
  - by apply Toggle_write_a.
  - by apply Toggle_write_b.
  - unfold Toggle.rerun. rewrite !occurrences_app, occurrences_singleton.
    rewrite (occurrences_notin _ [Notified (EffectTracker 0)]); [lia|].
    by intros [=]%list_elem_of_singleton.
Qed.

Lemma C6_conditional_dependencies_witness :
  run Toggle.code 8 (Write 0 (VBool false) (Return VUndefined))
    (Toggle.st (VBool true) (num 1) (num 2) [EffectRan 0])
  = Ok VUndefined (Toggle.st (VBool false) (num 1) (num 2) (Toggle.rerun [EffectRan 0])).
Proof.
  exact (proj1 (proj2 (proj2 (proj2
    (C6_conditional_dependencies (VBool true) (num 1) (num 2) [EffectRan 0] (VBool false) 0
       eq_refl eq_refl eq_refl))))).
Defined.

(** In the scenario: [b(9)] (untaken) re-runs nothing, [a(5)] (taken) re-runs,
    [toggle(false)] re-runs and flips the branch, then [a(6)] (now untaken)
    re-runs nothing and [b(7)] (now taken) re-runs: four evaluations in all. *)
Lemma Toggle_scenario :
  ∃ st, run Toggle.code 30
          (Toggle.setup
             (Write 2 (num 9) (Write 1 (num 5) (Write 0 (VBool false)
             (Write 1 (num 6) (Write 2 (num 7) (Return VUndefined)))))))
          initial_state = Ok VUndefined st ∧
        st = Toggle.st (VBool false) (num 6) (num 7)
               (Toggle.rerun (Toggle.rerun (Toggle.rerun [EffectRan 0]))) ∧
        occurrences (EffectRan 0) (history st) = 4%nat.
Proof. eexists. split; [vm_compute; reflexivity|]. split; reflexivity. Qed.

(** * Injection *)

(** [want] ends in [fallback()] whenever the key is not found. *)
Lemma want_not_shared code run key fallback st :
  not_shared key st →
  want code run key fallback st = call code run fallback [] st.
Proof.
  unfold not_shared, want. destruct (currentOwner st) as [o|]; [|done].
  by intros ->.
Qed.

(** With a fallback that is not a function, [want] throws a TypeError,
    whatever the fuel. *)
Lemma want_literal_fallback_throws code run key fallback st :
  not_shared key st → is_function fallback = false →
  want code run key fallback st = Thrown TypeError st.
Proof.
  intros Hkey Hlit. rewrite want_not_shared by done. by destruct fallback.
Qed.

(** C7, on the code.  [want("theme", "dark")] throws a TypeError instead of
    returning ["dark"], with no current owner and also in a child whose
    ancestors share another key only; so does [want("theme")] with the
    fallback left out.  With the resolver [() => "light"] it returns
    ["light"], and a key that an ancestor shares is found.  (Any fuel that
    lets the calls be made.) *)
Theorem C7_want_literal_fallback_throws n :
  run Injection.code (1 + n) (Want "theme" (VString "dark") Return) initial_state
    = Thrown TypeError initial_state ∧
  run Injection.code (1 + n) (Want "theme" (VString "dark") Return) Injection.in_child
    = Thrown TypeError Injection.in_child ∧
  run Injection.code (1 + n) (Want "theme" VUndefined Return) Injection.in_child
    = Thrown TypeError Injection.in_child ∧
  run Injection.code (3 + n) (Want "theme" (VFunction 0) Return) Injection.in_child
    = Ok (VString "light") Injection.in_child ∧
  run Injection.code (2 + n) (Want "user" (VString "dark") Return) Injection.in_child
    = Ok (VObject 1) Injection.in_child.
Proof. split_and!; by vm_compute. Qed.

(** * Every diamond *)

Lemma Diamond_write gb gc h v w lg hs n :
  is_function w = false →
  run (Diamond.code_of gb gc h w) (9 + n) (Write 0 w (Return VUndefined))
    (Diamond.st gb gc v lg hs)
  = Ok VUndefined
      (if Object_is v w then Diamond.st gb gc v lg hs
       else Diamond.st gb gc w ((lg ++ [h (gb w) (gc v)]) ++ [h (gb w) (gc w)])
              (Diamond.rerun hs)).
Proof.
  intros Hw.
  change (9 + n)%nat with (S (S (S (S (S (S (S (S (S n))))))))).
  destruct (Object_is v w) eqn:Hobj; exec_with Hw Hw Hw Hw Hw Hobj.
Qed.

Lemma Diamond_batch gb gc h v w lg hs n :
  is_function w = false →
  run (Diamond.code_of gb gc h w) (11 + n) (Batch (VFunction 3) Return)
    (Diamond.st gb gc v lg hs)
  = Ok VUndefined
      (if Object_is v w then Diamond.st gb gc v lg hs
       else Diamond.st gb gc w ((lg ++ [h (gb w) (gc v)]) ++ [h (gb w) (gc w)])
              (Diamond.rerun hs)).
Proof.
  intros Hw.
  change (11 + n)%nat with (S (S (S (S (S (S (S (S (S (S (S n))))))))))).
  destruct (Object_is v w) eqn:Hobj; exec_with Hw Hw Hw Hw Hw Hobj.
Qed.

Lemma Diamond_rerun_counts hs :
  occurrences (EffectRan 0) (Diamond.rerun hs) = (occurrences (EffectRan 0) hs + 2)%nat ∧
  occurrences (Notified (EffectTracker 0)) (Diamond.rerun hs)
    = (occurrences (Notified (EffectTracker 0)) hs + 2)%nat ∧
  occurrences (Computed 0) (Diamond.rerun hs) = (occurrences (Computed 0) hs + 1)%nat ∧
  occurrences (Computed 1) (Diamond.rerun hs) = (occurrences (Computed 1) hs + 1)%nat.
Proof.
  assert (∀ ev ev', occurrences ev [ev'] = if decide (ev' = ev) then 1%nat else 0%nat) as E.
  { intros ev ev'. unfold occurrences. rewrite filter_cons. by case_decide. }
  unfold Diamond.rerun. rewrite !occurrences_app, !E.
  repeat match goal with
         | |- context [decide (?a = ?b)] => destruct (decide (a = b)); [try done|try done]
         end.
  lia.
Qed.

(** C3, as amended.  Take any diamond: a signal [a], computeds
    [b = gb(a())] and [c = gc(a())] for any functions [gb] and [gc], and an
    effect that reads [b] and [c] and logs [h(b, c)].  Its set-up leads to a
    state [Diamond.st], and every write of a value to [a] leads from such a
    state to such a state.  A write of the same value changes nothing.  A
    write of a different value [w] re-runs the effect twice, once per
    computed, and evaluates each computed once, outside a batch and equally
    when the write is wrapped in [batch]: the batch defers the two computeds,
    and when it drains them the depth is zero again, so each of them notifies
    the effect at once.  The first re-run sees the new [b] and the old [c],
    the last one the new values of both. *)
Theorem C3_diamond_reruns gb gc h v0 v w lg hs n :
  is_function w = false →
  let code := Diamond.code_of gb gc h w in
  let st := Diamond.st gb gc v lg hs in
  let after :=
    if Object_is v w then st
    else Diamond.st gb gc w ((lg ++ [h (gb w) (gc v)]) ++ [h (gb w) (gc w)])
           (Diamond.rerun hs) in
  run code 10 (Diamond.setup_of v0 (Return VUndefined)) initial_state
    = Ok VUndefined (Diamond.st gb gc v0 [h (gb v0) (gc v0)]
                       [EffectRan 0; Computed 0; Computed 1]) ∧
  run code (9 + n) (Write 0 w (Return VUndefined)) st = Ok VUndefined after ∧
  run code (11 + n) (Batch (VFunction 3) Return) st = Ok VUndefined after ∧
  (Object_is v w = false →
   occurrences (EffectRan 0) (history after) = (occurrences (EffectRan 0) hs + 2)%nat ∧
   occurrences (Notified (EffectTracker 0)) (history after)
     = (occurrences (Notified (EffectTracker 0)) hs + 2)%nat ∧
   occurrences (Computed 0) (history after) = (occurrences (Computed 0) hs + 1)%nat ∧
   occurrences (Computed 1) (history after) = (occurrences (Computed 1) hs + 1)%nat).
Proof.
  intros Hw code st after. split_and!.
  - reflexivity.
  - by apply Diamond_write.
  - by apply Diamond_batch.
  - intros Hobj. unfold after. rewrite Hobj. apply Diamond_rerun_counts.
Qed.

Lemma C3_diamond_reruns_witness :
  run Diamond.code 11 (Batch (VFunction 3) Return)
    (Diamond.st (λ v, js_mul v (num 2)) (λ v, js_mul v (num 3)) (num 1) [num 5]
       [EffectRan 0; Computed 0; Computed 1])
  = Ok VUndefined
      (Diamond.st (λ v, js_mul v (num 2)) (λ v, js_mul v (num 3)) (num 2)
         [num 5; num 7; num 10]
         (Diamond.rerun [EffectRan 0; Computed 0; Computed 1])).
Proof.
  exact (proj1 (proj2 (proj2
    (C3_diamond_reruns (λ v, js_mul v (num 2)) (λ v, js_mul v (num 3)) js_add
       (num 1) (num 1) (num 2) [num 5] [EffectRan 0; Computed 0; Computed 1] 0 eq_refl)))).
Defined.

(** * The dirty flag *)

Lemma keeps_dirty_refl st : keeps_dirty st st.
Proof.
  split_and!; [exists []; by rewrite app_nil_r|done|]. intros c cell Hc Hd. eauto.
Qed.

Lemma keeps_dirty_trans st1 st2 st3 :
  keeps_dirty st1 st2 → keeps_dirty st2 st3 → keeps_dirty st1 st3.
Proof.
  intros ((h1 & Hh1) & Hl1 & H1) ((h2 & Hh2) & Hl2 & H2). split_and!.
  - exists (h1 ++ h2). by rewrite Hh2, Hh1, app_assoc.
  - lia.
  - intros c cell Hc Hd. destruct (H1 c cell Hc Hd) as (cell2 & Hc2 & [Hd2|Hlt]).
    + destruct (H2 c cell2 Hc2 Hd2) as (cell3 & Hc3 & [Hd3|Hlt]); [eauto|].
      exists cell3. split; [done|]. right.
      rewrite Hh1, occurrences_app in Hlt. lia.
    + assert (c < length (computeds st3))%nat as Hlen
        by (apply lookup_lt_Some in Hc2; lia).
      apply lookup_lt_is_Some in Hlen as [cell3 Hc3].
      exists cell3. split; [done|]. right. rewrite Hh2, occurrences_app. lia.
Qed.

(** Changes that leave the flags of the existing computeds alone. *)
Lemma keeps_dirty_flags st st' :
  (∃ h, history st' = history st ++ h) →
  (∃ l, dirty <$> computeds st' = (dirty <$> computeds st) ++ l) →
  keeps_dirty st st'.
Proof.
  intros Hh [l Hl]. split_and!; [done| |].
  - apply (f_equal length) in Hl. rewrite length_app, !length_fmap in Hl. lia.
  - intros c cell Hc Hd.
    assert ((dirty <$> computeds st') !! c = Some true) as H'.
    { rewrite Hl. apply lookup_app_l_Some. by rewrite list_lookup_fmap, Hc, <- Hd. }
    rewrite list_lookup_fmap in H'.
    destruct (computeds st' !! c) as [cell'|]; [|done].
    injection H' as H'. eauto.
Qed.

Lemma keeps_dirty_same st st' :
  history st' = history st → dirty <$> computeds st' = dirty <$> computeds st →
  keeps_dirty st st'.
Proof.
  intros Hh Hf. apply keeps_dirty_flags; exists []; by rewrite app_nil_r.
Qed.

Lemma flags_alter (f : computed_cell → computed_cell) (c : nat) (l : list computed_cell) :
  (∀ x, dirty (f x) = dirty x) → dirty <$> alter f c l = dirty <$> l.
Proof.
  intros Hf. apply list_eq. intros i. rewrite !list_lookup_fmap.
  destruct (decide (c = i)) as [->|Hne].
  - rewrite list_lookup_alter_eq. destruct (l !! i); simpl; [|done]. by rewrite Hf.
  - by rewrite list_lookup_alter_ne.
Qed.

Lemma flags_alter_subscribers f ss st :
  dirty <$> computeds (alter_subscribers f ss st) = dirty <$> computeds st.
Proof. destruct ss; simpl; [done|]. by apply flags_alter. Qed.

Lemma flags_alter_deps f t st :
  dirty <$> computeds (alter_deps f t st) = dirty <$> computeds st.
Proof. destruct t; simpl; [|done]. by apply flags_alter. Qed.

Lemma flags_track ss st : dirty <$> computeds (track ss st) = dirty <$> computeds st.
Proof.
  unfold track. destruct (activeTracker st); [|done].
  by rewrite flags_alter_deps, flags_alter_subscribers.
Qed.

Lemma flags_cleanupTracker t st :
  dirty <$> computeds (cleanupTracker t st) = dirty <$> computeds st.
Proof.
  unfold cleanupTracker. rewrite flags_alter_deps.
  generalize (deps_of t st). intros l. revert st.
  induction l as [|d l IH]; intros st; [done|]. cbn [foldl].
  by rewrite IH, flags_alter_subscribers.
Qed.

Lemma keeps_dirty_track ss st : keeps_dirty st (track ss st).
Proof.
  apply keeps_dirty_same; [|apply flags_track].
  symmetry. apply view_history. symmetry. apply view_track.
Qed.

Lemma keeps_dirty_cleanupTracker t st : keeps_dirty st (cleanupTracker t st).
Proof.
  apply keeps_dirty_same; [|apply flags_cleanupTracker].
  symmetry. apply view_history. symmetry. apply view_cleanupTracker.
Qed.

Lemma keeps_dirty_record ev st : keeps_dirty st (record ev st).
Proof. apply keeps_dirty_flags; [by exists [ev]|exists []; by rewrite app_nil_r]. Qed.

Lemma keeps_dirty_pop st : keeps_dirty st (pop_tracker st).
Proof. unfold pop_tracker. destruct (trackerStack st); by apply keeps_dirty_same. Qed.

Lemma keeps_dirty_share key v st : keeps_dirty st (share key v st).
Proof. unfold share. destruct (currentOwner st) as [[]|]; by apply keeps_dirty_same. Qed.

Lemma keeps_dirty_new_computed fn st : keeps_dirty st (createComputed fn st).2.
Proof.
  apply keeps_dirty_flags; [exists []; by rewrite app_nil_r|].
  simpl. rewrite fmap_app. by eexists.
Qed.

Lemma keeps_dirty_mark c st : keeps_dirty st (alter_computed (with_dirty true) c st).
Proof.
  split_and!; [exists []; by rewrite app_nil_r|simpl; by rewrite length_alter|].
  intros c' cell Hc Hd. simpl. destruct (decide (c = c')) as [->|Hne].
  - rewrite list_lookup_alter_eq, Hc. simpl. eauto.
  - rewrite list_lookup_alter_ne by done. eauto.
Qed.

(** Storing the result of an evaluation that has been recorded. *)
Lemma keeps_dirty_clean c v st0 st :
  keeps_dirty st0 st →
  (occurrences (Computed c) (history st0) < occurrences (Computed c) (history st))%nat →
  keeps_dirty st0
    (alter_computed (with_dirty false) c (alter_computed (with_cachedValue v) c st)).
Proof.
  intros (Hh & Hl & H) Hlt. split_and!; [done|simpl; by rewrite !length_alter|].
  intros c' cell Hc Hd. simpl. destruct (decide (c = c')) as [->|Hne].
  - assert (c' < length (computeds st))%nat as Hlen by (apply lookup_lt_Some in Hc; lia).
    apply lookup_lt_is_Some in Hlen as [cell1 Hc1].
    rewrite !list_lookup_alter_eq, Hc1. simpl. eauto.
  - rewrite !list_lookup_alter_ne by done. exact (H c' cell Hc Hd).
Qed.

Lemma keeps_dirty_from {A} st0 st (o : outcome A) :
  keeps_dirty st0 st → ensures (keeps_dirty st) o → ensures (keeps_dirty st0) o.
Proof. intros H. apply ensures_mono. intros st'. by apply keeps_dirty_trans. Qed.

Section Dirty.

Variable code : nat → list value → prog.
Variable run : prog → state → outcome value.
Variable notify : tracker → state → outcome unit.
Hypothesis run_keeps : ∀ p st, ensures (keeps_dirty st) (run p st).
Hypothesis notify_keeps : ∀ t st, ensures (keeps_dirty st) (notify t st).

Lemma call_keeps fn args st : ensures (keeps_dirty st) (call code run fn args st).
Proof. destruct fn; simpl; auto using keeps_dirty_refl. Qed.

Lemma for_each_keeps {A} (body : A → state → outcome unit) xs st :
  (∀ x st, ensures (keeps_dirty st) (body x st)) →
  ensures (keeps_dirty st) (for_each body xs st).
Proof.
  intros Hbody.
  cut (∀ st0, keeps_dirty st0 st → ensures (keeps_dirty st0) (for_each body xs st)).
  { intros H. apply H, keeps_dirty_refl. }
  revert st. induction xs as [|x xs IH]; intros st st0 H0; simpl; [done|].
  eapply ensures_bind with (P := keeps_dirty st0); [|done|auto].
  by eapply keeps_dirty_from.
Qed.

Lemma trigger_keeps ss st : ensures (keeps_dirty st) (trigger notify ss st).
Proof.
  unfold trigger. apply for_each_keeps. intros t st1.
  destruct (0 <? batchDepth st1); [by apply keeps_dirty_same|apply notify_keeps].
Qed.

Lemma scoped_keeps t fn st :
  ensures (keeps_dirty st) (try_finally (call code run fn [] (push_tracker t st)) pop_tracker).
Proof.
  pose proof (call_keeps fn [] (push_tracker t st)) as H.
  assert (keeps_dirty st (push_tracker t st)) as Hpush by by apply keeps_dirty_same.
  destruct (call _ _ _ _ _) as [r st_b|err st_b|]; cbn [try_finally ensures] in *;
    [..|done];
    (eapply keeps_dirty_trans; [exact Hpush|];
     eapply keeps_dirty_trans; [exact H|apply keeps_dirty_pop]).
Qed.

Lemma batch_exit_keeps st1 :
  ensures (keeps_dirty st1)
    (let st2 := set_batchDepth (batchDepth st1 - 1) st1 in
     if batchDepth st2 =? 0
     then for_each notify (pendingNotifications st2) (set_pendingNotifications [] st2)
     else Ok () st2).
Proof.
  cbv zeta. destruct (_ =? 0).
  - eapply keeps_dirty_from; [|apply for_each_keeps, notify_keeps].
    by apply keeps_dirty_same.
  - by apply keeps_dirty_same.
Qed.

Lemma batch_keeps fn st : ensures (keeps_dirty st) (batch code run notify fn st).
Proof.
  unfold batch, try_finally_with.
  pose proof (call_keeps fn [] (set_batchDepth (batchDepth st + 1) st)) as H.
  assert (keeps_dirty st (set_batchDepth (batchDepth st + 1) st)) as Hin
    by by apply keeps_dirty_same.
  destruct (call _ _ _ _ _) as [a st1|e st1|]; cbn [ensures] in H; [..|done];
    (eapply ensures_bind with (P := keeps_dirty st); [|done|done];
     eapply keeps_dirty_from; [|apply batch_exit_keeps];
     by eapply keeps_dirty_trans).
Qed.

Lemma want_keeps key fallback st :
  ensures (keeps_dirty st) (want code run key fallback st).
Proof.
  unfold want. destruct (currentOwner st) as [o|]; [|apply call_keeps].
  destruct (_ ≫= _); [apply keeps_dirty_refl|apply call_keeps].
Qed.

Lemma sig_read_keeps s st : ensures (keeps_dirty st) (sig_read s st).
Proof.
  unfold sig_read. destruct (_ !! _); cbn [ensures]; [|apply keeps_dirty_refl].
  apply keeps_dirty_track.
Qed.

Lemma sig_write_keeps s arg st :
  ensures (keeps_dirty st) (sig_write code run notify s arg st).
Proof.
  unfold sig_write. destruct (_ !! _) as [cell|]; [|apply keeps_dirty_refl].
  eapply ensures_bind with (P := keeps_dirty st); [|done|].
  { destruct (is_function arg); [apply call_keeps|apply keeps_dirty_refl]. }
  intros nextValue st1 H1. destruct (negb _); [|done].
  eapply ensures_bind with (P := keeps_dirty st); [|done|done].
  eapply keeps_dirty_from; [|apply trigger_keeps].
  eapply keeps_dirty_trans; [exact H1|by apply keeps_dirty_same].
Qed.

Lemma computed_notify_keeps c st :
  ensures (keeps_dirty st) (computed_notify notify c st).
Proof.
  unfold computed_notify. destruct (_ !! _) as [cell|]; [|apply keeps_dirty_refl].
  destruct (negb _); [|apply keeps_dirty_refl].
  eapply keeps_dirty_from; [|apply trigger_keeps]. apply keeps_dirty_mark.
Qed.

Lemma computed_peek_keeps c st :
  ensures (keeps_dirty st) (computed_peek code run c st).
Proof.
  unfold computed_peek. destruct (_ !! _) as [cell|] eqn:Hc; [|apply keeps_dirty_refl].
  destruct (dirty cell); [|apply keeps_dirty_refl].
  set (st_r := record (Computed c) (cleanupTracker (ComputedTracker c) st)).
  assert (keeps_dirty st st_r) as Hr.
  { eapply keeps_dirty_trans; [apply keeps_dirty_cleanupTracker|apply keeps_dirty_record]. }
  assert (occurrences (Computed c) (history st)
          < occurrences (Computed c) (history st_r))%nat as Hlt.
  { change (history st_r)
      with (history (cleanupTracker (ComputedTracker c) st) ++ [Computed c]).
    rewrite occurrences_app, occurrences_singleton.
    rewrite (view_history _ _ (view_cleanupTracker (ComputedTracker c) st)). lia. }
  pose proof (scoped_keeps (Some (ComputedTracker c)) (computeFn cell) st_r) as H.
  unfold runWithTracker.
  destruct (try_finally _ _) as [v st_b|err st_b|]; cbn [bind ensures] in *; [| |done].
  - apply keeps_dirty_clean.
    + by eapply keeps_dirty_trans.
    + destruct H as ((h & Hh) & _). rewrite Hh, occurrences_app. lia.
  - by eapply keeps_dirty_trans.
Qed.

Lemma computed_read_keeps c st :
  ensures (keeps_dirty st) (computed_read code run c st).
Proof.
  unfold computed_read. destruct (_ !! _); [|apply keeps_dirty_refl].
  eapply keeps_dirty_from; [|apply computed_peek_keeps]. apply keeps_dirty_track.
Qed.

Lemma call_cleanupFn_keeps e st :
  ensures (keeps_dirty st) (call_cleanupFn code run e st).
Proof.
  unfold call_cleanupFn. destruct (_ !! _) as [cell|]; [|apply keeps_dirty_refl].
  destruct (is_function _); [|apply keeps_dirty_refl].
  pose proof (call_keeps (cleanupFn cell) [] (record (CleanupCalled e) st)) as H.
  destruct (call _ _ _ _ _); cbn [ensures] in *; [| |done].
  - eapply keeps_dirty_trans; [apply keeps_dirty_record|exact H].
  - eapply keeps_dirty_trans; [apply keeps_dirty_record|].
    eapply keeps_dirty_trans; [exact H|by apply keeps_dirty_same].
Qed.

Lemma execute_keeps e st : ensures (keeps_dirty st) (execute code run e st).
Proof.
  unfold execute.
  eapply ensures_bind with (P := keeps_dirty st); [apply call_cleanupFn_keeps|done|].
  intros _ st1 H1.
  eapply ensures_bind with (P := keeps_dirty st); [|done|].
  - eapply keeps_dirty_from; [|apply scoped_keeps].
    eapply keeps_dirty_trans; [exact H1|].
    eapply keeps_dirty_trans; [apply keeps_dirty_cleanupTracker|apply keeps_dirty_record].
  - intros r st2 H2. cbn [ensures].
    eapply keeps_dirty_trans; [exact H2|by apply keeps_dirty_same].
Qed.

Lemma dispose_keeps e st : ensures (keeps_dirty st) (dispose code run e st).
Proof.
  unfold dispose. destruct (_ !! _) as [cell|]; [|apply keeps_dirty_refl].
  destruct (negb _); [apply keeps_dirty_refl|].
  eapply ensures_bind with (P := keeps_dirty st); [|done|].
  - eapply keeps_dirty_from; [|apply call_cleanupFn_keeps]. by apply keeps_dirty_same.
  - intros _ st1 H1. cbn [ensures].
    eapply keeps_dirty_trans; [exact H1|apply keeps_dirty_cleanupTracker].
Qed.

Lemma effect_notify_keeps e st : ensures (keeps_dirty st) (effect_notify code run e st).
Proof.
  unfold effect_notify. destruct (_ !! _) as [cell|]; [|apply keeps_dirty_refl].
  destruct (active cell); [apply execute_keeps|apply keeps_dirty_refl].
Qed.

Lemma makeEffect_keeps fn st : ensures (keeps_dirty st) (_makeEffect code run fn st).
Proof.
  unfold _makeEffect.
  eapply ensures_bind with (P := keeps_dirty st); [|done|done].
  eapply keeps_dirty_from; [|apply execute_keeps]. by apply keeps_dirty_same.
Qed.

Lemma notify_step_keeps t st : ensures (keeps_dirty st) (_notify code run notify t st).
Proof.
  destruct t as [c|e]; simpl.
  - eapply keeps_dirty_from; [apply keeps_dirty_record|apply computed_notify_keeps].
  - eapply keeps_dirty_from; [apply keeps_dirty_record|apply effect_notify_keeps].
Qed.

Lemma step_keeps p st : ensures (keeps_dirty st) (step code run notify p st).
Proof.
  destruct p; simpl; try apply keeps_dirty_refl.
  - eapply ensures_bind; [apply sig_read_keeps|done|].
    intros; by eapply keeps_dirty_from.
  - eapply ensures_bind; [apply sig_write_keeps|done|].
    intros; by eapply keeps_dirty_from.
  - eapply ensures_bind with (P := keeps_dirty st); [|done|].
    + unfold sig_peek. destruct (_ !! _); apply keeps_dirty_refl.
    + intros; by eapply keeps_dirty_from.
  - eapply ensures_bind; [apply computed_read_keeps|done|].
    intros; by eapply keeps_dirty_from.
  - eapply ensures_bind; [apply computed_peek_keeps|done|].
    intros; by eapply keeps_dirty_from.
  - eapply keeps_dirty_from; [|apply run_keeps]. by apply keeps_dirty_same.
  - eapply keeps_dirty_from; [apply (keeps_dirty_new_computed fn st)|apply run_keeps].
  - eapply ensures_bind; [apply makeEffect_keeps|done|].
    intros; by eapply keeps_dirty_from.
  - eapply ensures_bind; [apply dispose_keeps|done|].
    intros; by eapply keeps_dirty_from.
  - eapply ensures_bind; [apply batch_keeps|done|].
    intros; by eapply keeps_dirty_from.
  - eapply ensures_bind with (P := keeps_dirty st); [apply scoped_keeps|done|].
    intros; by eapply keeps_dirty_from.
  - eapply keeps_dirty_from; [apply keeps_dirty_share|apply run_keeps].
  - eapply ensures_bind; [apply want_keeps|done|].
    intros; by eapply keeps_dirty_from.
  - eapply keeps_dirty_from; [|apply run_keeps]. by apply keeps_dirty_same.
Qed.

End Dirty.

Lemma run_notify_keeps code n :
  (∀ p st, ensures (keeps_dirty st) (run code n p st)) ∧
  (∀ t st, ensures (keeps_dirty st) (notify code n t st)).
Proof.
  induction n as [|n [IHr IHn]]; [done|].
  split; intros; simpl.
  - by apply step_keeps.
  - by apply notify_step_keeps.
Qed.

Lemma run_keeps_dirty code n p st : ensures (keeps_dirty st) (run code n p st).
Proof. apply run_notify_keeps. Qed.

Lemma notify_keeps_dirty code n t st : ensures (keeps_dirty st) (notify code n t st).
Proof. apply run_notify_keeps. Qed.

(** A drain that returns leaves every pending computed dirty, unless it has
    been evaluated since. *)
Lemma drain_dirties code n c l : ∀ st st',
  for_each (notify code n) l st = Ok () st' →
  ComputedTracker c ∈ l → (c < length (computeds st))%nat →
  ∃ cell', computeds st' !! c = Some cell' ∧
           (dirty cell' = true ∨
            (occurrences (Computed c) (history st)
             < occurrences (Computed c) (history st'))%nat).
Proof.
  induction l as [|x l IH]; intros st st' H Hin Hlen; [by apply elem_of_nil in Hin|].
  simpl in H. destruct (notify code n x st) as [[] st1| |] eqn:Hx; simpl in H; [|done..].
  assert (keeps_dirty st1 st') as Hrest.
  { pose proof (for_each_keeps (notify code n) l st1 (notify_keeps_dirty code n)) as Hk.
    by rewrite H in Hk. }
  pose proof (notify_keeps_dirty code n x st) as Hfirst. rewrite Hx in Hfirst.
  cbn [ensures] in Hfirst.
  destruct (decide (x = ComputedTracker c)) as [->|Hne].
  - (* the notification of [c]: dirty before, or set dirty by it *)
    assert (∃ st_m cell_m, keeps_dirty st_m st1 ∧ computeds st_m !! c = Some cell_m ∧
              dirty cell_m = true ∧
              history st_m = history st ++ [Notified (ComputedTracker c)])
      as (st_m & cell_m & Hm & Hcm & Hdm & Hhm).
    { destruct n as [|k]; [done|]. simpl in Hx. unfold computed_notify in Hx.
      apply lookup_lt_is_Some in Hlen as [cell Hc].
      change (computeds (record (Notified (ComputedTracker c)) st)) with (computeds st) in Hx.
      rewrite Hc in Hx. destruct (dirty cell) eqn:Hd; simpl in Hx.
      - apply Ok_inj in Hx as [_ <-].
        exists (record (Notified (ComputedTracker c)) st), cell.
        split_and!; [apply keeps_dirty_refl|done..].
      - exists (alter_computed (with_dirty true) c
                  (record (Notified (ComputedTracker c)) st)), (with_dirty true cell).
        split_and!; [| |done..].
        + pose proof (trigger_keeps (notify code k) (notify_keeps_dirty code k)
                        (ComputedSubscribers c)
                        (alter_computed (with_dirty true) c
                           (record (Notified (ComputedTracker c)) st))) as Ht.
          by rewrite Hx in Ht.
        + simpl. by rewrite list_lookup_alter_eq, Hc. }
    destruct (keeps_dirty_trans _ _ _ Hm Hrest) as (_ & _ & Hk).
    destruct (Hk c cell_m Hcm Hdm) as (cell' & Hc' & Hor).
    exists cell'. split; [done|]. destruct Hor as [?|Hlt]; [by left|right].
    rewrite Hhm, occurrences_app in Hlt.
    rewrite (occurrences_notin _ [Notified (ComputedTracker c)]) in Hlt; [lia|].
    by intros [=]%list_elem_of_singleton.
  - apply elem_of_cons in Hin as [?|Hin]; [congruence|].
    destruct Hfirst as ((h & Hh) & Hl & _).
    destruct (IH st1 st' H Hin ltac:(lia)) as (cell' & Hc' & Hor).
    exists cell'. split; [done|]. destruct Hor as [?|Hlt]; [by left|right].
    rewrite Hh, occurrences_app in Hlt. lia.
Qed.

(** C10.  At any positive batch depth, whatever has run in the batch before:
    after a write of a value to [s], a read of a clean computed [c] returns
    the value cached before the write; the write is visible in [s], but its
    trigger has only put the subscribers of [s] into the pending set and
    called no [_notify], so [c] is still clean.
    Through [batch]: let [fn] be [() => { s(arg); return c() }], where [arg]
    is a new value for [s] and the clean computed [c] is a subscriber of [s].
    Called by [batch], one level deeper, [fn] returns the value that [c]
    cached before the write, and [c] is clean and pending when [fn] returns.
    - A nested [batch] returns that value and leaves [c] clean and pending.
    - The outermost [batch] drains: if it returns, it returns that value, the
      [_notify] of [c] has been called, and [c] is dirty, unless a read has
      evaluated it since. *)
Theorem C10_stale_read_in_batch code n m f s c arg st cell_s cell_c :
  0 ≤ batchDepth st →
  code f [] = Write s arg (ReadComputed c Return) →
  signals st !! s = Some cell_s →
  computeds st !! c = Some cell_c → dirty cell_c = false →
  ComputedTracker c ∈ sig_subscribers cell_s →
  is_function arg = false → Object_is (sig_value cell_s) arg = false →
  (∀ st0 cell_s0 cell_c0 arg0,
     0 < batchDepth st0 →
     signals st0 !! s = Some cell_s0 →
     computeds st0 !! c = Some cell_c0 → dirty cell_c0 = false →
     is_function arg0 = false →
     ∃ st' cell_c',
       run code (3 + n) (Write s arg0 (ReadComputed c Return)) st0
         = Ok (cachedValue cell_c0) st' ∧
       signals st' !! s = Some (with_sig_value arg0 cell_s0) ∧
       computeds st' !! c = Some cell_c' ∧ dirty cell_c' = false ∧
       cachedValue cell_c' = cachedValue cell_c0 ∧
       history st' = history st0 ∧
       (Object_is (sig_value cell_s0) arg0 = false →
          ∀ t, t ∈ sig_subscribers cell_s0 → t ∈ pendingNotifications st')) ∧
  ∃ st1 cell_c1,
    call code (run code (3 + n)) (VFunction f) []
      (set_batchDepth (batchDepth st + 1) st) = Ok (cachedValue cell_c) st1 ∧
    signals st1 !! s = Some (with_sig_value arg cell_s) ∧
    computeds st1 !! c = Some cell_c1 ∧ dirty cell_c1 = false ∧
    cachedValue cell_c1 = cachedValue cell_c ∧
    history st1 = history st ∧
    ComputedTracker c ∈ pendingNotifications st1 ∧
    let exit := batch code (run code (3 + n)) (notify code m) (VFunction f) st in
    (0 < batchDepth st →
       exit = Ok (cachedValue cell_c) (set_batchDepth (batchDepth st) st1)) ∧
    (batchDepth st = 0 →
       ∀ v st', exit = Ok v st' →
         v = cachedValue cell_c ∧
         (occurrences (Notified (ComputedTracker c)) (history st)
          < occurrences (Notified (ComputedTracker c)) (history st'))%nat ∧
         ∃ cell_c', computeds st' !! c = Some cell_c' ∧
                    (dirty cell_c' = true ∨
                     (occurrences (Computed c) (history st)
                      < occurrences (Computed c) (history st'))%nat)).
Proof.
  intros Hd0 Hf Hs Hc Hclean Hsub Hlit Hnew.
  split; [intros st0 cell_s0 cell_c0 arg0; apply stale_read_at_depth|].
  set (st_in := set_batchDepth (batchDepth st + 1) st).
  destruct (stale_read_at_depth code n s c arg st_in cell_s cell_c)
    as (st1 & cell_c1 & Hrun & Hs1 & Hc1 & Hd1 & Hv1 & Hh1 & Hp1);
    [simpl; lia|done..|].
  assert (call code (run code (3 + n)) (VFunction f) [] st_in = Ok (cachedValue cell_c) st1)
    as Hcall.
  { unfold call. rewrite Hf. exact Hrun. }
  assert (batchDepth st1 = batchDepth st + 1) as Hdepth.
  { pose proof (call_sound code _ (run_sound code (3 + n)) (VFunction f) [] st_in) as Hsd.
    rewrite Hcall in Hsd. by destruct Hsd as ((_ & _ & ->) & _). }
  exists st1, cell_c1. split_and!; [done..|by apply Hp1|].
  intros exit.
  assert (exit =
    let st2 := set_batchDepth (batchDepth st1 - 1) st1 in
    _ <~ (if batchDepth st2 =? 0
          then for_each (notify code m) (pendingNotifications st2)
                 (set_pendingNotifications [] st2)
          else Ok () st2) ;; Ok (cachedValue cell_c)) as Hexit.
  { unfold exit, batch. fold st_in. rewrite Hcall. reflexivity. }
  replace (batchDepth st1 - 1) with (batchDepth st) in Hexit by lia.
  cbv zeta in Hexit. simpl in Hexit. split.
  - intros Hpos. rewrite Hexit. destruct (Z.eqb_spec (batchDepth st) 0); [lia|done].
  - intros E v st' Hv. rewrite E in Hexit. simpl in Hexit. rewrite Hexit in Hv.
    destruct (for_each _ _ _) as [[] st2| |] eqn:Hdrain; simpl in Hv; [|done..].
    injection Hv as <- <-. split; [done|].
    assert (history st = history st1) as -> by (symmetry; exact Hh1). split.
    + by apply (drain_notifies code m _ _ _ Hdrain (ComputedTracker c)), Hp1.
    + apply (drain_dirties code m c _ _ _ Hdrain); [by apply Hp1|].
      simpl. by eapply lookup_lt_Some.
Qed.

Lemma C10_stale_read_in_batch_witness :
  ∃ st', batch Doubling.code (run Doubling.code 5) (notify Doubling.code 5) (VFunction 2)
           Doubling.after_main = Ok (num 10) st' ∧
         (occurrences (Notified (ComputedTracker 0)) (history Doubling.after_main)
          < occurrences (Notified (ComputedTracker 0)) (history st'))%nat ∧
         log st' = [num 0; num 6; num 10; num 14].
Proof.
  eassert (batch Doubling.code (run Doubling.code 5) (notify Doubling.code 5) (VFunction 2)
             Doubling.after_main = Ok (num 10) _) as Hb by (vm_compute; reflexivity).
  destruct (C10_stale_read_in_batch Doubling.code 2 5 2 0 0 (num 7) Doubling.after_main
              {| sig_value := num 5; sig_subscribers := [ComputedTracker 0] |}
              {| computeFn := VFunction 0; cachedValue := num 10; dirty := false;
                 comp_subscribers := [EffectTracker 0];
                 comp_deps := [SignalSubscribers 0] |})
    as (_ & st1 & cell1 & _ & _ & _ & _ & _ & _ & _ & _ & Houter);
    [done|reflexivity|reflexivity|reflexivity|reflexivity|apply list_elem_of_here
    |reflexivity|reflexivity|].
  destruct (Houter eq_refl _ _ Hb) as (_ & Hn & _).
  eexists. split; [exact Hb|]. split; [exact Hn|reflexivity].
Defined.

(** * Well-formed states are kept *)

(** ** How the primitive updates act on the dependency graph *)

Lemma subscribers_of_alter_subscribers f ss ss' st :
  subscribers_exist ss st ∨ f [] = [] →
  subscribers_of ss' (alter_subscribers f ss st)
  = if decide (ss' = ss) then f (subscribers_of ss st) else subscribers_of ss' st.
Proof.
  intros Hex. case_decide as E.
  - subst ss'. destruct ss as [s|c]; simpl; rewrite list_lookup_alter_eq.
    + destruct (signals st !! s) as [cell|] eqn:Hs; simpl; [done|].
      destruct Hex as [Hex|Hf]; [|done]. apply lookup_ge_None in Hs. simpl in Hex. lia.
    + destruct (computeds st !! c) as [cell|] eqn:Hc; simpl; [done|].
      destruct Hex as [Hex|Hf]; [|done]. apply lookup_ge_None in Hc. simpl in Hex. lia.
  - destruct ss as [s|c], ss' as [s'|c']; simpl; try done.
    + rewrite list_lookup_alter_ne by congruence. done.
    + rewrite list_lookup_alter_ne by congruence. done.
Qed.

Lemma deps_of_alter_subscribers f ss t st :
  deps_of t (alter_subscribers f ss st) = deps_of t st.
Proof.
  destruct ss as [s|c], t as [c'|e]; simpl; try done.
  destruct (decide (c = c')) as [->|Hne].
  - rewrite list_lookup_alter_eq. by destruct (computeds st !! c').
  - by rewrite list_lookup_alter_ne.
Qed.

Lemma deps_of_alter_deps f t t' st :
  tracker_exists t st ∨ f [] = [] →
  deps_of t' (alter_deps f t st)
  = if decide (t' = t) then f (deps_of t st) else deps_of t' st.
Proof.
  intros Hex. case_decide as E.
  - subst t'. destruct t as [c|e]; simpl; rewrite list_lookup_alter_eq.
    + destruct (computeds st !! c) as [cell|] eqn:Hc; simpl; [done|].
      destruct Hex as [Hex|Hf]; [|done]. apply lookup_ge_None in Hc. simpl in Hex. lia.
    + destruct (effects st !! e) as [cell|] eqn:He; simpl; [done|].
      destruct Hex as [Hex|Hf]; [|done]. apply lookup_ge_None in He. simpl in Hex. lia.
  - destruct t as [c|e], t' as [c'|e']; simpl; try done.
    + rewrite list_lookup_alter_ne by congruence. done.
    + rewrite list_lookup_alter_ne by congruence. done.
Qed.

Lemma subscribers_of_alter_deps f t ss st :
  subscribers_of ss (alter_deps f t st) = subscribers_of ss st.
Proof.
  destruct t as [c|e], ss as [s|c']; simpl; try done.
  destruct (decide (c = c')) as [->|Hne].
  - rewrite list_lookup_alter_eq. by destruct (computeds st !! c').
  - by rewrite list_lookup_alter_ne.
Qed.

Lemma elem_of_set_delete {A} `{EqDecision A} (x y : A) l :
  y ∈ set_delete x l ↔ y ≠ x ∧ y ∈ l.
Proof. unfold set_delete. by rewrite list_elem_of_filter. Qed.

Lemma set_delete_idemp {A} `{EqDecision A} (x : A) l :
  set_delete x (set_delete x l) = set_delete x l.
Proof.
  unfold set_delete. induction l as [|y l IH]; [done|].
  rewrite filter_cons. case_decide; [|done].
  rewrite filter_cons. case_decide; [|done]. by rewrite IH.
Qed.

(** The loop of [cleanupTracker]: the tracker is deleted from the Sets in its
    [_deps] and from no other. *)
Lemma subscribers_of_cleanup_loop t l : ∀ st ss,
  subscribers_of ss
    (foldl (λ acc depSet, alter_subscribers (set_delete t) depSet acc) st l)
  = if decide (ss ∈ l) then set_delete t (subscribers_of ss st) else subscribers_of ss st.
Proof.
  induction l as [|d l IH]; intros st ss; cbn [foldl].
  - case_decide as E; [by apply elem_of_nil in E|done].
  - rewrite IH, subscribers_of_alter_subscribers by (by right).
    repeat case_decide; subst; rewrite ?set_delete_idemp; try done;
      exfalso; rewrite ?elem_of_cons in *; tauto.
Qed.

Lemma deps_of_cleanup_loop t t' l : ∀ st,
  deps_of t' (foldl (λ acc depSet, alter_subscribers (set_delete t) depSet acc) st l)
  = deps_of t' st.
Proof.
  induction l as [|d l IH]; intros st; simpl; [done|].
  by rewrite IH, deps_of_alter_subscribers.
Qed.

Lemma subscribers_of_cleanupTracker t ss st :
  subscribers_of ss (cleanupTracker t st)
  = if decide (ss ∈ deps_of t st) then set_delete t (subscribers_of ss st)
    else subscribers_of ss st.
Proof.
  unfold cleanupTracker. by rewrite subscribers_of_alter_deps, subscribers_of_cleanup_loop.
Qed.

Lemma deps_of_cleanupTracker t t' st :
  deps_of t' (cleanupTracker t st) = if decide (t' = t) then [] else deps_of t' st.
Proof.
  unfold cleanupTracker. rewrite deps_of_alter_deps by (by right).
  case_decide; [done|]. apply deps_of_cleanup_loop.
Qed.

(** [cleanupTracker] keeps the edges symmetric. *)
Lemma edges_cleanupTracker t st :
  edges_symmetric st → edges_symmetric (cleanupTracker t st).
Proof.
  intros Hsym t' ss. rewrite subscribers_of_cleanupTracker, deps_of_cleanupTracker.
  specialize (Hsym t' ss). destruct (decide (t' = t)) as [->|Hne].
  - rewrite elem_of_nil. case_decide as E.
    + rewrite elem_of_set_delete. tauto.
    + tauto.
  - case_decide as E; [|done]. rewrite elem_of_set_delete. tauto.
Qed.

(** [track] keeps the edges symmetric, when the Set and the active tracker
    exist. *)
Lemma edges_track ss st :
  subscribers_exist ss st →
  (∀ t, activeTracker st = Some t → tracker_exists t st) →
  edges_symmetric st → edges_symmetric (track ss st).
Proof.
  intros Hss Hact Hsym. unfold track. destruct (activeTracker st) as [t|] eqn:Ht; [|done].
  specialize (Hact t eq_refl).
  assert (tracker_exists t (alter_subscribers (set_add t) ss st)) as Hact'.
  { destruct ss, t; simpl in *; by rewrite ?length_alter. }
  intros t' ss'. rewrite subscribers_of_alter_deps, deps_of_alter_deps by (by left).
  rewrite subscribers_of_alter_subscribers, !deps_of_alter_subscribers by (by left).
  specialize (Hsym t' ss').
  destruct (decide (ss' = ss)) as [->|Hss']; destruct (decide (t' = t)) as [->|Ht'];
    rewrite ?elem_of_set_add; try tauto; naive_solver.
Qed.

(** ** The primitive updates keep states tidy *)

Lemma grows_refl st : grows st st.
Proof. split_and!; [exists []; by rewrite app_nil_r|done..]. Qed.

Lemma grows_trans st1 st2 st3 : grows st1 st2 → grows st2 st3 → grows st1 st3.
Proof.
  intros ((c1 & Hc1) & ? & ? & ?) ((c2 & Hc2) & ? & ? & ?).
  split_and!; [|lia..]. exists (c1 ++ c2). by rewrite Hc2, Hc1, app_assoc.
Qed.

Lemma steady_refl st : steady st st.
Proof. split; [apply grows_refl|done]. Qed.

Lemma steady_trans st1 st2 st3 : steady st1 st2 → steady st2 st3 → steady st1 st3.
Proof. intros [Hg Ht] [Hg' Ht']. split; [by eapply grows_trans|auto]. Qed.

(** An update that leaves the graph, the tracker context, the depth, the
    pending set and the console alone, and removes no cell. *)
Lemma steady_same st st' :
  batchDepth st' = batchDepth st →
  pendingNotifications st' = pendingNotifications st →
  activeTracker st' = activeTracker st →
  trackerStack st' = trackerStack st →
  console st' = console st →
  (length (signals st) ≤ length (signals st'))%nat →
  (length (computeds st) ≤ length (computeds st'))%nat →
  (length (effects st) ≤ length (effects st'))%nat →
  (∀ ss, subscribers_of ss st' = subscribers_of ss st) →
  (∀ t, deps_of t st' = deps_of t st) →
  steady st st'.
Proof.
  intros Hd Hp Ha Hs Hc Hls Hlc Hle Hsub Hdep. split.
  - split_and!; [exists []; by rewrite app_nil_r, Hc|done..].
  - intros (H0 & Hcalm & Hact & Hstack & Hsym).
    assert (∀ t, tracker_exists t st → tracker_exists t st') as Hex.
    { intros [c|e]; simpl; lia. }
    split_and!.
    + by rewrite Hd.
    + rewrite Hd, Hp. done.
    + rewrite Ha. auto.
    + rewrite Hs. auto.
    + intros t ss. rewrite Hsub, Hdep. apply Hsym.
Qed.

Lemma subscribers_of_app_signal cell ss st :
  sig_subscribers cell = [] →
  subscribers_of ss (set_signals (signals st ++ [cell]) st) = subscribers_of ss st.
Proof.
  intros Hcell. destruct ss as [s|c]; simpl; [|done].
  destruct (decide (s < length (signals st))%nat).
  - by rewrite lookup_app_l.
  - rewrite lookup_app_r, (lookup_ge_None_2 (signals st)) by lia.
    destruct (s - length (signals st))%nat as [|k]; by simpl.
Qed.

Lemma subscribers_of_app_computed cell ss st :
  comp_subscribers cell = [] →
  subscribers_of ss (set_computeds (computeds st ++ [cell]) st) = subscribers_of ss st.
Proof.
  intros Hcell. destruct ss as [s|c]; simpl; [done|].
  destruct (decide (c < length (computeds st))%nat).
  - by rewrite lookup_app_l.
  - rewrite lookup_app_r, (lookup_ge_None_2 (computeds st)) by lia.
    destruct (c - length (computeds st))%nat as [|k]; by simpl.
Qed.

Lemma deps_of_app_computed cell t st :
  comp_deps cell = [] →
  deps_of t (set_computeds (computeds st ++ [cell]) st) = deps_of t st.
Proof.
  intros Hcell. destruct t as [c|e]; simpl; [|done].
  destruct (decide (c < length (computeds st))%nat).
  - by rewrite lookup_app_l.
  - rewrite lookup_app_r, (lookup_ge_None_2 (computeds st)) by lia.
    destruct (c - length (computeds st))%nat as [|k]; by simpl.
Qed.

Lemma deps_of_app_effect cell t st :
  eff_deps cell = [] →
  deps_of t (set_effects (effects st ++ [cell]) st) = deps_of t st.
Proof.
  intros Hcell. destruct t as [c|e]; simpl; [done|].
  destruct (decide (e < length (effects st))%nat).
  - by rewrite lookup_app_l.
  - rewrite lookup_app_r, (lookup_ge_None_2 (effects st)) by lia.
    destruct (e - length (effects st))%nat as [|k]; by simpl.
Qed.

Lemma steady_new_signal v st :
  steady st (set_signals (signals st ++ [{| sig_value := v; sig_subscribers := [] |}]) st).
Proof.
  apply steady_same; try done.
  - simpl. rewrite length_app. lia.
  - intros ss. by apply subscribers_of_app_signal.
Qed.

Lemma steady_new_computed fn st :
  steady st (createComputed fn st).2.
Proof.
  apply steady_same; try done.
  - simpl. rewrite length_app. lia.
  - intros ss. by apply subscribers_of_app_computed.
  - intros t. by apply deps_of_app_computed.
Qed.

Lemma steady_new_effect fn st :
  steady st (set_effects (effects st ++
    [{| effectFn := fn; cleanupFn := VNull; active := true; eff_deps := [] |}]) st).
Proof.
  apply steady_same; try done.
  - simpl. rewrite length_app. lia.
  - intros t. by apply deps_of_app_effect.
Qed.

Lemma steady_alter_signal_value v s st : steady st (alter_signal (with_sig_value v) s st).
Proof.
  apply steady_same; try done.
  - simpl. by rewrite length_alter.
  - intros [s'|c]; simpl; [|done]. destruct (decide (s = s')) as [->|Hne].
    + rewrite list_lookup_alter_eq. by destruct (signals st !! s').
    + by rewrite list_lookup_alter_ne.
Qed.

Lemma steady_alter_computed f c st :
  (∀ cell, comp_subscribers (f cell) = comp_subscribers cell ∧
           comp_deps (f cell) = comp_deps cell) →
  steady st (alter_computed f c st).
Proof.
  intros Hf. apply steady_same; try done.
  - simpl. by rewrite length_alter.
  - intros [s|c']; simpl; [done|]. destruct (decide (c = c')) as [->|Hne].
    + rewrite list_lookup_alter_eq. destruct (computeds st !! c'); simpl; [apply Hf|done].
    + by rewrite list_lookup_alter_ne.
  - intros [c'|e]; simpl; [|done]. destruct (decide (c = c')) as [->|Hne].
    + rewrite list_lookup_alter_eq. destruct (computeds st !! c'); simpl; [apply Hf|done].
    + by rewrite list_lookup_alter_ne.
Qed.

Lemma steady_alter_effect f e st :
  (∀ cell, eff_deps (f cell) = eff_deps cell) →
  steady st (alter_effect f e st).
Proof.
  intros Hf. apply steady_same; try done.
  - simpl. by rewrite length_alter.
  - intros [c|e']; simpl; [done|]. destruct (decide (e = e')) as [->|Hne].
    + rewrite list_lookup_alter_eq. destruct (effects st !! e'); simpl; [apply Hf|done].
    + by rewrite list_lookup_alter_ne.
Qed.

Lemma steady_record ev st : steady st (record ev st).
Proof. by apply steady_same. Qed.

Lemma steady_set_log l st : steady st (set_log l st).
Proof. by apply steady_same. Qed.

Lemma steady_console_error err st : steady st (console_error err st).
Proof.
  split; [split_and!; [by exists [err]|done..]|].
  intros (H0 & Hcalm & Hact & Hstack & Hsym). by split_and!.
Qed.

Lemma steady_share key v st : steady st (share key v st).
Proof.
  unfold share. destruct (currentOwner st) as [[p parent]|].
  - by apply steady_same.
  - split; [split_and!; [by eexists|done..]|].
    intros (H0 & Hcalm & Hact & Hstack & Hsym). by split_and!.
Qed.

Lemma lengths_track ss st :
  length (signals (track ss st)) = length (signals st) ∧
  length (computeds (track ss st)) = length (computeds st) ∧
  length (effects (track ss st)) = length (effects st) ∧
  console (track ss st) = console st.
Proof.
  unfold track. destruct (activeTracker st) as [t|]; [|done].
  destruct ss, t; simpl; rewrite ?length_alter; done.
Qed.

Lemma lengths_cleanupTracker t st :
  length (signals (cleanupTracker t st)) = length (signals st) ∧
  length (computeds (cleanupTracker t st)) = length (computeds st) ∧
  length (effects (cleanupTracker t st)) = length (effects st) ∧
  console (cleanupTracker t st) = console st.
Proof.
  unfold cleanupTracker. generalize (deps_of t st). intros l.
  assert (∀ st0,
    length (signals (foldl (λ acc d, alter_subscribers (set_delete t) d acc) st0 l))
      = length (signals st0) ∧
    length (computeds (foldl (λ acc d, alter_subscribers (set_delete t) d acc) st0 l))
      = length (computeds st0) ∧
    length (effects (foldl (λ acc d, alter_subscribers (set_delete t) d acc) st0 l))
      = length (effects st0) ∧
    console (foldl (λ acc d, alter_subscribers (set_delete t) d acc) st0 l) = console st0)
    as Hloop.
  { induction l as [|d l IH]; intros st0; [done|]. cbn [foldl].
    destruct (IH (alter_subscribers (set_delete t) d st0)) as (-> & -> & -> & ->).
    destruct d; simpl; rewrite ?length_alter; done. }
  destruct (Hloop st) as (Hs & Hc & He & Hk).
  destruct t; simpl; rewrite ?length_alter; done.
Qed.

Lemma steady_track ss st :
  (subscribers_exist ss st) → steady st (track ss st).
Proof.
  intros Hss. destruct (lengths_track ss st) as (Hs & Hc & He & Hk).
  pose proof (view_track ss st) as Hv. injection Hv as Ea Est Ed Ep _ _ _.
  split; [split_and!; [exists []; by rewrite app_nil_r|lia..]|].
  intros (H0 & Hcalm & Hact & Hstack & Hsym).
  assert (∀ t, tracker_exists t st → tracker_exists t (track ss st)) as Hex.
  { intros [c|e]; simpl; lia. }
  split_and!.
  - by rewrite Ed.
  - by rewrite Ed, Ep.
  - rewrite Ea. auto.
  - rewrite Est. auto.
  - by apply edges_track.
Qed.

Lemma steady_cleanupTracker t st : steady st (cleanupTracker t st).
Proof.
  destruct (lengths_cleanupTracker t st) as (Hs & Hc & He & Hk).
  pose proof (view_cleanupTracker t st) as Hv. injection Hv as Ea Est Ed Ep _ _ _.
  split; [split_and!; [exists []; by rewrite app_nil_r|lia..]|].
  intros (H0 & Hcalm & Hact & Hstack & Hsym).
  assert (∀ t', tracker_exists t' st → tracker_exists t' (cleanupTracker t st)) as Hex.
  { intros [c|e]; simpl; lia. }
  split_and!.
  - by rewrite Ed.
  - by rewrite Ed, Ep.
  - rewrite Ea. auto.
  - rewrite Est. auto.
  - by apply edges_cleanupTracker.
Qed.

Lemma steady_push t st :
  (∀ t', t = Some t' → tracker_exists t' st) → steady st (push_tracker t st).
Proof.
  intros Ht. split; [exact (grows_refl st)|].
  intros (H0 & Hcalm & Hact & Hstack & Hsym). split_and!; try done.
  intros t' [[= Heq]|Hin]%elem_of_cons; [|by apply Hstack].
  apply Hact. done.
Qed.

Lemma steady_pop st : steady st (pop_tracker st).
Proof.
  split; [unfold pop_tracker; destruct (trackerStack st); exact (grows_refl st)|].
  intros (H0 & Hcalm & Hact & Hstack & Hsym). unfold pop_tracker.
  destruct (trackerStack st) as [|t rest] eqn:E.
  - split_and!; try done. simpl. rewrite E. intros t' Ht'. by apply Hstack.
  - split_and!; try done.
    + simpl. intros t' ->. apply Hstack. apply list_elem_of_here.
    + simpl. intros t' Ht'. apply Hstack. by apply list_elem_of_further.
Qed.

Lemma steady_enter_batch st : steady st (set_batchDepth (batchDepth st + 1) st).
Proof.
  split; [exact (grows_refl st)|].
  intros (H0 & Hcalm & Hact & Hstack & Hsym). split_and!; try done; simpl; lia.
Qed.

Lemma steady_pending_add t st :
  0 < batchDepth st →
  steady st (set_pendingNotifications (set_add t (pendingNotifications st)) st).
Proof.
  intros Hd. split; [exact (grows_refl st)|].
  intros (H0 & Hcalm & Hact & Hstack & Hsym). split_and!; try done. simpl. lia.
Qed.

(** ** Every operation keeps states tidy *)

Lemma ensures_and {A} (P Q : state → Prop) (o : outcome A) :
  ensures P o → ensures Q o → ensures (λ st, P st ∧ Q st) o.
Proof. destruct o; simpl; auto. Qed.

Lemma steady_from {A} st0 st (o : outcome A) :
  steady st0 st → ensures (steady st) o → ensures (steady st0) o.
Proof. intros H. apply ensures_mono. intros st'. by apply steady_trans. Qed.

Section Tidy.

Variable code : nat → list value → prog.
Variable run : prog → state → outcome value.
Variable notify : tracker → state → outcome unit.
Hypothesis Hrs : ∀ p st, ensures (sound st) (run p st).
Hypothesis Hns : ∀ t st, ensures (sound st) (notify t st).
Hypothesis run_steady : ∀ p st, ensures (steady st) (run p st).
Hypothesis notify_steady : ∀ t st, ensures (steady st) (notify t st).

Lemma call_steady fn args st : ensures (steady st) (call code run fn args st).
Proof. destruct fn; simpl; auto using steady_refl. Qed.

Lemma for_each_steady {A} (body : A → state → outcome unit) xs st :
  (∀ x st, ensures (steady st) (body x st)) →
  ensures (steady st) (for_each body xs st).
Proof.
  intros Hbody. cut (∀ st0, steady st0 st → ensures (steady st0) (for_each body xs st)).
  { intros H. apply H, steady_refl. }
  revert st. induction xs as [|x xs IH]; intros st st0 H0; simpl; [done|].
  eapply ensures_bind with (P := steady st0); [|done|auto].
  by eapply steady_from.
Qed.

Lemma trigger_steady ss st : ensures (steady st) (trigger notify ss st).
Proof.
  unfold trigger. apply for_each_steady. intros t st1.
  destruct (Z.ltb_spec 0 (batchDepth st1)); [by apply steady_pending_add|].
  apply notify_steady.
Qed.

Lemma scoped_steady t fn st :
  (∀ t', t = Some t' → tracker_exists t' st) →
  ensures (steady st) (try_finally (call code run fn [] (push_tracker t st)) pop_tracker).
Proof.
  intros Ht. pose proof (call_steady fn [] (push_tracker t st)) as H.
  pose proof (steady_push t st Ht) as Hpush.
  destruct (call _ _ _ _ _) as [r st_b|err st_b|]; cbn [try_finally ensures] in *;
    [..|done];
    (eapply steady_trans; [exact Hpush|]; eapply steady_trans; [exact H|apply steady_pop]).
Qed.

Lemma batch_exit_steady st st1 :
  steady st st1 → batchDepth st1 = batchDepth st + 1 →
  ensures (steady st)
    (let st2 := set_batchDepth (batchDepth st1 - 1) st1 in
     if batchDepth st2 =? 0
     then for_each notify (pendingNotifications st2) (set_pendingNotifications [] st2)
     else Ok () st2).
Proof.
  intros [Hg Ht] Hd. cbv zeta.
  destruct (Z.eqb_spec (batchDepth (set_batchDepth (batchDepth st1 - 1) st1)) 0)
    as [E|E]; simpl in E.
  - eapply steady_from; [|apply for_each_steady, notify_steady].
    split; [exact Hg|]. intros Hst.
    destruct (Ht Hst) as (H0 & Hcalm & Hact & Hstack & Hsym). split_and!; try done.
    simpl. lia.
  - cbn [ensures]. split; [exact Hg|]. intros Hst.
    pose proof Hst as (H0' & _).
    destruct (Ht Hst) as (H0 & Hcalm & Hact & Hstack & Hsym). split_and!; try done.
    simpl. lia.
Qed.

Lemma batch_steady fn st : ensures (steady st) (batch code run notify fn st).
Proof.
  unfold batch, try_finally_with.
  pose proof (call_steady fn [] (set_batchDepth (batchDepth st + 1) st)) as H.
  pose proof (call_sound code run Hrs fn [] (set_batchDepth (batchDepth st + 1) st)) as Hs.
  destruct (call _ _ _ _ _) as [a st1|e st1|]; cbn [ensures] in H, Hs; [..|done].
  - destruct Hs as ((_ & _ & Hd) & _). simpl in Hd.
    eapply ensures_bind; [apply batch_exit_steady; [|exact Hd]|auto..].
    eapply steady_trans; [apply steady_enter_batch|exact H].
  - destruct Hs as ((_ & _ & Hd) & _). simpl in Hd.
    eapply ensures_bind; [apply batch_exit_steady; [|exact Hd]|auto..].
    eapply steady_trans; [apply steady_enter_batch|exact H].
Qed.

Lemma want_steady key fallback st : ensures (steady st) (want code run key fallback st).
Proof.
  unfold want. destruct (currentOwner st) as [o|]; [|apply call_steady].
  destruct (_ ≫= _); [apply steady_refl|apply call_steady].
Qed.

Lemma sig_read_steady s st : ensures (steady st) (sig_read s st).
Proof.
  unfold sig_read. destruct (_ !! _) eqn:Hs; cbn [ensures]; [|apply steady_refl].
  apply steady_track. simpl. by eapply lookup_lt_Some.
Qed.

Lemma sig_write_steady s arg st : ensures (steady st) (sig_write code run notify s arg st).
Proof.
  unfold sig_write. destruct (_ !! _) as [cell|]; [|apply steady_refl].
  eapply ensures_bind with (P := steady st); [|done|].
  { destruct (is_function arg); [apply call_steady|apply steady_refl]. }
  intros nextValue st1 H1. destruct (negb _); [|done].
  eapply ensures_bind with (P := steady st); [|done|done].
  eapply steady_from; [|apply trigger_steady].
  eapply steady_trans; [exact H1|apply steady_alter_signal_value].
Qed.

Lemma computed_notify_steady c st : ensures (steady st) (computed_notify notify c st).
Proof.
  unfold computed_notify. destruct (_ !! _) as [cell|]; [|apply steady_refl].
  destruct (negb _); [|apply steady_refl].
  eapply steady_from; [|apply trigger_steady]. by apply steady_alter_computed.
Qed.

Lemma computed_peek_steady c st : ensures (steady st) (computed_peek code run c st).
Proof.
  unfold computed_peek. destruct (_ !! _) as [cell|] eqn:Hc; [|apply steady_refl].
  destruct (dirty cell); [|apply steady_refl].
  eapply ensures_bind with (P := steady st); [|done|].
  - eapply steady_from; [|apply scoped_steady].
    + eapply steady_trans; [apply steady_cleanupTracker|apply steady_record].
    + intros t' [= <-].
      change (c < length (computeds (cleanupTracker (ComputedTracker c) st)))%nat.
      destruct (lengths_cleanupTracker (ComputedTracker c) st) as (_ & -> & _).
      by eapply lookup_lt_Some.
  - intros v st1 H1. cbn [ensures].
    eapply steady_trans; [exact H1|].
    eapply steady_trans; by apply steady_alter_computed.
Qed.

Lemma computed_read_steady c st : ensures (steady st) (computed_read code run c st).
Proof.
  unfold computed_read. destruct (_ !! _) eqn:Hc; [|apply steady_refl].
  eapply steady_from; [|apply computed_peek_steady].
  apply steady_track. simpl. by eapply lookup_lt_Some.
Qed.

Lemma call_cleanupFn_steady e st : ensures (steady st) (call_cleanupFn code run e st).
Proof.
  unfold call_cleanupFn. destruct (_ !! _) as [cell|]; [|apply steady_refl].
  destruct (is_function _); [|apply steady_refl].
  pose proof (call_steady (cleanupFn cell) [] (record (CleanupCalled e) st)) as H.
  destruct (call _ _ _ _ _); cbn [ensures] in *; [| |done].
  - eapply steady_trans; [apply steady_record|exact H].
  - eapply steady_trans; [apply steady_record|].
    eapply steady_trans; [exact H|apply steady_console_error].
Qed.

Lemma execute_steady e st :
  (e < length (effects st))%nat → ensures (steady st) (execute code run e st).
Proof.
  intros He. unfold execute.
  eapply ensures_bind with (P := steady st); [apply call_cleanupFn_steady|done|].
  intros _ st1 H1.
  eapply ensures_bind with (P := steady st); [|done|].
  - eapply steady_from; [|apply scoped_steady].
    + eapply steady_trans; [exact H1|].
      eapply steady_trans; [apply steady_cleanupTracker|apply steady_record].
    + intros t' [= <-].
      change (e < length (effects (cleanupTracker (EffectTracker e) st1)))%nat.
      destruct (lengths_cleanupTracker (EffectTracker e) st1) as (_ & _ & -> & _).
      destruct H1 as [(_ & _ & _ & Hle) _]. lia.
  - intros r st2 H2. cbn [ensures].
    eapply steady_trans; [exact H2|]. by apply steady_alter_effect.
Qed.

Lemma dispose_steady e st : ensures (steady st) (dispose code run e st).
Proof.
  unfold dispose. destruct (_ !! _) as [cell|]; [|apply steady_refl].
  destruct (negb _); [apply steady_refl|].
  eapply ensures_bind with (P := steady st); [|done|].
  - eapply steady_from; [|apply call_cleanupFn_steady]. by apply steady_alter_effect.
  - intros _ st1 H1. cbn [ensures].
    eapply steady_trans; [exact H1|apply steady_cleanupTracker].
Qed.

Lemma effect_notify_steady e st : ensures (steady st) (effect_notify code run e st).
Proof.
  unfold effect_notify. destruct (_ !! _) as [cell|] eqn:He; [|apply steady_refl].
  destruct (active cell); [|apply steady_refl].
  apply execute_steady. by eapply lookup_lt_Some.
Qed.

Lemma makeEffect_steady fn st : ensures (steady st) (_makeEffect code run fn st).
Proof.
  unfold _makeEffect.
  eapply ensures_bind with (P := steady st); [|done|done].
  eapply steady_from; [apply steady_new_effect|].
  apply execute_steady. simpl. rewrite length_app. simpl. lia.
Qed.

Lemma notify_step_steady t st : ensures (steady st) (_notify code run notify t st).
Proof.
  destruct t as [c|e]; simpl.
  - eapply steady_from; [apply steady_record|apply computed_notify_steady].
  - eapply steady_from; [apply steady_record|apply effect_notify_steady].
Qed.

Lemma step_steady p st : ensures (steady st) (step code run notify p st).
Proof.
  destruct p; simpl; try apply steady_refl.
  - eapply ensures_bind; [apply sig_read_steady|done|].
    intros; by eapply steady_from.
  - eapply ensures_bind; [apply sig_write_steady|done|].
    intros; by eapply steady_from.
  - eapply ensures_bind with (P := steady st); [|done|].
    + unfold sig_peek. destruct (_ !! _); apply steady_refl.
    + intros; by eapply steady_from.
  - eapply ensures_bind; [apply computed_read_steady|done|].
    intros; by eapply steady_from.
  - eapply ensures_bind; [apply computed_peek_steady|done|].
    intros; by eapply steady_from.
  - eapply steady_from; [apply steady_new_signal|apply run_steady].
  - eapply steady_from; [apply (steady_new_computed fn st)|apply run_steady].
  - eapply ensures_bind; [apply makeEffect_steady|done|].
    intros; by eapply steady_from.
  - eapply ensures_bind; [apply dispose_steady|done|].
    intros; by eapply steady_from.
  - eapply ensures_bind; [apply batch_steady|done|].
    intros; by eapply steady_from.
  - eapply ensures_bind with (P := steady st); [|done|].
    + apply scoped_steady. by intros t' [=].
    + intros; by eapply steady_from.
  - eapply steady_from; [apply steady_share|apply run_steady].
  - eapply ensures_bind; [apply want_steady|done|].
    intros; by eapply steady_from.
  - eapply steady_from; [apply steady_set_log|apply run_steady].
Qed.

End Tidy.

Lemma run_notify_steady code n :
  (∀ p st, ensures (steady st) (run code n p st)) ∧
  (∀ t st, ensures (steady st) (notify code n t st)).
Proof.
  induction n as [|n [IHr IHn]]; [done|].
  split; intros; simpl.
  - apply step_steady; auto using run_sound.
  - apply notify_step_steady; auto using run_sound.
Qed.

Lemma tidy_initial : tidy initial_state.
Proof.
  split_and!; try done.
  - intros t Ht. by apply elem_of_nil in Ht.
  - intros t ss. destruct t, ss; simpl; by rewrite !elem_of_nil.
Qed.

(** * Invariants of the engine *)

Lemma run_steady code n p st : ensures (steady st) (run code n p st).
Proof. apply run_notify_steady. Qed.

Lemma notify_steady code n t st : ensures (steady st) (notify code n t st).
Proof. apply run_notify_steady. Qed.

(** X1.  Started in a tidy state, a run that returns or throws ends in a tidy
    state; in particular the dependency graph stays symmetric: a tracker is in
    a [subscribers] Set exactly when that Set is in its [_deps]. *)
Theorem X1_edges_stay_symmetric code n p st :
  tidy st →
  ensures (λ st', tidy st' ∧
                  ∀ t ss, t ∈ subscribers_of ss st' ↔ ss ∈ deps_of t st')
    (run code n p st).
Proof.
  intros Ht. eapply ensures_mono; [|apply (run_steady code n p st)].
  intros st' [_ H]. split; [auto|]. by destruct (H Ht) as (_ & _ & _ & _ & Hsym).
Qed.

Lemma X1_edges_stay_symmetric_witness :
  ensures (λ st', tidy st' ∧
                  ∀ t ss, t ∈ subscribers_of ss st' ↔ ss ∈ deps_of t st')
    (run Diamond.code 30 Diamond.main_batch initial_state).
Proof. apply X1_edges_stay_symmetric. apply tidy_initial. Defined.

(** X2.  Outside a batch nothing is pending: a run started at depth 0 with an
    empty pending set ends, whether it returns or throws, at depth 0 with an
    empty pending set. *)
Theorem X2_nothing_pending_outside_batch code n p st :
  tidy st → batchDepth st = 0 →
  ensures (λ st', batchDepth st' = 0 ∧ pendingNotifications st' = [])
    (run code n p st).
Proof.
  intros Ht Hd.
  eapply ensures_mono;
    [|apply (ensures_and _ _ _ (run_sound code n p st) (run_steady code n p st))].
  intros st' [((_ & _ & Hd') & _) [_ H]].
  destruct (H Ht) as (_ & Hcalm & _). split; [congruence|]. apply Hcalm. congruence.
Qed.

Lemma X2_nothing_pending_outside_batch_witness :
  ensures (λ st', batchDepth st' = 0 ∧ pendingNotifications st' = [])
    (run Pair.code 20 Pair.main_nested initial_state).
Proof. apply X2_nothing_pending_outside_batch; [apply tidy_initial|reflexivity]. Defined.

(** X3.  [dispose()] of an active effect releases every edge: afterwards the
    effect's [_deps] is empty and the effect is in no [subscribers] Set. *)
Theorem X3_dispose_releases_edges code n e st cell st' :
  tidy st → effects st !! e = Some cell → active cell = true →
  dispose code (run code n) e st = Ok () st' →
  deps_of (EffectTracker e) st' = [] ∧
  ∀ ss, EffectTracker e ∉ subscribers_of ss st'.
Proof.
  intros Ht Hcell Hact Hdisp.
  pose proof (dispose_steady code _ (run_steady code n) e st) as Hs.
  rewrite Hdisp in Hs. destruct Hs as [_ Htidy]. specialize (Htidy Ht).
  destruct Htidy as (_ & _ & _ & _ & Hsym).
  assert (deps_of (EffectTracker e) st' = []) as Hdeps.
  { unfold dispose in Hdisp. rewrite Hcell, Hact in Hdisp. cbn [negb] in Hdisp.
    destruct (call_cleanupFn _ _ _ _) as [[] st1| |]; cbn [bind] in Hdisp; [|done..].
    apply Ok_inj in Hdisp as [_ <-]. rewrite deps_of_cleanupTracker.
    by rewrite decide_True. }
  split; [done|]. intros ss Hin. apply Hsym in Hin. rewrite Hdeps in Hin.
  by apply elem_of_nil in Hin.
Qed.

Lemma X3_dispose_releases_edges_witness :
  ∃ st', dispose Cleanup.code (run Cleanup.code 5) 0 Cleanup.after_setup = Ok () st' ∧
         deps_of (EffectTracker 0) st' = [] ∧
         ∀ ss, EffectTracker 0 ∉ subscribers_of ss st'.
Proof.
  eexists. split; [reflexivity|].
  apply (X3_dispose_releases_edges Cleanup.code 5 0 Cleanup.after_setup Cleanup.cell);
    [|reflexivity..].
  exact (proj2 (run_steady Cleanup.code 10 (Cleanup.setup (λ _ _, Return VUndefined))
                  initial_state) tidy_initial).
Defined.

(** X4.  No call into the engine, whether it returns or throws, changes the
    active tracker, the tracker stack or the batch depth. *)
Theorem X4_context_restored code n p t st :
  ensures (balanced st) (run code n p st) ∧
  ensures (balanced st) (notify code n t st).
Proof.
  split; (eapply ensures_mono; [|first [apply run_sound|apply notify_sound]]);
    by intros st' [H _].
Qed.

(** X5.  [dispose()] never throws, also when the cleanup callback throws: the
    error is caught and reported on the console. *)
Theorem X5_dispose_never_throws code n e st err st' :
  dispose code (run code n) e st ≠ Thrown err st'.
Proof.
  unfold dispose. destruct (_ !! _) as [cell|]; [|done].
  destruct (negb _); [done|].
  unfold call_cleanupFn. destruct (_ !! _) as [cell'|]; [|done].
  destruct (is_function _); [|done].
  by destruct (call _ _ _ _ _).
Qed.

(** * Errors *)

Lemma Faulty_setup :
  run Faulty.code 10
    (CreateSignal (num 0) (λ _, CreateEffect (VFunction 0) (λ _, Return VUndefined)))
    initial_state = Ok VUndefined Faulty.after_setup.
Proof. reflexivity. Qed.

Lemma grows_console st st' err : grows st st' → err ∈ console st → err ∈ console st'.
Proof. intros ((c & ->) & _) H. apply elem_of_app. by left. Qed.

(** X6.  A cleanup callback that throws does not stop the re-run of its
    effect: when [_notify()] of the effect returns, the error is on the
    console and the body has been evaluated again. *)
Theorem X6_rerun_survives_cleanup_error code n e st cell err st_a st' :
  effects st !! e = Some cell → active cell = true →
  is_function (cleanupFn cell) = true →
  call code (run code n) (cleanupFn cell) []
    (record (CleanupCalled e) (record (Notified (EffectTracker e)) st)) = Thrown err st_a →
  notify code (S n) (EffectTracker e) st = Ok () st' →
  err ∈ console st' ∧
  (occurrences (EffectRan e) (history st) < occurrences (EffectRan e) (history st'))%nat.
Proof.
  intros Hcell Hact Hfun Hcall Hnotify.
  simpl in Hnotify. unfold effect_notify in Hnotify. simpl in Hnotify.
  rewrite Hcell, Hact in Hnotify. unfold execute, call_cleanupFn in Hnotify.
  simpl in Hnotify. rewrite Hcell, Hfun in Hnotify.
  change (record (CleanupCalled e) (set_history _ st))
    with (record (CleanupCalled e) (record (Notified (EffectTracker e)) st)) in Hnotify.
  rewrite Hcall in Hnotify. cbn [bind] in Hnotify.
  set (st_c := console_error err st_a) in *.
  set (fn := from_option effectFn VUndefined (effects st_c !! e)) in *.
  set (st_r := record (EffectRan e) (cleanupTracker (EffectTracker e) st_c)) in *.
  pose proof (runWithTracker_sound code _ (run_sound code n) (EffectTracker e) fn st_r) as Hs.
  assert (e < length (effects st_r))%nat as He.
  { pose proof (call_steady code _ (run_steady code n) (cleanupFn cell) []
                  (record (CleanupCalled e) (record (Notified (EffectTracker e)) st))) as Hg.
    rewrite Hcall in Hg. destruct Hg as [(_ & _ & _ & Hle) _].
    apply lookup_lt_Some in Hcell. unfold st_r.
    change (e < length (effects (cleanupTracker (EffectTracker e) st_c)))%nat.
    destruct (lengths_cleanupTracker (EffectTracker e) st_c) as (_ & _ & -> & _).
    simpl in *. lia. }
  pose proof (scoped_steady code _ (run_steady code n) (Some (EffectTracker e)) fn st_r) as Hg.
  unfold runWithTracker in Hnotify, Hs.
  destruct (try_finally _ _) as [r st_b| |]; cbn [bind] in Hnotify; [|done..].
  apply Ok_inj in Hnotify as [_ <-]. cbn [ensures] in Hs.
  specialize (Hg ltac:(by intros t' [= <-])). destruct Hg as [Hgrow _].
  destruct Hs as (_ & Hext & _). split.
  - change (err ∈ console st_b). eapply grows_console; [exact Hgrow|].
    change (err ∈ console (cleanupTracker (EffectTracker e) st_c)).
    destruct (lengths_cleanupTracker (EffectTracker e) st_c) as (_ & _ & _ & ->).
    unfold st_c. simpl. apply elem_of_app. right. apply list_elem_of_here.
  - apply (extends_occurrences _ _ (EffectRan e)) in Hext.
    assert (history st_r = history st_a ++ [EffectRan e]) as Hr.
    { pose proof (view_cleanupTracker (EffectTracker e) st_c) as Hv.
      apply view_history in Hv.
      change (history (cleanupTracker (EffectTracker e) st_c) ++ [EffectRan e]
              = history st_a ++ [EffectRan e]).
      by rewrite Hv. }
    rewrite Hr, occurrences_app, occurrences_singleton in Hext.
    pose proof (call_sound code _ (run_sound code n) (cleanupFn cell) []
                  (record (CleanupCalled e) (record (Notified (EffectTracker e)) st))) as Hsa.
    rewrite Hcall in Hsa. destruct Hsa as (_ & Hexta & _).
    apply (extends_occurrences _ _ (EffectRan e)) in Hexta. simpl in Hexta.
    rewrite !occurrences_app in Hexta. simpl. lia.
Qed.

Lemma X6_rerun_survives_cleanup_error_witness :
  ∃ st', notify Faulty.code 6 (EffectTracker 0) Faulty.after_setup = Ok () st' ∧
         VString "bad" ∈ console st' ∧
         (occurrences (EffectRan 0) (history Faulty.after_setup)
          < occurrences (EffectRan 0) (history st'))%nat.
Proof.
  eassert (call Faulty.code (run Faulty.code 5) (cleanupFn Faulty.cell) []
             (record (CleanupCalled 0)
                (record (Notified (EffectTracker 0)) Faulty.after_setup))
           = Thrown (VString "bad") _) as Hcall by (vm_compute; reflexivity).
  eassert (notify Faulty.code 6 (EffectTracker 0) Faulty.after_setup = Ok () _) as Hn
    by (vm_compute; reflexivity).
  eexists. split; [exact Hn|].
  exact (X6_rerun_survives_cleanup_error Faulty.code 5 0 Faulty.after_setup Faulty.cell
           _ _ _ eq_refl eq_refl eq_refl Hcall Hn).
Defined.

(** X7.  When [fn] throws inside the outermost [batch], the pending trackers
    are still notified before the error leaves: if the drain completes, every
    pending tracker has been notified, nothing is pending, the depth is 0 and
    the error thrown is the one of [fn]; if a notified tracker throws, that
    error replaces it. *)
Theorem X7_batch_drains_on_throw code n fn st err st1 :
  batchDepth st = 0 →
  call code (run code n) fn [] (set_batchDepth (batchDepth st + 1) st) = Thrown err st1 →
  let drain := for_each (notify code n) (pendingNotifications st1)
                 (set_pendingNotifications [] (set_batchDepth 0 st1)) in
  let exit := batch code (run code n) (notify code n) fn st in
  (∀ st2, drain = Ok () st2 →
     exit = Thrown err st2 ∧ batchDepth st2 = 0 ∧
     ∀ t, t ∈ pendingNotifications st1 →
          (occurrences (Notified t) (history st1)
           < occurrences (Notified t) (history st2))%nat) ∧
  (∀ err2 st2, drain = Thrown err2 st2 → exit = Thrown err2 st2) ∧
  (∀ v st2, exit ≠ Ok v st2).
Proof.
  intros Hd Hfn drain exit.
  pose proof (call_sound code _ (run_sound code n) fn []
                (set_batchDepth (batchDepth st + 1) st)) as Hs.
  rewrite Hfn in Hs. destruct Hs as ((_ & _ & Hd1) & _). simpl in Hd1.
  assert (exit = (_ <~ drain ;; λ st', Thrown err st')) as Hexit.
  { unfold exit, batch. rewrite Hfn. cbn [try_finally_with]. cbv zeta.
    replace (batchDepth st1 - 1) with 0 by lia. reflexivity. }
  split_and!.
  - intros st2 Hdrain. rewrite Hexit, Hdrain. split; [done|]. split.
    + pose proof (for_each_sound (notify code n) (pendingNotifications st1)
                    (set_pendingNotifications [] (set_batchDepth 0 st1))
                    (notify_sound code n)) as Hs.
      fold drain in Hs. rewrite Hdrain in Hs. by destruct Hs as ((_ & _ & ->) & _).
    + intros t Ht. by apply (drain_notifies code n _ _ _ Hdrain t Ht).
  - intros err2 st2 Hdrain. by rewrite Hexit, Hdrain.
  - intros v st2. rewrite Hexit. by destruct drain.
Qed.

Lemma X7_batch_drains_on_throw_witness :
  ∃ st2,
    batch Faulty.code (run Faulty.code 10) (notify Faulty.code 10) (VFunction 2)
      Faulty.after_setup = Thrown (VString "stop") st2 ∧
    batchDepth st2 = 0 ∧ log st2 = [num 1; num 1].
Proof.
  eassert (call Faulty.code (run Faulty.code 10) (VFunction 2) []
             (set_batchDepth (batchDepth Faulty.after_setup + 1) Faulty.after_setup)
           = Thrown (VString "stop") _) as Hfn by (vm_compute; reflexivity).
  pose proof (X7_batch_drains_on_throw Faulty.code 10 (VFunction 2) Faulty.after_setup
                _ _ eq_refl Hfn) as (Hok & _ & _).
  eassert (for_each (notify Faulty.code 10) _ _ = Ok () _) as Hdrain;
    [|destruct (Hok _ Hdrain) as (Hexit & Hd & _)].
  { vm_compute. reflexivity. }
  eexists. split; [exact Hexit|]. split; [exact Hd|reflexivity].
Defined.

(** * Reads without tracking *)

Lemma push_pop_None st :
  pop_tracker (push_tracker None st) = st.
Proof. by destruct st. Qed.

(** X8.  [untrack(() => s())] is [s.peek()]: it returns the value of [s] and
    leaves the whole state as it was, whatever tracker is active. *)
Theorem X8_untrack_read_is_peek code n f s st cell :
  code f [] = Read s Return →
  signals st !! s = Some cell →
  run code (3 + n) (Untrack (VFunction f) Return) st = Ok (sig_value cell) st ∧
  run code (2 + n) (Peek s Return) st = Ok (sig_value cell) st.
Proof.
  intros Hf Hs. split.
  - change (run code (3 + n) (Untrack (VFunction f) Return) st)
      with (v <~ try_finally (run code (S (S n)) (code f []) (push_tracker None st))
                   pop_tracker ;; run code (S (S n)) (Return v)).
    rewrite Hf.
    change (run code (S (S n)) (Read s Return) (push_tracker None st))
      with (v <~ sig_read s (push_tracker None st) ;; run code (S n) (Return v)).
    unfold sig_read. change (signals (push_tracker None st)) with (signals st).
    rewrite Hs. cbn [bind]. unfold track. cbn [activeTracker push_tracker set_activeTracker].
    change (run code (S n) (Return (sig_value cell)) ?x) with (Ok (sig_value cell) x).
    cbn [try_finally bind]. rewrite push_pop_None. reflexivity.
  - change (run code (2 + n) (Peek s Return) st)
      with (v <~ sig_peek s st ;; run code (S n) (Return v)).
    unfold sig_peek. by rewrite Hs.
Qed.


Lemma X8_untrack_read_is_peek_witness :
  run Untracked.code 3 (Untrack (VFunction 1) Return)
    (set_activeTracker (Some (EffectTracker 0)) Pair.after_setup)
  = Ok (num 0) (set_activeTracker (Some (EffectTracker 0)) Pair.after_setup).
Proof.
  exact (proj1 (X8_untrack_read_is_peek Untracked.code 0 1 1
                  (set_activeTracker (Some (EffectTracker 0)) Pair.after_setup)
                  {| sig_value := num 0; sig_subscribers := [EffectTracker 0] |}
                  eq_refl eq_refl)).
Defined.

(** * Injection *)

Lemma find_provided_below key chain o :
  Forall (lacks key) chain → find_provided key (below chain o) = find_provided key o.
Proof.
  induction 1 as [|p chain Hp _ IH]; [done|].
  simpl. unfold lacks in Hp. by rewrite Hp.
Qed.

Lemma want_found code run key fallback st o p_self v :
  currentOwner st = Some (Owner p_self (Some o)) →
  find_provided key o = Some v →
  want code run key fallback st = Ok v st.
Proof. intros Ho Hv. unfold want. rewrite Ho. simpl. by rewrite Hv. Qed.

(** X9.  What a component shares under a key that is not an inherited name is
    found by [want] in every descendant below it, through any chain of owners
    that do not hold the key, whatever the fallback (which is not called) and
    whatever ancestors further up share; the state is not changed.  (The
    sharing owner and the owners of the chain were never given a
    ["__proto__"].) *)
Theorem X9_want_finds_shared code run key v fallback chain st o' p_self st_c :
  plain_key key →
  Forall (lacks "__proto__") (owner_provided o' :: chain) →
  currentOwner (share key v st) = Some o' →
  Forall (lacks key) chain →
  currentOwner st_c = Some (Owner p_self (Some (below chain o'))) →
  want code run key fallback st_c = Ok v st_c.
Proof.
  intros _ _ Ho' Hchain Hc. eapply want_found; [exact Hc|].
  rewrite find_provided_below by done.
  unfold share in Ho'. destruct (currentOwner st) as [[p parent]|] eqn:Ho.
  - simpl in Ho'. injection Ho' as <-. simpl. by rewrite lookup_insert_eq.
  - unfold console_warn in Ho'. simpl in Ho'. congruence.
Qed.

Lemma X9_want_finds_shared_witness :
  want Injection.code (run Injection.code 0) "theme" VUndefined
    (set_currentOwner
       (Some (Owner None (Some (below [None; Some {["user" := VObject 2]}]
          (Owner (Some (<["theme" := VString "dark"]> {["user" := VObject 1]})) None)))))
       initial_state)
  = Ok (VString "dark")
      (set_currentOwner
       (Some (Owner None (Some (below [None; Some {["user" := VObject 2]}]
          (Owner (Some (<["theme" := VString "dark"]> {["user" := VObject 1]})) None)))))
       initial_state).
Proof.
  apply (X9_want_finds_shared Injection.code _ "theme" (VString "dark") VUndefined
           [None; Some {["user" := VObject 2]}]
           (set_currentOwner (Some Injection.root) initial_state)
           (Owner (Some (<["theme" := VString "dark"]> {["user" := VObject 1]})) None)
           None).
  - compute_done.
  - repeat constructor.
  - reflexivity.
  - repeat constructor.
  - reflexivity.
Defined.

(** X10.  [want] starts at the parent: a component does not find what it has
    shared itself.  If no ancestor shares the key, which is not an inherited
    name, [want] after [share] of that key in the same component still ends in
    the call of the fallback.  (No ancestor was ever given a ["__proto__"].) *)
Theorem X10_own_share_not_found code run key v fallback st :
  plain_key key → not_shared "__proto__" st →
  not_shared key st →
  want code run key fallback (share key v st) = call code run fallback [] (share key v st).
Proof.
  intros _ _ Hns. apply want_not_shared. unfold not_shared, share in *.
  destruct (currentOwner st) as [[p parent]|] eqn:Ho; simpl in *; [done|].
  by rewrite Ho.
Qed.

Lemma X10_own_share_not_found_witness :
  want Injection.code (run Injection.code 2) "theme" (VFunction 0)
    (share "theme" (VString "dark") Injection.in_child)
  = Ok (VString "light") (share "theme" (VString "dark") Injection.in_child).
Proof.
  rewrite (X10_own_share_not_found Injection.code (run Injection.code 2) "theme"
             (VString "dark") (VFunction 0) Injection.in_child);
    [reflexivity|compute_done|reflexivity|reflexivity].
Defined.

(** X11.  Shares of one component accumulate: after [share(k1, v1)] and then
    [share(k2, v2)], for keys other than ["__proto__"] in an owner that was
    never given one, a child finds [v2] under [k2], and under a different key
    [k1] still [v1]. *)
Theorem X11_shares_accumulate code run k1 v1 k2 v2 fallback st o' p_self st_c :
  k1 ≠ "__proto__" → k2 ≠ "__proto__" → lacks "__proto__" (owner_provided o') →
  currentOwner (share k2 v2 (share k1 v1 st)) = Some o' →
  currentOwner st_c = Some (Owner p_self (Some o')) →
  want code run k2 fallback st_c = Ok v2 st_c ∧
  (k1 ≠ k2 → want code run k1 fallback st_c = Ok v1 st_c).
Proof.
  intros _ _ _ Ho' Hc.
  assert (∃ p parent, o' = Owner (Some (<[k2 := v2]> (<[k1 := v1]> (default ∅ p)))) parent)
    as (p & parent & ->).
  { unfold share in Ho'. destruct (currentOwner st) as [[p parent]|] eqn:Ho; simpl in Ho'.
    - injection Ho' as <-. by eexists _, _.
    - rewrite Ho in Ho'. simpl in Ho'. congruence. }
  split.
  - eapply want_found; [exact Hc|]. simpl. by rewrite lookup_insert_eq.
  - intros Hne. eapply want_found; [exact Hc|]. simpl.
    by rewrite lookup_insert_ne, lookup_insert_eq.
Qed.

Lemma X11_shares_accumulate_witness :
  want Injection.code (run Injection.code 0) "a" VUndefined
    (set_currentOwner
       (Some (Owner None (Some (Owner (Some (<["b" := num 2]> (<["a" := num 1]> ∅))) None))))
       initial_state)
  = Ok (num 1)
    (set_currentOwner
       (Some (Owner None (Some (Owner (Some (<["b" := num 2]> (<["a" := num 1]> ∅))) None))))
       initial_state).
Proof.
  refine (proj2 (X11_shares_accumulate Injection.code _ "a" (num 1) "b" (num 2) VUndefined
             (set_currentOwner (Some (Owner None None)) initial_state)
             (Owner (Some (<["b" := num 2]> (<["a" := num 1]> ∅))) None)
             None
             (set_currentOwner
                (Some (Owner None
                   (Some (Owner (Some (<["b" := num 2]> (<["a" := num 1]> ∅))) None))))
                initial_state)
             _ _ eq_refl eq_refl eq_refl) _); discriminate.
Defined.

(** * Laziness *)

Lemma only_marks_refl st : only_marks st st.
Proof. split; [done|]. exists []. by rewrite app_nil_r. Qed.

Lemma only_marks_trans st1 st2 st3 :
  only_marks st1 st2 → only_marks st2 st3 → only_marks st1 st3.
Proof.
  intros [E1 (h1 & H1 & F1)] [E2 (h2 & H2 & F2)]. split; [congruence|].
  exists (h1 ++ h2). split; [by rewrite H2, H1, app_assoc|by apply Forall_app].
Qed.

Lemma unmarked_effects st st' : unmarked st' = unmarked st → effects st' = effects st.
Proof. intros H. by injection H. Qed.

Lemma unmarked_dirty b c st : unmarked (alter_computed (with_dirty b) c st) = unmarked st.
Proof.
  assert (with_dirty false <$> alter (with_dirty b) c (computeds st)
          = with_dirty false <$> computeds st) as E.
  { apply list_eq. intros i.
    rewrite !list_lookup_fmap. destruct (decide (c = i)) as [->|Hne].
    - rewrite list_lookup_alter_eq. by destruct (computeds st !! i).
    - by rewrite list_lookup_alter_ne. }
  unfold unmarked, alter_computed, set_history, set_pendingNotifications, set_computeds.
  simpl. by rewrite E.
Qed.

Lemma only_marks_pending x st : only_marks st (set_pendingNotifications x st).
Proof. split; [done|]. exists []. simpl. by rewrite app_nil_r. Qed.

Lemma trigger_only_marks (notify : tracker → state → outcome unit) ss :
  (∀ t st, no_live_effects st →
     match notify t st with
     | Ok _ st' => only_marks st st'
     | Thrown _ _ => False
     | OutOfFuel => True
     end) →
  ∀ st, no_live_effects st →
    match trigger notify ss st with
    | Ok _ st' => only_marks st st'
    | Thrown _ _ => False
    | OutOfFuel => True
    end.
Proof.
  intros Hnotify st. unfold trigger. generalize (subscribers_of ss st). intros l.
  revert st. induction l as [|x l IHl]; intros st0 Hno0; cbn [for_each];
    [apply only_marks_refl|].
  assert (match (if 0 <? batchDepth st0
                 then Ok () (set_pendingNotifications
                               (set_add x (pendingNotifications st0)) st0)
                 else notify x st0) with
          | Ok _ st' => only_marks st0 st'
          | Thrown _ _ => False
          | OutOfFuel => True
          end) as Hx.
  { destruct (0 <? batchDepth st0); [apply only_marks_pending|by apply Hnotify]. }
  destruct (if 0 <? batchDepth st0 then _ else _) as [[] st1| |]; cbn [bind]; [|done..].
  assert (no_live_effects st1) as Hno1.
  { unfold no_live_effects. destruct Hx as [E _]. by rewrite (unmarked_effects _ _ E). }
  specialize (IHl st1 Hno1). destruct (for_each _ l st1); [|done..].
  by eapply only_marks_trans.
Qed.

(** Without an active effect, [_notify] only marks: it cannot throw, and when
    it returns the state differs in dirty flags, pending trackers and recorded
    notifications only. *)
Lemma notify_only_marks code n : ∀ t st,
  no_live_effects st →
  match notify code n t st with
  | Ok _ st' => only_marks st st'
  | Thrown _ _ => False
  | OutOfFuel => True
  end.
Proof.
  induction n as [|n IH]; intros t st Hno; [done|].
  assert (only_marks st (record (Notified t) st)) as Hrec.
  { split; [done|]. exists [Notified t]. split; [done|]. repeat constructor. by eexists. }
  simpl. destruct t as [c|e]; simpl.
  - unfold computed_notify. simpl. destruct (computeds st !! c) as [cell|]; [|done].
    destruct (dirty cell); simpl; [done|].
    set (st1 := alter_computed (with_dirty true) c (record (Notified (ComputedTracker c)) st)).
    assert (only_marks st st1) as H1.
    { eapply only_marks_trans; [exact Hrec|]. split; [apply unmarked_dirty|].
      exists []. by rewrite app_nil_r. }
    assert (no_live_effects st1) as Hno1 by done.
    pose proof (trigger_only_marks (notify code n) (ComputedSubscribers c) IH st1 Hno1)
      as Hloop.
    destruct (trigger _ _ st1); [|done..].
    by eapply only_marks_trans.
  - unfold effect_notify. simpl. destruct (effects st !! e) as [cell|] eqn:He; [|done].
    by rewrite (Hno e cell He).
Qed.

(** X12.  While no effect is active, a write of a value runs no function of
    the caller: it cannot throw, and when it returns the state is the one with
    the new value stored, up to dirty flags, pending trackers and recorded
    [_notify] calls; no compute function has been invoked. *)
Theorem X12_write_without_effects_only_marks code n s arg st cell :
  no_live_effects st → signals st !! s = Some cell → is_function arg = false →
  match sig_write code (run code n) (notify code n) s arg st with
  | Ok _ st' =>
      only_marks (if Object_is (sig_value cell) arg then st
                  else alter_signal (with_sig_value arg) s st) st' ∧
      ∀ c, occurrences (Computed c) (history st') = occurrences (Computed c) (history st)
  | Thrown _ _ => False
  | OutOfFuel => True
  end.
Proof.
  intros Hno Hs Hlit. rewrite (sig_write_literal code _ _ s arg st cell Hs Hlit).
  assert (∀ st0 st', only_marks st0 st' → history st0 = history st →
            ∀ c, occurrences (Computed c) (history st')
                 = occurrences (Computed c) (history st)) as Hocc.
  { intros st0 st' [_ (h & Hh & HF)] E c. rewrite Hh, E, occurrences_app.
    rewrite (occurrences_notin _ h); [lia|].
    intros Hin. rewrite Forall_forall in HF. by destruct (HF _ Hin). }
  destruct (Object_is (sig_value cell) arg).
  - split; [apply only_marks_refl|done].
  - set (st1 := alter_signal (with_sig_value arg) s st).
    assert (no_live_effects st1) as Hno1 by done.
    pose proof (trigger_only_marks (notify code n) (SignalSubscribers s)
                  (notify_only_marks code n) st1 Hno1) as Hloop.
    destruct (trigger _ _ st1) as [[] st'| |]; cbn [bind]; [|done..].
    split; [done|]. by apply (Hocc st1 st').
Qed.

Lemma Doubling_disposed_no_live_effects v b h : no_live_effects (Doubling.disposed v b h).
Proof. intros [|e] cell H; [by injection H as <-|done]. Qed.

Lemma X12_write_without_effects_only_marks_witness :
  ∃ st', sig_write Doubling.code (run Doubling.code 5) (notify Doubling.code 5) 0 (num 7)
           (Doubling.disposed (num 5) false []) = Ok VUndefined st' ∧
         only_marks (alter_signal (with_sig_value (num 7)) 0
                       (Doubling.disposed (num 5) false [])) st'.
Proof.
  eassert (sig_write Doubling.code (run Doubling.code 5) (notify Doubling.code 5) 0 (num 7)
             (Doubling.disposed (num 5) false []) = Ok VUndefined _) as Hw
    by (vm_compute; reflexivity).
  pose proof (X12_write_without_effects_only_marks Doubling.code 5 0 (num 7)
                (Doubling.disposed (num 5) false [])
                {| sig_value := num 5; sig_subscribers := [ComputedTracker 0] |}
                (Doubling_disposed_no_live_effects _ _ _) eq_refl eq_refl) as H.
  rewrite Hw in H. eexists. split; [exact Hw|exact (proj1 H)].
Defined.

(** * Updaters *)



(** * Creation of an effect *)

(** X14.  [_makeEffect] evaluates the body before it returns: the new effect
    is the next free cell, the first thing recorded is its evaluation, made
    with the effect's own tracker pushed, and what the body returned is stored
    as the cleanup callback. *)
Theorem X14_effect_runs_at_creation code n fn st e st' :
  _makeEffect code (run code n) fn st = Ok e st' →
  e = length (effects st) ∧
  ∃ r st_b h cell',
    call code (run code n) fn []
      (push_tracker (Some (EffectTracker e))
         (record (EffectRan e)
            (set_effects (effects st ++
               [{| effectFn := fn; cleanupFn := VNull; active := true; eff_deps := [] |}])
               st))) = Ok r st_b ∧
    history st' = history st ++ EffectRan e :: h ∧
    effects st' !! e = Some cell' ∧ cleanupFn cell' = r.
Proof.
  unfold _makeEffect. cbv zeta. set (e0 := length (effects st)).
  set (st0 := set_effects _ st). intros H.
  assert (effects st0 !! e0 = Some {| effectFn := fn; cleanupFn := VNull; active := true;
                                      eff_deps := [] |}) as Hcell.
  { unfold st0, e0. simpl. by rewrite lookup_app_r, Nat.sub_diag. }
  unfold execute, call_cleanupFn in H. rewrite Hcell in H. cbn [cleanupFn is_function bind] in H.
  rewrite Hcell in H. cbn [from_option effectFn] in H.
  assert (cleanupTracker (EffectTracker e0) st0 = st0) as Hclean.
  { unfold cleanupTracker, deps_of. rewrite Hcell.
    cbn [from_option eff_deps foldl alter_deps]. unfold alter_effect.
    assert (alter (with_eff_deps (λ _, [])) e0 (effects st0) = effects st0) as ->.
    { apply list_eq. intros i. destruct (decide (e0 = i)) as [<-|Hne].
      - rewrite list_lookup_alter_eq. by rewrite Hcell.
      - by rewrite list_lookup_alter_ne. }
    reflexivity. }
  rewrite Hclean in H. unfold runWithTracker in H.
  set (st_p := push_tracker _ _) in *.
  pose proof (call_sound code _ (run_sound code n) fn [] st_p) as Hs.
  pose proof (call_steady code _ (run_steady code n) fn [] st_p) as Hg.
  destruct (call _ _ _ _ _) as [r st_b| |] eqn:Hcall; cbn [try_finally bind] in H; [|done..].
  apply Ok_inj in H as [<- <-]. split; [done|].
  destruct Hs as (_ & (h & Hh & _) & _). destruct Hg as [(_ & _ & _ & Hle) _].
  assert (e0 < length (effects st_b))%nat as Hlt.
  { apply lookup_lt_Some in Hcell.
    change (length (effects st_p)) with (length (effects st0)) in Hle. lia. }
  apply lookup_lt_is_Some in Hlt as [cell_b Hcb].
  exists r, st_b, h, (with_cleanupFn r cell_b). split_and!; [done| | |done].
  - simpl. unfold pop_tracker. destruct (trackerStack st_b); simpl; rewrite Hh; simpl;
      by rewrite <- app_assoc.
  - simpl. rewrite list_lookup_alter_eq.
    assert (effects (pop_tracker st_b) = effects st_b) as ->.
    { unfold pop_tracker. by destruct (trackerStack st_b). }
    by rewrite Hcb.
Qed.

Lemma X14_effect_runs_at_creation_witness :
  ∃ st', _makeEffect Cleanup.code (run Cleanup.code 5) (VFunction 0)
           (set_signals [{| sig_value := num 0; sig_subscribers := [] |}] initial_state)
         = Ok 0%nat st' ∧
         ∃ cell', effects st' !! 0%nat = Some cell' ∧ cleanupFn cell' = VFunction 1.
Proof.
  eassert (_makeEffect Cleanup.code (run Cleanup.code 5) (VFunction 0)
             (set_signals [{| sig_value := num 0; sig_subscribers := [] |}] initial_state)
           = Ok 0%nat _) as Hm by (vm_compute; reflexivity).
  destruct (X14_effect_runs_at_creation _ _ _ _ _ _ Hm)
    as (_ & r & st_b & h & cell' & Hcall & _ & Hc & Hr).
  eexists. split; [exact Hm|]. exists cell'. split; [exact Hc|].
  rewrite Hr. vm_compute in Hcall. by injection Hcall as <- _.
Defined.

(** * Components: index reuse *)

Lemma same_value_zero_refl v : same_value_zero v v = true.
Proof. unfold same_value_zero, Object_is. by rewrite bool_decide_eq_true_2. Qed.

Lemma Set_has_app v l w : Set_has v (l ++ [w]) = Set_has v l || same_value_zero v w.
Proof. unfold Set_has. rewrite existsb_app. simpl. by rewrite orb_false_r. Qed.

Lemma signal_index_bounded v o st :
  (signalIndex o ≤ length (owner_signals o))%nat →
  (signalIndex (signal v o st).1.2 ≤ length (owner_signals (signal v o st).1.2))%nat.
Proof.
  intros H. unfold signal. destruct (currentOwner st); [|done].
  destruct (mode o) as [[]|]; [done| |done].
  cbn [owner_signals with_signalIndex].
  destruct (owner_signals o !! signalIndex o) eqn:E; simpl.
  - apply lookup_lt_Some in E. lia.
  - apply lookup_ge_None in E. rewrite length_app. simpl. lia.
Qed.

Lemma setup_reuse inits : ∀ pre sigs post o st,
  currentOwner st ≠ None → mode o = Some Jsx →
  owner_signals o = pre ++ sigs ++ post → signalIndex o = length pre →
  length inits = length sigs →
  signals_of_setup inits o st = (sigs, with_signalIndex (length pre + length sigs) o, st).
Proof.
  induction inits as [|v inits IH]; intros pre sigs post o st Hown Hmode Hsigs Hidx Hlen.
  - destruct sigs; [|done]. simpl. rewrite Nat.add_0_r, <- Hidx. by destruct o.
  - destruct sigs as [|sig sigs]; [done|]. simpl in Hlen.
    cbn [signals_of_setup]. unfold signal at 1.
    destruct (currentOwner st) eqn:Ho; [|done]. rewrite Hmode.
    cbn [owner_signals with_signalIndex]. rewrite Hsigs, Hidx.
    rewrite lookup_app_r, Nat.sub_diag by lia. cbn [lookup list_lookup app].
    rewrite (IH (pre ++ [sig]) sigs post); cbn [owner_signals mode signalIndex with_signalIndex].
    + f_equal. f_equal. rewrite length_app. simpl. unfold with_signalIndex. simpl.
      f_equal. lia.
    + by rewrite Ho.
    + done.
    + rewrite Hsigs. by rewrite <- app_assoc.
    + rewrite length_app. simpl. lia.
    + lia.
Qed.

Lemma setup_create inits : ∀ o st,
  currentOwner st ≠ None → mode o = Some Jsx →
  signalIndex o = length (owner_signals o) →
  signals_of_setup inits o st
  = (seq (length (signals st)) (length inits),
     with_owner_signals (owner_signals o ++ seq (length (signals st)) (length inits))
       (with_signalIndex (signalIndex o + length inits) o),
     set_signals (signals st ++
       ((λ v, {| sig_value := v; sig_subscribers := [] |}) <$> inits)) st).
Proof.
  induction inits as [|v inits IH]; intros o st Hown Hmode Hidx.
  - simpl. rewrite !app_nil_r, Nat.add_0_r. by destruct o, st.
  - cbn [signals_of_setup]. unfold signal at 1.
    destruct (currentOwner st) eqn:Ho; [|done]. rewrite Hmode.
    cbn [owner_signals with_signalIndex]. rewrite Hidx at 1.
    rewrite (proj2 (lookup_ge_None _ _)) by lia.
    unfold createSignal.
    rewrite IH; cbn [owner_signals mode signalIndex with_signalIndex with_owner_signals
                     signals set_signals currentOwner].
    + rewrite !length_app. simpl. rewrite Nat.add_1_r.
      f_equal; [f_equal|].
      * unfold with_owner_signals, with_signalIndex. simpl. f_equal.
        -- by rewrite <- app_assoc.
        -- lia.
      * unfold set_signals. simpl. by rewrite <- app_assoc.
    + by rewrite Ho.
    + done.
    + rewrite length_app. simpl. lia.
Qed.

(** X15.  In 'jsx' mode the signals of a component survive its re-renders.
    The first run of the setup creates one signal for each call of [signal],
    holding its initial value; a later run with the index reset, in whatever
    state and with whatever initial values, gets the same signals back in the
    same order, creates nothing, and stores none of the new initial values. *)
Theorem X15_signals_reused_on_rerender inits inits' o st sigs o1 st1 st2 :
  currentOwner st ≠ None → currentOwner st2 ≠ None →
  mode o = Some Jsx → owner_signals o = [] → signalIndex o = 0%nat →
  signals_of_setup inits o st = (sigs, o1, st1) →
  length inits' = length inits →
  sigs = seq (length (signals st)) (length inits) ∧
  Forall2 (λ sig v, signals st1 !! sig = Some {| sig_value := v; sig_subscribers := [] |})
    sigs inits ∧
  signals_of_setup inits' (with_signalIndex 0 o1) st2 = (sigs, o1, st2).
Proof.
  intros Hown Hown2 Hmode Hsigs Hidx Hsetup Hlen.
  rewrite setup_create in Hsetup by (done || by rewrite Hsigs, Hidx).
  injection Hsetup as <- <- <-. rewrite Hsigs, Hidx. cbn [app Nat.add].
  split_and!; [done| |].
  - cbn [signals set_signals]. apply Forall2_same_length_lookup_2.
    { by rewrite length_seq. }
    intros i sig v Hsig Hv. apply lookup_seq in Hsig as [-> Hlt].
    rewrite lookup_app_r by lia.
    replace (length (signals st) + i - length (signals st))%nat with i by lia.
    by rewrite list_lookup_fmap, Hv.
  - rewrite (setup_reuse inits' [] (seq (length (signals st)) (length inits)) []);
      cbn [owner_signals mode signalIndex with_signalIndex with_owner_signals length Nat.add];
      rewrite ?length_seq, ?app_nil_r; try done.
Qed.

Lemma X15_signals_reused_on_rerender_witness :
  signals_of_setup [num 1; num 2] jsx_owner_slots (in_component initial_state)
  = ([0; 1]%nat,
     with_owner_signals [0; 1]%nat (with_signalIndex 2 jsx_owner_slots),
     set_signals [{| sig_value := num 1; sig_subscribers := [] |};
                  {| sig_value := num 2; sig_subscribers := [] |}]
       (in_component initial_state)) ∧
  signals_of_setup [num 7; num 8]
    (with_signalIndex 0 (with_owner_signals [0; 1]%nat (with_signalIndex 2 jsx_owner_slots)))
    (in_component Counter.st)
  = ([0; 1]%nat, with_owner_signals [0; 1]%nat (with_signalIndex 2 jsx_owner_slots),
     in_component Counter.st).
Proof.
  split; [reflexivity|].
  refine (proj2 (proj2 (X15_signals_reused_on_rerender [num 1; num 2] [num 7; num 8]
    jsx_owner_slots (in_component initial_state) _ _ _ (in_component Counter.st)
    _ _ eq_refl eq_refl eq_refl eq_refl eq_refl))); discriminate.
Defined.

(** X16.  In 'jsx' mode [onCleanup] registers a callback once: [signal]
    keeps [signalIndex] within [owner.signals], so the early return of
    [onCleanup] is never taken, the callback is pushed exactly when the
    owner's set does not hold it yet, and to register it again changes
    nothing. *)
Theorem X16_onCleanup_registers_once fn o st :
  currentOwner st ≠ None → mode o ≠ Some RenderFn →
  (signalIndex o ≤ length (owner_signals o))%nat →
  disposables (onCleanup fn o st)
    = disposables o ++
      (if Set_has fn (default [] (_cleanupSet o)) then [] else [CleanupCallback fn]) ∧
  onCleanup fn (onCleanup fn o st) st = onCleanup fn o st ∧
  ∀ v, (signalIndex (signal v (onCleanup fn o st) st).1.2
        ≤ length (owner_signals (signal v (onCleanup fn o st) st).1.2))%nat.
Proof.
  intros Hown Hmode Hidx.
  assert (onCleanup fn o st
    = if Set_has fn (default [] (_cleanupSet o))
      then with__cleanupSet (Some (default [] (_cleanupSet o))) o
      else with_disposables (disposables o ++ [CleanupCallback fn])
             (with__cleanupSet (Some (default [] (_cleanupSet o) ++ [fn])) o)) as E.
  { unfold onCleanup. destruct (currentOwner st); [|done].
    assert ((length (owner_signals o) <? signalIndex o)%nat = false) as Hguard
      by (apply Nat.ltb_ge; lia).
    destruct (mode o) as [[]|]; [done| |]; by rewrite Hguard. }
  split_and!.
  - rewrite E. destruct (Set_has _ _); simpl; by rewrite ?app_nil_r.
  - rewrite E. unfold onCleanup. destruct (currentOwner st); [|done].
    destruct (Set_has fn (default [] (_cleanupSet o))) eqn:Hhas;
      cbn [mode with__cleanupSet with_disposables owner_signals signalIndex _cleanupSet
           default from_option id].
    + assert ((length (owner_signals o) <? signalIndex o)%nat = false) as ->
        by (apply Nat.ltb_ge; lia).
      rewrite Hhas. by destruct (mode o) as [[]|].
    + assert ((length (owner_signals o) <? signalIndex o)%nat = false) as ->
        by (apply Nat.ltb_ge; lia).
      rewrite Set_has_app, same_value_zero_refl, orb_true_r.
      by destruct (mode o) as [[]|].
  - intros v. apply signal_index_bounded. rewrite E. by destruct (Set_has _ _).
Qed.

Lemma X16_onCleanup_registers_once_witness :
  disposables (onCleanup (VFunction 1) jsx_owner_slots (in_component initial_state))
    = [CleanupCallback (VFunction 1)] ∧
  disposables (onCleanup (VFunction 1)
                 (onCleanup (VFunction 1) jsx_owner_slots (in_component initial_state))
                 (in_component initial_state))
    = [CleanupCallback (VFunction 1)].
Proof.
  pose proof (X16_onCleanup_registers_once (VFunction 1) jsx_owner_slots
                (in_component initial_state)) as H.
  destruct H as (H1 & H2 & _); [discriminate|discriminate|simpl; lia|].
  split; [exact H1|]. rewrite H2. exact H1.
Defined.



(** * The two copies of [want] *)

(** X18.  For a key that is not an inherited name, and ancestors that were
    never given a ["__proto__"]: the condensed copy of [want] agrees with that
    of [kra.js] whenever the fallback is a function; with any other fallback
    it never throws and returns the shared value if there is one and the
    fallback itself if not, leaving the state as it is. *)
Theorem X18_condensed_want code run key fallback st :
  plain_key key → not_shared "__proto__" st →
  Condensed.want code run key fallback st
  = if is_function fallback then want code run key fallback st
    else Ok (default fallback ((currentOwner st ≫= owner_parent) ≫= find_provided key)) st.
Proof.
  intros _ _. unfold Condensed.want, want.
  destruct (currentOwner st) as [o|]; cbn [mbind option_bind].
  - destruct (owner_parent o ≫= find_provided key); by destruct (is_function fallback).
  - done.
Qed.

Lemma X18_condensed_want_witness :
  Condensed.want Injection.code (run Injection.code 0) "theme" (VString "dark")
    Injection.in_child = Ok (VString "dark") Injection.in_child ∧
  Condensed.want Injection.code (run Injection.code 0) "user" (VString "nobody")
    Injection.in_child = Ok (VObject 1) Injection.in_child.
Proof.
  split.
  - rewrite (X18_condensed_want Injection.code (run Injection.code 0) "theme"
               (VString "dark") Injection.in_child); [reflexivity|compute_done|reflexivity].
  - rewrite (X18_condensed_want Injection.code (run Injection.code 0) "user"
               (VString "nobody") Injection.in_child); [reflexivity|compute_done|reflexivity].
Defined.

(** * Reading twice *)

Lemma set_add_idemp {A} `{EqDecision A} (x : A) (l : list A) :
  set_add x (set_add x l) = set_add x l.
Proof.
  unfold set_add. destruct (decide (x ∈ l)) as [Hin|Hnin].
  - by rewrite decide_True.
  - rewrite decide_True; [done|]. apply elem_of_app. right. by apply list_elem_of_singleton.
Qed.

Lemma lookup_alter_cases {A} (f : A → A) (i j : nat) (l : list A) :
  alter f i l !! j = (if decide (i = j) then f else id) <$> l !! j.
Proof.
  destruct (decide (i = j)) as [->|Hne].
  - by rewrite list_lookup_alter_eq.
  - rewrite list_lookup_alter_ne by done. by destruct (l !! j).
Qed.

(** [track] is idempotent: a Set holds a tracker, or a dependency, once. *)
Lemma track_idemp ss st : track ss (track ss st) = track ss st.
Proof.
  unfold track. destruct (activeTracker st) as [t|] eqn:Ht; [|by rewrite Ht].
  assert (activeTracker (alter_deps (set_add ss) t (alter_subscribers (set_add t) ss st))
          = Some t) as -> by (by destruct t, ss).
  destruct st as [a ts b pn ow sigs comps effs lg cs h].
  destruct ss as [s|c], t as [c'|e];
    unfold alter_deps, alter_subscribers, alter_signal, alter_computed, alter_effect,
      set_signals, set_computeds, set_effects; simpl; f_equal;
    apply list_eq; intros i; rewrite !lookup_alter_cases;
    repeat (match goal with |- context [decide (?x = ?y)] => destruct (decide (x = y)) end);
    (match goal with |- context [?l !! i] => destruct (l !! i) as [[]|] end); simpl; try done;
    unfold with_sig_subscribers, with_comp_subscribers, with_comp_deps, with_eff_deps; simpl;
    by rewrite ?set_add_idemp.
Qed.

Lemma sig_read_track s st cell :
  signals st !! s = Some cell →
  sig_read s (track (SignalSubscribers s) st)
  = Ok (sig_value cell) (track (SignalSubscribers s) st).
Proof.
  intros Hs. unfold sig_read.
  assert (sig_value <$> signals (track (SignalSubscribers s) st) !! s = Some (sig_value cell))
    as Hs'.
  { unfold track. destruct (activeTracker st) as [[c|e]|]; simpl;
      rewrite ?list_lookup_alter_eq, Hs; done. }
  destruct (signals (track (SignalSubscribers s) st) !! s) as [cell'|]; [|done].
  injection Hs' as ->. by rewrite track_idemp.
Qed.

(** X19.  Reading a signal twice in a row is reading it once: the second read
    returns the same value and subscribes nothing more, so a body that reads
    a signal several times depends on it once.  (The second read uses one
    unit of fuel.) *)
Theorem X19_second_read_is_free code n s k st :
  defined_as (run code n (Read s (λ _, Read s k)) st) (run code n (Read s k) st) ∧
  defined_as (run code n (Read s k) st) (run code (S n) (Read s (λ _, Read s k)) st).
Proof.
  split.
  - destruct n as [|n]; [by left|]. rewrite !run_S. cbn [step]. unfold sig_read.
    destruct (signals st !! s) as [cell|] eqn:Hs; [|by right]. cbn [bind].
    destruct n as [|n]; [by left|]. rewrite (run_S _ _ (Read s k)). cbn [step].
    rewrite (sig_read_track s st cell Hs). cbn [bind].
    apply run_fuel. lia.
  - destruct n as [|n]; [by left|]. rewrite (run_S _ (S n)), (run_S _ n). cbn [step].
    unfold sig_read.
    destruct (signals st !! s) as [cell|] eqn:Hs; [|by right]. cbn [bind].
    rewrite (run_S _ n). cbn [step].
    rewrite (sig_read_track s st cell Hs). cbn [bind]. by right.
Qed.
